(** * snail-dancer: a shallow embedding of the validator core

    The development follows the TypeScript sources:
    - [src/types/index.ts]           records and the epoch constants;
    - [crypto] ([KeyPair], [SignatureUtils]);
    - [core/consensus] ([SimplifiedConsensus]);
    - [core/poh] ([ProofOfHistory]);
    - [core/block] ([BlockProducer]);
    - [core/transaction] ([TransactionProcessor]).

    Conventions.
    - A JavaScript string is its sequence of UTF-16 code units ([jsstring]);
      [===] on strings is equality of these sequences.
    - A JavaScript [number] that holds a slot, a count, a stake or a nonce is
      an integer of [Z]; all such values are taken to be safe integers
      (below 2^53), where the double arithmetic of the source is exact.
      Where the source divides ([hasSupermajority]), the operands become
      binary64 numbers ([Number]) and the arithmetic is that of IEEE 754.
    - SHA-256 is a parameter [sha256] of each section that hashes.
    - A [Map] is a [gmap]: the code never depends on insertion order (the only
      ordered traversal, [getActiveValidators], is followed by a sort).
    - [async] functions are modelled by the value their promise resolves to;
      [Date.now()] is an extra argument.
    - A [TypeError] (reading a property of [undefined]) is [None] in the
      option monad. *)

From Stdlib Require Import ZArith QArith List Ascii String Lia Permutation.
From Stdlib Require Import DecimalString.
From Stdlib Require SpecFloat.
From stdpp Require Import gmap list fin_maps.

Set Default Proof Using "Type".
Local Open Scope Z_scope.

(** ** JavaScript strings, buffers and numbers *)

Module JS.

(** A string is a list of UTF-16 code units. *)
Abbreviation jsstring := (list N).

Abbreviation byte := Byte.byte.

(** An ASCII literal as a JavaScript string. *)
Definition js (s : string) : jsstring :=
  List.map N_of_ascii (list_ascii_of_string s).

(** [Number.prototype.toString] on an integer: decimal, with a leading minus
    sign for negative numbers. *)
Definition Number_toString (z : Z) : jsstring :=
  js (NilZero.string_of_int (Z.to_int z)).

(** The byte with value [n mod 256]. *)
Definition byte_of_N (n : N) : byte :=
  default Byte.x00 (Byte.of_N (n mod 256)%N).

Definition is_high_surrogate (c : N) : bool :=
  ((0xD800 <=? c) && (c <=? 0xDBFF))%N.

Definition is_low_surrogate (c : N) : bool :=
  ((0xDC00 <=? c) && (c <=? 0xDFFF))%N.

(** U+FFFD, the replacement character, in UTF-8. *)
Definition utf8_replacement : list byte := [Byte.xef; Byte.xbf; Byte.xbd].

(** The UTF-8 encoding of one code point. *)
Definition utf8_code_point (cp : N) : list byte :=
  (if cp <? 0x80 then [byte_of_N cp]
   else if cp <? 0x800 then
     [byte_of_N (0xC0 + cp / 64); byte_of_N (0x80 + cp mod 64)]
   else if cp <? 0x10000 then
     [byte_of_N (0xE0 + cp / 4096); byte_of_N (0x80 + (cp / 64) mod 64);
      byte_of_N (0x80 + cp mod 64)]
   else
     [byte_of_N (0xF0 + cp / 262144); byte_of_N (0x80 + (cp / 4096) mod 64);
      byte_of_N (0x80 + (cp / 64) mod 64); byte_of_N (0x80 + cp mod 64)])%N.

(** [new TextEncoder().encode(s)], which is also [Buffer.from(s)] and what
    [hash.update(s)] feeds the digest: a surrogate pair is one code point, a
    lone surrogate is replaced by U+FFFD. *)
Fixpoint utf8_encode (s : jsstring) : list byte :=
  match s with
  | [] => []
  | c :: rest =>
    if is_high_surrogate c then
      match rest with
      | d :: rest' =>
        if is_low_surrogate d then
          utf8_code_point (0x10000 + (c - 0xD800) * 1024 + (d - 0xDC00))%N
            ++ utf8_encode rest'
        else utf8_replacement ++ utf8_encode rest
      | [] => utf8_replacement
      end
    else if is_low_surrogate c then utf8_replacement ++ utf8_encode rest
    else utf8_code_point c ++ utf8_encode rest
  end.

(** One lower-case hexadecimal digit. *)
Definition hex_char (d : N) : N :=
  (if d <? 10 then 48 + d else 87 + d)%N.

(** [buf.toString('hex')]. *)
Definition hex_encode (bs : list byte) : jsstring :=
  flat_map (fun b => [hex_char (Byte.to_N b / 16); hex_char (Byte.to_N b mod 16)]%N) bs.

(** The value of a byte read as a hexadecimal digit. *)
Definition hex_digit (c : N) : option N :=
  (if (48 <=? c) && (c <=? 57) then Some (c - 48)
   else if (97 <=? c) && (c <=? 102) then Some (c - 87)
   else if (65 <=? c) && (c <=? 70) then Some (c - 55)
   else None)%N.

(** [Buffer.from(s, 'hex')]: the decoder of Node reads the code units two by
    two, keeps the low byte of each, and decodes pairs up to the first pair
    whose two bytes are not both hexadecimal digits; a trailing single code
    unit is dropped. So a string decodes to 32 bytes as soon as the low bytes
    of its first 64 code units are digits and no third such pair follows. *)
Fixpoint hex_decode (s : jsstring) : list byte :=
  match s with
  | hi :: lo :: rest =>
    match hex_digit (hi mod 256), hex_digit (lo mod 256) with
    | Some h, Some l => byte_of_N (16 * h + l) :: hex_decode rest
    | _, _ => []
    end
  | _ => []
  end.

(** [buf.readUInt32BE(0)]. Every buffer read this way in the sources is a
    SHA-256 digest (32 bytes), so the range check of Node never fires; a
    missing byte reads as 0 here. *)
Definition readUInt32BE (buf : list byte) : Z :=
  let b i := Z.of_N (Byte.to_N (nth i buf Byte.x00)) in
  ((b 0%nat * 256 + b 1%nat) * 256 + b 2%nat) * 256 + b 3%nat.

(** [a % b] on integers: the sign follows the dividend; [NaN] ([None]) when
    the divisor is 0. *)
Definition rem (a b : Z) : option Z :=
  if b =? 0 then None else Some (Z.rem a b).

(** [x < y] where [x] may be [NaN]: a comparison with [NaN] is false. *)
Definition nan_ltb (x : option Z) (y : Z) : bool :=
  match x with Some x => x <? y | None => false end.

(** [arr.slice(0, e)]: a negative [e] counts from the end. *)
Definition slice0 {A} (l : list A) (e : Z) : list A :=
  if e <? 0 then take (Z.to_nat (Z.of_nat (length l) + e)) l
  else take (Z.to_nat e) l.

(** [arr.findIndex(p)]: the first index whose element satisfies [p], or -1. *)
Fixpoint findIndex_from {A} (p : A -> bool) (l : list A) (i : Z) : Z :=
  match l with
  | [] => -1
  | x :: l' => if p x then i else findIndex_from p l' (i + 1)
  end.

Definition findIndex {A} (p : A -> bool) (l : list A) : Z := findIndex_from p l 0.

(** [strs.join('')]. *)
Definition join (strs : list jsstring) : jsstring := concat strs.

(** [a === b] on strings. *)
Definition streq (a b : jsstring) : bool := bool_decide (a = b).

(** [arr.sort(cmp)]: the sort of the language is stable, so with a consistent
    comparator its result is the one of a stable insertion sort: an element
    goes before the first later element it does not exceed. *)
Fixpoint sort_insert {A} (cmp : A -> A -> Z) (x : A) (l : list A) : list A :=
  match l with
  | [] => [x]
  | y :: l' => if cmp x y <=? 0 then x :: y :: l' else y :: sort_insert cmp x l'
  end.

Definition sort {A} (cmp : A -> A -> Z) (l : list A) : list A :=
  foldr (sort_insert cmp) [] l.

(** [[l[i], l[j]] = [l[j], l[i]]] for indices in range. *)
Definition swap {A} (l : list A) (i j : nat) : list A :=
  match l !! i, l !! j with
  | Some a, Some b => <[j := a]> (<[i := b]> l)
  | _, _ => l
  end.

Example js_abc : js "a-0" = [97; 45; 48]%N.
Proof. reflexivity. Qed.

Example toString_neg : Number_toString (-12) = js "-12".
Proof. reflexivity. Qed.

Example toString_zero : Number_toString 0 = js "0".
Proof. reflexivity. Qed.

Example utf8_ascii : utf8_encode (js "hi") = [Byte.x68; Byte.x69].
Proof. reflexivity. Qed.

Example utf8_pair : utf8_encode [0xD83D; 0xDE00]%N = [Byte.xf0; Byte.x9f; Byte.x98; Byte.x80].
Proof. reflexivity. Qed.

Example utf8_three : utf8_encode [0x20AC]%N = [Byte.xe2; Byte.x82; Byte.xac].
Proof. reflexivity. Qed.

Example hex_decode_stops : hex_decode (js "1ag0") = [Byte.x1a].
Proof. reflexivity. Qed.

Example hex_decode_name : hex_decode (js "validator1") = [].
Proof. reflexivity. Qed.

Example hex_decode_low_byte :
  hex_decode (concat (replicate 32 [0x161; 0x162]%N)) = replicate 32 Byte.xab.
Proof. vm_compute. reflexivity. Qed.

Example hex_decode_trailing :
  hex_decode (concat (replicate 32 (js "a7")) ++ js "zz") = replicate 32 Byte.xa7.
Proof. vm_compute. reflexivity. Qed.

Lemma hex_decode_encode (bs : list byte) : hex_decode (hex_encode bs) = bs.
Proof.
  induction bs as [|b bs IH]; [reflexivity|].
  change (hex_encode (b :: bs))
    with (hex_char (Byte.to_N b / 16) :: hex_char (Byte.to_N b mod 16) :: hex_encode bs).
  cbn [hex_decode]. rewrite IH.
  destruct b; reflexivity.
Qed.

Lemma streq_true (a b : jsstring) : streq a b = true <-> a = b.
Proof. unfold streq. apply bool_decide_eq_true. Qed.

Lemma streq_false (a b : jsstring) : streq a b = false <-> a <> b.
Proof. unfold streq. apply bool_decide_eq_false. Qed.

Lemma streq_refl (a : jsstring) : streq a a = true.
Proof. by apply streq_true. Qed.

Lemma findIndex_from_spec {A} (p : A -> bool) (l : list A) (i : Z) :
  match list_find (fun x => p x = true) l with
  | Some (k, _) => findIndex_from p l i = i + Z.of_nat k
  | None => findIndex_from p l i = -1
  end.
Proof.
  revert i. induction l as [|x l IH]; intros i; [reflexivity|].
  cbn [findIndex_from list_find]. case_decide as Hp.
  - rewrite Hp. simpl. lia.
  - apply not_true_is_false in Hp. rewrite Hp.
    specialize (IH (i + 1)).
    destruct (list_find _ l) as [[k y]|]; simpl in *; [lia|done].
Qed.

Lemma sort_insert_Permutation {A} (cmp : A -> A -> Z) x l :
  sort_insert cmp x l ≡ₚ x :: l.
Proof.
  induction l as [|y l IH]; simpl; [done|].
  destruct (cmp x y <=? 0); [done|]. rewrite IH. apply Permutation_swap.
Qed.

Lemma sort_Permutation {A} (cmp : A -> A -> Z) l : sort cmp l ≡ₚ l.
Proof.
  induction l as [|x l IH]; simpl; [done|].
  rewrite sort_insert_Permutation. by rewrite IH.
Qed.

Lemma insert_Permutation_cons {A} (l : list A) (j : nat) a b :
  l !! j = Some b -> b :: <[j := a]> l ≡ₚ a :: l.
Proof.
  revert j. induction l as [|x l IH]; intros [|j] Hj; simplify_eq/=.
  - apply Permutation_swap.
  - rewrite Permutation_swap. rewrite (IH j Hj). apply Permutation_swap.
Qed.

Lemma swap_Permutation {A} (l : list A) i j : swap l i j ≡ₚ l.
Proof.
  unfold swap.
  destruct (l !! i) as [a|] eqn:Hi; [|done].
  destruct (l !! j) as [b|] eqn:Hj; [|done].
  destruct (decide (i = j)) as [->|Hne].
  { rewrite Hi in Hj. injection Hj as ->.
    rewrite list_insert_insert_eq. by rewrite list_insert_id. }
  revert i j Hi Hj Hne. induction l as [|x l IH]; intros [|i] [|j] Hi Hj Hne;
    simplify_eq/=.
  - by apply insert_Permutation_cons.
  - symmetry. rewrite <- (insert_Permutation_cons l i b a Hi). done.
  - f_equiv. apply IH; [done|done|lia].
Qed.

Lemma swap_length {A} (l : list A) i j : length (swap l i j) = length l.
Proof. apply Permutation_length, swap_Permutation. Qed.

End JS.

Import JS.

(** ** JavaScript numbers: binary64 arithmetic

    The operations are those of the standard library's specification of
    IEEE 754 ([SpecFloat]), at the parameters of binary64. *)

Module Number.
Import SpecFloat.

(** The number that holds an integer: the integer rounded to binary64
    (53 bits of precision, exponents up to 1024). *)
Definition of_Z (z : Z) : spec_float := binary_normalize 53 1024 z 0 false.

(** [x * y] and [x / y]. *)
Definition mul : spec_float -> spec_float -> spec_float := SFmul 53 1024.
Definition div : spec_float -> spec_float -> spec_float := SFdiv 53 1024.

(** [x > y]: false when either side is [NaN]. *)
Definition gtb (x y : spec_float) : bool := SFltb y x.

Example div_rounds_up :
  div (mul (of_Z 6755399441055745) (of_Z 2)) (of_Z 3) = of_Z 4503599627370497.
Proof. vm_compute. reflexivity. Qed.

Lemma Zdigits2_log2 (p : positive) : Zdigits2 (Zpos p) = Z.log2 (Zpos p) + 1.
Proof.
  cbn [Zdigits2]. induction p as [p IH|p IH|]; cbn [digits2_pos]; [| |reflexivity].
  - rewrite Pos2Z.inj_succ, IH. destruct p; cbn; lia.
  - rewrite Pos2Z.inj_succ, IH. destruct p; cbn; lia.
Qed.

Lemma digits2_pos_53 (m : positive) :
  2 ^ 52 <= Zpos m < 2 ^ 53 -> digits2_pos m = 53%positive.
Proof.
  intros Hm. pose proof (Zdigits2_log2 m) as H. cbn [Zdigits2] in H.
  rewrite (Z.log2_unique (Zpos m) 52) in H by lia. lia.
Qed.

Lemma digits2_pos_54 (m : positive) :
  2 ^ 53 <= Zpos m < 2 ^ 54 -> digits2_pos m = 54%positive.
Proof.
  intros Hm. pose proof (Zdigits2_log2 m) as H. cbn [Zdigits2] in H.
  rewrite (Z.log2_unique (Zpos m) 53) in H by lia. lia.
Qed.

Lemma loc_of_shr_record_of_loc m l :
  loc_of_shr_record (shr_record_of_loc m l) = l.
Proof. by destruct l as [|[]]. Qed.

Lemma shr_m_record_of_loc m l : shr_m (shr_record_of_loc m l) = m.
Proof. by destruct l as [|[]]. Qed.

Lemma round_nearest_even_bounds m l :
  m <= round_nearest_even m l <= m + 1.
Proof. destruct l as [|[]]; cbn; try destruct (Z.even m); lia. Qed.

Lemma fexp_53 e : -1074 <= e -> fexp 53 1024 (53 + e) = e.
Proof. unfold fexp, emin. lia. Qed.

Lemma shr_fexp_53 (m : positive) e l :
  2 ^ 52 <= Zpos m < 2 ^ 53 -> -1074 <= e ->
  shr_fexp 53 1024 (Zpos m) e l = (shr_record_of_loc (Zpos m) l, e).
Proof.
  intros Hm He. unfold shr_fexp. cbn [Zdigits2].
  rewrite digits2_pos_53, fexp_53, Z.sub_diag by done. reflexivity.
Qed.

(** Rounding a 53-bit significand: nothing is shifted out. *)
Lemma binary_round_aux_53 (m : positive) (e : Z) (l : location) :
  2 ^ 52 <= Zpos m ->
  round_nearest_even (Zpos m) l < 2 ^ 53 ->
  -1074 <= e <= 971 ->
  binary_round_aux 53 1024 false (Zpos m) e l
  = S754_finite false (Z.to_pos (round_nearest_even (Zpos m) l)) e.
Proof.
  intros Hlo Hhi He. pose proof (round_nearest_even_bounds (Zpos m) l) as Hr.
  unfold binary_round_aux. rewrite shr_fexp_53 by lia.
  rewrite shr_m_record_of_loc, loc_of_shr_record_of_loc.
  destruct (round_nearest_even (Zpos m) l) as [|m'|m'] eqn:Hm'; [lia| |lia].
  rewrite shr_fexp_53 by lia. cbn [shr_record_of_loc shr_m].
  rewrite (proj2 (Z.leb_le e (1024 - 53))) by lia. reflexivity.
Qed.


Lemma iter_xO (p n : positive) : Zpos (Pos.iter xO p n) = Zpos p * 2 ^ Zpos n.
Proof.
  induction n as [|n IH] using Pos.peano_ind.
  - cbn. lia.
  - rewrite Pos.iter_succ, Pos2Z.inj_xO, IH, Pos2Z.inj_succ, Z.pow_succ_r by lia. lia.
Qed.

(** An integer below 2^53 is a number: its significand, scaled to 53 bits,
    and the exponent that undoes the scaling. *)
Lemma of_Z_pos (z : Z) :
  0 < z < 2 ^ 53 ->
  exists (m : positive) (s : Z),
    0 <= s <= 52 /\ Zpos m = z * 2 ^ s /\ 2 ^ 52 <= Zpos m < 2 ^ 53 /\
    of_Z z = S754_finite false m (- s).
Proof.
  intros Hz. destruct z as [|p|p]; [lia| |lia].
  pose proof (Zdigits2_log2 p) as Hd. cbn [Zdigits2] in Hd.
  pose proof (Z.log2_spec (Zpos p) ltac:(lia)) as Hlog.
  pose proof (Z.log2_nonneg (Zpos p)) as Hnn.
  assert (Z.log2 (Zpos p) < 53) as Hlt by (apply Z.log2_lt_pow2; lia).
  set (s := 52 - Z.log2 (Zpos p)).
  assert (Hpow : 2 ^ Z.log2 (Zpos p) * 2 ^ s = 2 ^ 52).
  { rewrite <- Z.pow_add_r by lia. f_equal. lia. }
  assert (Hsucc : 2 ^ Z.succ (Z.log2 (Zpos p)) = 2 * 2 ^ Z.log2 (Zpos p))
    by (apply Z.pow_succ_r; lia).
  assert (0 < 2 ^ s) as Hs by (apply Z.pow_pos_nonneg; lia).
  assert (2 ^ 52 <= Zpos p * 2 ^ s < 2 ^ 53) as Hm.
  { change (2 ^ 53) with (2 * 2 ^ 52). rewrite <- Hpow. nia. }
  unfold of_Z, binary_normalize, binary_round, shl_align.
  unfold fexp, emin. rewrite Hd.
  destruct (Z.max (Z.log2 (Zpos p) + 1 + 0 - 53) (3 - 1024 - 53) - 0) as [|d|d] eqn:Hsh;
    [|lia|].
  - assert (s = 0) as Hs0 by lia. rewrite Hs0, Z.mul_1_r in Hm.
    exists p, 0. split; [lia|]. split; [lia|]. split; [lia|].
    rewrite binary_round_aux_53; cbn [round_nearest_even]; [done|lia|lia|lia].
  - assert (Zpos d = s) as Hds by lia.
    exists (Pos.iter xO p d), s.
    pose proof (iter_xO p d) as Hit. rewrite Hds in Hit.
    split; [lia|]. split; [done|]. split; [by rewrite Hit|].
    replace (Z.max _ _) with (- s) by lia.
    rewrite binary_round_aux_53; cbn [round_nearest_even]; [|lia|lia|lia].
    by rewrite Pos2Z.id.
Qed.

Lemma of_Z_0 : of_Z 0 = S754_zero false.
Proof. reflexivity. Qed.

(** Doubling is exact. *)
Lemma mul_two (m : positive) (e : Z) :
  2 ^ 52 <= Zpos m < 2 ^ 53 -> -1075 <= e <= 970 ->
  mul (S754_finite false m e) (of_Z 2) = S754_finite false m (e + 1).
Proof.
  intros Hm He. change (of_Z 2) with (S754_finite false 4503599627370496 (-51)).
  unfold mul, SFmul. cbn [xorb]. rewrite Pos.mul_comm.
  unfold binary_round_aux at 1. unfold shr_fexp at 1.
  let shifted := eval cbv in (Pos.iter xO m 52) in
    change (4503599627370496 * m)%positive with shifted.
  cbn [Zdigits2 digits2_pos]. rewrite (digits2_pos_53 m Hm).
  replace (fexp 53 1024 _ - (e + -51)) with 52 by (unfold fexp, emin; lia).
  cbn [shr shr_record_of_loc]. cbv [iter_pos shr_1].
  cbn [shr_m loc_of_shr_record round_nearest_even orb].
  rewrite shr_fexp_53 by lia. cbn [shr_record_of_loc shr_m].
  replace (e + -51 + 52) with (e + 1) by lia.
  rewrite (proj2 (Z.leb_le (e + 1) (1024 - 53))) by lia. reflexivity.
Qed.


(** Dividing by 3 rounds the quotient of the significands to the nearest
    integer; a quotient of thirds is never half way. *)
Lemma div_three (m : positive) (e : Z) :
  2 ^ 52 <= Zpos m < 2 ^ 53 -> -1072 <= e <= 900 ->
  exists (M : positive) (j : Z),
    j = (if Zpos m <? 3 * 2 ^ 51 then 2 else 1) /\
    2 ^ 52 <= Zpos M < 2 ^ 53 /\
    -1 <= 3 * Zpos M - 2 ^ j * Zpos m <= 1 /\
    div (S754_finite false m e) (of_Z 3) = S754_finite false M (e - j).
Proof.
  intros Hm He. change (of_Z 3) with (S754_finite false 6755399441055744 (-51)).
  unfold div, SFdiv, SFdiv_core_binary. cbn [xorb Zdigits2].
  rewrite (digits2_pos_53 m Hm).
  change (digits2_pos 6755399441055744) with 53%positive.
  replace (Z.min (fexp 53 1024 _) (e - -51)) with (e - 2)
    by (unfold fexp, emin; lia).
  replace (e - -51 - (e - 2)) with 53 by lia.
  rewrite Z.shiftl_mul_pow2 by lia.
  change (2 ^ 52) with 4503599627370496 in *.
  change (2 ^ 53) with 9007199254740992 in *.
  change (3 * 2 ^ 51) with 6755399441055744.
  pose proof (Z_div_mod (Zpos m * 9007199254740992) 6755399441055744 ltac:(lia)) as Hdiv.
  destruct (Z.div_eucl (Zpos m * 9007199254740992) 6755399441055744) as [q r].
  destruct Hdiv as [Hq Hr].
  set (b := 4 * Zpos m - 3 * q).
  assert (r = 2251799813685248 * b) as -> by lia.
  assert (b = 0 \/ b = 1 \/ b = 2) as Hb by lia.
  unfold new_location.
  change (Z.even 6755399441055744) with true. cbv iota. unfold new_location_even.
  destruct (Z.ltb_spec (Zpos m) 6755399441055744) as [Hlt|Hge].
  - (* the quotient has 53 bits *)
    destruct q as [|qp|qp]; [lia| |lia].
    exists (Z.to_pos (round_nearest_even (Zpos qp)
              (if 2251799813685248 * b =? 0 then loc_Exact
               else loc_Inexact (2 * (2251799813685248 * b) ?= 6755399441055744)))), 2.
    split; [done|].
    assert (Hloc : round_nearest_even (Zpos qp)
              (if 2251799813685248 * b =? 0 then loc_Exact
               else loc_Inexact (2 * (2251799813685248 * b) ?= 6755399441055744))
            = if b =? 2 then Zpos qp + 1 else Zpos qp).
    { destruct Hb as [->|[->| ->]]; reflexivity. }
    rewrite binary_round_aux_53; rewrite ?Hloc; [|lia|destruct Hb as [->|[->| ->]]; cbn; lia|lia].
    change (2 ^ 2) with 4.
    split; [|split; [|done]].
    + destruct Hb as [->|[->| ->]]; cbn [Z.eqb Pos.eqb]; lia.
    + destruct Hb as [->|[->| ->]]; cbn [Z.eqb Pos.eqb]; lia.
  - (* the quotient has 54 bits: one is shifted out *)
    destruct q as [|qp|qp]; [lia| |lia].
    assert (9007199254740992 <= Zpos qp < 18014398509481984) as Hqp by lia.
    unfold binary_round_aux. unfold shr_fexp at 1. cbn [Zdigits2].
    rewrite (digits2_pos_54 qp) by done.
    replace (fexp 53 1024 (54 + (e - 2)) - (e - 2)) with 1 by (unfold fexp, emin; lia).
    cbn [shr iter_pos]. change (2 ^ 1) with 2.
    destruct qp as [q2|q2|]; [| |lia].
    + (* odd quotient *)
      assert (b = 1) as -> by lia. cbn [Z.mul Pos.mul Z.eqb Z.compare Pos.compare Pos.compare_cont].
      change (2251799813685248 * 1 =? 0) with false.
      change (2 * (2251799813685248 * 1) ?= 6755399441055744) with Lt.
      cbn [shr_record_of_loc shr_1 orb shr_m loc_of_shr_record round_nearest_even].
      replace (Zpos q2 + 1) with (Zpos (q2 + 1)) by lia.
      rewrite shr_fexp_53 by lia. cbn [shr_record_of_loc shr_m].
      rewrite (proj2 (Z.leb_le (e - 2 + 1) (1024 - 53))) by lia.
      exists (q2 + 1)%positive, 1. split; [done|]. split; [lia|]. split; [lia|].
      f_equal. lia.
    + (* even quotient *)
      assert (b = 0 \/ b = 2) as [-> | ->] by lia.
      * change (2251799813685248 * 0 =? 0) with true.
        cbn [shr_record_of_loc shr_1 orb shr_m loc_of_shr_record round_nearest_even].
        rewrite shr_fexp_53 by lia. cbn [shr_record_of_loc shr_m].
        rewrite (proj2 (Z.leb_le (e - 2 + 1) (1024 - 53))) by lia.
        exists q2, 1. split; [done|]. split; [lia|]. split; [lia|].
        f_equal. lia.
      * change (2251799813685248 * 2 =? 0) with false.
        change (2 * (2251799813685248 * 2) ?= 6755399441055744) with Gt.
        cbn [shr_record_of_loc shr_1 orb shr_m loc_of_shr_record round_nearest_even].
        rewrite shr_fexp_53 by lia. cbn [shr_record_of_loc shr_m].
        rewrite (proj2 (Z.leb_le (e - 2 + 1) (1024 - 53))) by lia.
        exists q2, 1. split; [done|]. split; [lia|]. split; [lia|].
        f_equal. lia.
Qed.

(** Comparing a number with an integer. *)
Lemma ltb_of_Z (M : positive) (k w : Z) :
  2 ^ 52 <= Zpos M < 2 ^ 53 -> 0 <= k -> 0 <= w < 2 ^ 53 ->
  SFltb (S754_finite false M (- k)) (of_Z w) = true <-> Zpos M < w * 2 ^ k.
Proof.
  intros HM Hk Hw. destruct (decide (w = 0)) as [->|Hw0].
  { cbn. split; [done|lia]. }
  destruct (of_Z_pos w ltac:(lia)) as (mw & s & Hs & Hmw & Hbound & ->).
  unfold SFltb, SFcompare.
  destruct (Z.compare_spec (- k) (- s)) as [Heq|Hlt|Hgt].
  - assert (k = s) as -> by lia. rewrite <- Hmw.
    change (Pos.compare_cont Eq M mw) with (M ?= mw)%positive.
    destruct (Pos.compare_spec M mw); split; try done; lia.
  - split; [intros _|done].
    replace k with (s + (k - s)) by lia. rewrite Z.pow_add_r by lia.
    assert (2 ^ 1 <= 2 ^ (k - s)) by (apply Z.pow_le_mono_r; lia).
    change (2 ^ 1) with 2 in *. nia.
  - split; [done|]. intros Hlt.
    replace s with (k + (s - k)) in Hmw by lia. rewrite Z.pow_add_r in Hmw by lia.
    assert (2 ^ 1 <= 2 ^ (s - k)) by (apply Z.pow_le_mono_r; lia).
    assert (0 < 2 ^ k) by (apply Z.pow_pos_nonneg; lia).
    change (2 ^ 1) with 2 in *. nia.
Qed.

(** [w > (t * 2) / 3] on integers, in binary64: below 3 * 2^51 the
    rounding of the quotient does not change the answer. *)
Theorem gtb_two_thirds (w t : Z) :
  0 <= w < 2 ^ 53 -> 0 <= t < 3 * 2 ^ 51 ->
  gtb (of_Z w) (div (mul (of_Z t) (of_Z 2)) (of_Z 3)) = true <-> 2 * t < 3 * w.
Proof.
  intros Hw Ht. unfold gtb. destruct (decide (t = 0)) as [->|Ht0].
  { change (div (mul (of_Z 0) (of_Z 2)) (of_Z 3)) with (S754_zero false).
    destruct (decide (w = 0)) as [->|Hw0]; [by cbn|].
    destruct (of_Z_pos w ltac:(lia)) as (mw & s & _ & _ & _ & ->).
    cbn. split; [lia|done]. }
  destruct (of_Z_pos t ltac:(lia)) as (m & s & Hs & Hm & Hbound & ->).
  rewrite mul_two by lia.
  destruct (div_three m (- s + 1) Hbound ltac:(lia)) as (M & j & Hj & HM & Hnear & ->).
  assert (1 <= j <= 2) as Hj12 by (destruct (_ <? _); lia).
  assert (1 <= s + j - 1) as Hk.
  { destruct (Z.ltb_spec (Zpos m) (3 * 2 ^ 51)); [lia|].
    destruct (decide (s = 0)) as [->|]; [|lia]. rewrite Z.mul_1_r in Hm. lia. }
  replace (- s + 1 - j) with (- (s + j - 1)) by lia.
  rewrite ltb_of_Z by lia.
  assert (2 ^ j * Zpos m = 2 * 2 ^ (s + j - 1) * t) as HN.
  { rewrite Hm. replace (s + j - 1) with (s + (j - 1)) by lia.
    rewrite Z.pow_add_r by lia.
    replace j with (1 + (j - 1)) at 1 by lia. rewrite Z.pow_add_r by lia.
    change (2 ^ 1) with 2. lia. }
  assert (2 ^ 1 <= 2 ^ (s + j - 1)) as HP by (apply Z.pow_le_mono_r; lia).
  change (2 ^ 1) with 2 in HP. rewrite HN in Hnear.
  set (P := 2 ^ (s + j - 1)) in *. clearbody P. nia.
Qed.

End Number.

(** ** Data model ([src/types/index.ts]) *)

Module Transaction.
Record t := mk {
  from : jsstring;
  to : jsstring;
  amount : Z;
  fee : Z;
  signature : jsstring;
  timestamp : Z;
  nonce : Z
}.
End Transaction.

Module Block.
Record t := mk {
  hash : jsstring;
  previousHash : jsstring;
  pohHash : jsstring;
  pohCount : Z;
  transactions : list Transaction.t;
  timestamp : Z;
  leader : jsstring;
  signature : jsstring;
  slot : Z;
  epoch : Z
}.
End Block.

Module Vote.
Record t := mk {
  validator : jsstring;
  blockHash : jsstring;
  timestamp : Z;
  signature : jsstring;
  lockout : Z
}.
End Vote.

Module Account.
Record t := mk {
  publicKey : jsstring;
  balance : Z;
  nonce : Z
}.
End Account.

Module ValidatorInfo.
Record t := mk {
  publicKey : jsstring;
  stake : Z;
  address : jsstring;
  port : Z;
  isActive : bool
}.
End ValidatorInfo.

Module PohEvent.
Inductive kind := transaction | vote | block.
Record t := mk {
  type : kind;
  data : jsstring;
  hash : jsstring
}.
End PohEvent.

Module PohEntry.
Record t := mk {
  hash : jsstring;
  count : Z;
  timestamp : Z;
  events : option (list PohEvent.t)
}.
Definition with_hash (e : t) (h : jsstring) : t :=
  mk h (count e) (timestamp e) (events e).
End PohEntry.

Module LeaderSchedule.
Record t := mk {
  epoch : Z;
  schedule : list jsstring;
  seed : jsstring
}.
End LeaderSchedule.

Module ConsensusState.
Record t := mk {
  currentSlot : Z;
  currentEpoch : Z;
  votedSlots : gset Z;
  lockouts : gmap Z Z;
  forkChoice : jsstring;
  leaderSchedule : list jsstring;
  epochStartSlot : Z;
  epochFinalHash : option jsstring
}.
End ConsensusState.

Module EPOCH_CONSTANTS.
Definition SLOTS_PER_EPOCH : Z := 64.
Definition GENESIS_EPOCH_LEADER_ROTATION_SLOTS : Z := 4.
End EPOCH_CONSTANTS.

(** ** Keys and signatures ([crypto]) *)

Module Crypto.
Section Crypto.
Variable sha256 : list byte -> list byte.

(** [createHash('sha256').update(new TextEncoder().encode(s)).digest('hex')],
    which is also [createHash('sha256').update(s).digest('hex')]. *)
Definition sha256_hex (s : jsstring) : jsstring :=
  hex_encode (sha256 (utf8_encode s)).

(** A [KeyPair] built from a private key: the public key is derived by
    hashing it. *)
Record KeyPair := mkKeyPair {
  _privateKey : list byte;
  _publicKey : list byte
}.

Definition derivePublicKey (privateKey : list byte) : list byte :=
  sha256 privateKey.

(** [KeyPair.fromPrivateKey(privateKey)] on a string: a [Buffer] is always
    truthy, so the constructor keeps the decoded key. *)
Definition fromPrivateKey (privateKey : jsstring) : KeyPair :=
  let key := hex_decode privateKey in
  mkKeyPair key (derivePublicKey key).

(** [keyPair.sign(message)]. *)
Definition sign (keyPair : KeyPair) (message : list byte) : list byte :=
  sha256 (_privateKey keyPair ++ message).

(** [KeyPair.verify(signature, message, publicKey)]: only the two lengths
    are looked at. *)
Definition verify (signature message publicKey : list byte) : bool :=
  bool_decide (length signature = 32%nat) && bool_decide (length publicKey = 32%nat).

(** [SignatureUtils.signMessage(message, keyPair)] on a string message. *)
Definition signMessage (message : jsstring) (keyPair : KeyPair) : jsstring :=
  let messageBytes := utf8_encode message in
  let messageHash := sha256 messageBytes in
  let signature := sign keyPair messageHash in
  hex_encode signature.

(** [SignatureUtils.verifySignature(message, signature, publicKey)] on
    strings; nothing in the [try] block throws. *)
Definition verifySignature (message signature publicKey : jsstring) : bool :=
  let messageBytes := utf8_encode message in
  let messageHash := sha256 messageBytes in
  let signatureBytes := hex_decode signature in
  let publicKeyBytes := hex_decode publicKey in
  verify signatureBytes messageHash publicKeyBytes.

Hypothesis sha256_length : forall m, length (sha256 m) = 32%nat.

Lemma verifySignature_signMessage message message' privateKey publicKey :
  verifySignature message' (signMessage message (fromPrivateKey privateKey)) publicKey
  = bool_decide (length (hex_decode publicKey) = 32%nat).
Proof using sha256_length.
  unfold verifySignature, signMessage, verify, sign.
  rewrite hex_decode_encode, sha256_length.
  rewrite bool_decide_eq_true_2 by done. reflexivity.
Qed.

End Crypto.

(** *** Key pairs as strings *)

Section Keys.
Variable sha256 : list byte -> list byte.

(** [new KeyPair(privateKey)]: a [Uint8Array] is always truthy, so a given
    key is kept. *)
Definition KeyPair_of (privateKey : list byte) : KeyPair :=
  mkKeyPair privateKey (derivePublicKey sha256 privateKey).

(** [KeyPair.generate()], where [randomBytes32] is what [randomBytes(32)]
    returned. *)
Definition generate (randomBytes32 : list byte) : KeyPair := KeyPair_of randomBytes32.

Definition publicKeyString (keyPair : KeyPair) : jsstring := hex_encode (_publicKey keyPair).

Definition privateKeyString (keyPair : KeyPair) : jsstring := hex_encode (_privateKey keyPair).

(** X2. Exporting the private key of a key pair as a string and reading it
    back with [fromPrivateKey] gives the key pair built from that private
    key: same private key, public key derived from it. *)
Theorem fromPrivateKey_privateKeyString keyPair :
  fromPrivateKey sha256 (privateKeyString keyPair) = KeyPair_of (_privateKey keyPair).
Proof.
  unfold fromPrivateKey, privateKeyString, KeyPair_of. by rewrite hex_decode_encode.
Qed.

Hypothesis sha256_length : forall m, length (sha256 m) = 32%nat.

(** X3. Verification looks at lengths only: a signature made with
    [signMessage] over any message with any private key is accepted for any
    other message under the public key of any key pair. *)
Theorem verifySignature_accepts_any_signer message message' privateKey otherKey :
  verifySignature sha256 message'
    (signMessage sha256 message (fromPrivateKey sha256 privateKey))
    (publicKeyString (KeyPair_of otherKey)) = true.
Proof using sha256_length.
  rewrite (verifySignature_signMessage sha256 sha256_length).
  apply bool_decide_eq_true_2.
  unfold publicKeyString, KeyPair_of, derivePublicKey. cbn.
  by rewrite hex_decode_encode.
Qed.

End Keys.
End Crypto.

(** ** Stand-ins to run the model

    Concrete instances of the two parameters, used only where a statement
    is evaluated on an explicit input: a digest with the output length of
    SHA-256, and the comparison of strings by code units. *)

Module Sample.

Definition digest (m : list byte) : list byte :=
  take 32 (m ++ replicate 32 Byte.x00).

Fixpoint compare (a b : jsstring) : Z :=
  match a, b with
  | [], [] => 0
  | [], _ :: _ => -1
  | _ :: _, [] => 1
  | x :: a', y :: b' =>
    if (x <? y)%N then -1 else if (y <? x)%N then 1 else compare a' b'
  end.

Lemma digest_length m : length (digest m) = 32%nat.
Proof.
  unfold digest. rewrite length_take, length_app, length_replicate. lia.
Qed.

End Sample.

Lemma verifySignature_accepts_any_signer_witness :
  Crypto.verifySignature Sample.digest (js "pay bob")
    (Crypto.signMessage Sample.digest (js "pay alice")
       (Crypto.fromPrivateKey Sample.digest (js "00")))
    (Crypto.publicKeyString (Crypto.KeyPair_of Sample.digest [Byte.x01])) = true.
Proof.
  apply (Crypto.verifySignature_accepts_any_signer Sample.digest Sample.digest_length).
Defined.

(** ** Proof of History ([core/poh]) *)

Module ProofOfHistory.
Section ProofOfHistory.
Variable sha256 : list byte -> list byte.

Local Abbreviation sha256_hex := (Crypto.sha256_hex sha256).

(** The state of the clock that the hash chain depends on. *)
Record t := mk {
  currentHash : jsstring;
  count : Z;
  entries : list PohEntry.t;
  eventQueue : list PohEvent.t
}.

(** [generateNextEntry(events)] at wall-clock time [now]. *)
Definition generateNextEntry (st : t) (events : option (list PohEvent.t)) (now : Z)
  : t * PohEntry.t :=
  let hashInput := currentHash st ++ Number_toString (count st) in
  let hashInput :=
    match events with
    | Some evs =>
      if (0 <? length evs)%nat
      then hashInput ++ join (List.map PohEvent.hash evs)
      else hashInput
    | None => hashInput
    end in
  let nextHash := sha256_hex hashInput in
  let entry := PohEntry.mk nextHash (count st) now
    (match events with
     | Some evs => if (0 <? length evs)%nat then Some evs else None
     | None => None
     end) in
  (mk nextHash (count st + 1) (entries st) (eventQueue st), entry).

(** The digest [verifySequence] expects for [current] after [prev]. *)
Definition expectedHash (prev current : PohEntry.t) : jsstring :=
  let expectedHashInput := PohEntry.hash prev ++ Number_toString (PohEntry.count prev) in
  let expectedHashInput :=
    match PohEntry.events current with
    | Some evs =>
      if (0 <? length evs)%nat
      then expectedHashInput ++ join (List.map PohEvent.hash evs)
      else expectedHashInput
    | None => expectedHashInput
    end in
  sha256_hex expectedHashInput.

(** The body of the [for] loop of [verifySequence], from index [i], for
    [n] more iterations. *)
Fixpoint verifySequence_loop (entries : list PohEntry.t) (i n : nat) : bool :=
  match n with
  | O => true
  | S n' =>
    match entries !! (i - 1)%nat, entries !! i with
    | Some prev, Some current =>
      if negb (PohEntry.count current =? PohEntry.count prev + 1) then false
      else if negb (streq (PohEntry.hash current) (expectedHash prev current)) then false
      else verifySequence_loop entries (S i) n'
    | _, _ => true
    end
  end.

Definition verifySequence (entries : list PohEntry.t) : bool :=
  if (length entries =? 0)%nat then true
  else verifySequence_loop entries 1 (length entries - 1).

(** What the specification asks of two neighbours. *)
Definition linked (prev current : PohEntry.t) : Prop :=
  PohEntry.count current = PohEntry.count prev + 1 /\
  PohEntry.hash current = expectedHash prev current.

(** The specification's reading of a valid sequence: contiguous counts, and
    every digest recomputed from the predecessor. *)
Definition chain_ok (entries : list PohEntry.t) : Prop :=
  forall (i : nat) prev current,
    entries !! i = Some prev -> entries !! S i = Some current -> linked prev current.

(** *** Properties of [verifySequence] *)

Lemma expectedHash_with_hash_r prev current h :
  expectedHash prev (PohEntry.with_hash current h) = expectedHash prev current.
Proof. reflexivity. Qed.

Lemma verifySequence_loop_spec entries (i n : nat) :
  (1 <= i)%nat ->
  verifySequence_loop entries i n = true <->
  (forall k prev current, (i <= k < i + n)%nat ->
     entries !! (k - 1)%nat = Some prev -> entries !! k = Some current ->
     linked prev current).
Proof.
  revert i. induction n as [|n IH]; intros i Hi; cbn [verifySequence_loop].
  { split; [intros _ k ? ? ?; lia | done]. }
  destruct (entries !! (i - 1)%nat) as [prev|] eqn:Hprev; cycle 1.
  { split; [|done]. intros _ k p c Hk Hp Hc. exfalso.
    apply lookup_ge_None in Hprev. apply lookup_lt_Some in Hp. lia. }
  destruct (entries !! i) as [current|] eqn:Hcur; cycle 1.
  { split; [|done]. intros _ k p c Hk Hp Hc. exfalso.
    apply lookup_ge_None in Hcur. apply lookup_lt_Some in Hc. lia. }
  destruct (PohEntry.count current =? PohEntry.count prev + 1) eqn:Hcount; cbn [negb].
  - destruct (streq (PohEntry.hash current) (expectedHash prev current)) eqn:Hhash; cbn [negb].
    + apply Z.eqb_eq in Hcount. apply streq_true in Hhash.
      rewrite IH by lia. split.
      * intros Hrest k p c Hk Hp Hc.
        destruct (decide (k = i)) as [->|Hne].
        -- rewrite Hprev in Hp. rewrite Hcur in Hc. by simplify_eq.
        -- apply (Hrest k); [lia|done..].
      * intros Hall k p c Hk. apply Hall. lia.
    + apply streq_false in Hhash. split; [done|]. intros Hall.
      destruct (Hall i prev current) as [_ ?]; [lia|done..].
  - apply Z.eqb_neq in Hcount. split; [done|]. intros Hall.
    destruct (Hall i prev current) as [? _]; [lia|done..].
Qed.

Lemma verifySequence_chain_ok entries :
  verifySequence entries = true <-> chain_ok entries.
Proof.
  unfold verifySequence, chain_ok.
  destruct (length entries =? 0)%nat eqn:Hlen.
  { apply Nat.eqb_eq, nil_length_inv in Hlen. subst. split; [|done].
    intros _ i ? ? Hi. by rewrite lookup_nil in Hi. }
  rewrite verifySequence_loop_spec by lia. split.
  - intros H i prev current Hp Hc. apply (H (S i)).
    + apply lookup_lt_Some in Hc. lia.
    + by replace (S i - 1)%nat with i by lia.
    + done.
  - intros H k prev current Hk Hp Hc.
    apply (H (k - 1)%nat); [done|]. by replace (S (k - 1)) with k by lia.
Qed.

Lemma chain_ok_cons a b l :
  chain_ok (a :: b :: l) <-> linked a b /\ chain_ok (b :: l).
Proof.
  unfold chain_ok. split.
  - intros H. split; [by apply (H 0%nat)|].
    intros i p c Hp Hc. by apply (H (S i)).
  - intros [Hab H] [|i] p c Hp Hc; simpl in *; [by simplify_eq|by eapply H].
Qed.

Lemma verifySequence_short entries :
  (length entries <= 1)%nat -> verifySequence entries = true.
Proof.
  intros Hlen. apply verifySequence_chain_ok. intros i prev current _ Hc.
  apply lookup_lt_Some in Hc. lia.
Qed.

Lemma verifySequence_mutated_later entries (i : nat) e h' :
  verifySequence entries = true ->
  (1 <= i)%nat -> entries !! i = Some e -> h' <> PohEntry.hash e ->
  verifySequence (<[i := PohEntry.with_hash e h']> entries) = false.
Proof.
  intros Hok Hi He Hne. apply verifySequence_chain_ok in Hok.
  apply not_true_is_false. intros Hbad. apply verifySequence_chain_ok in Hbad.
  destruct i as [|i]; [lia|].
  assert (is_Some (entries !! i)) as [prev Hprev].
  { apply lookup_lt_is_Some. apply lookup_lt_Some in He. lia. }
  destruct (Hok i prev e Hprev He) as [_ Hh].
  destruct (Hbad i prev (PohEntry.with_hash e h')) as [_ Hh'].
  - rewrite list_lookup_insert_ne by lia. done.
  - apply list_lookup_insert_eq. by apply lookup_lt_Some in He.
  - rewrite expectedHash_with_hash_r in Hh'. simpl in Hh'. congruence.
Qed.

Lemma verifySequence_mutated_first e0 e1 rest h' :
  verifySequence (e0 :: e1 :: rest) = true ->
  (verifySequence (PohEntry.with_hash e0 h' :: e1 :: rest) = false <->
   expectedHash (PohEntry.with_hash e0 h') e1 <> expectedHash e0 e1).
Proof.
  intros Hok. apply verifySequence_chain_ok, chain_ok_cons in Hok.
  destruct Hok as [[Hc Hh] Hrest].
  rewrite <- not_true_iff_false, verifySequence_chain_ok, chain_ok_cons.
  unfold linked. simpl. split.
  - intros Hn Heq. apply Hn. split; [split|]; [done| |done]. congruence.
  - intros Hn [[_ Hh'] _]. apply Hn. congruence.
Qed.

(** The event digests mixed into an entry, joined. *)
Definition mixedEvents (events : option (list PohEvent.t)) : jsstring :=
  match events with
  | Some evs => if (0 <? length evs)%nat then join (List.map PohEvent.hash evs) else []
  | None => []
  end.

Lemma expectedHash_unfold prev current :
  expectedHash prev current
  = sha256_hex (PohEntry.hash prev ++ Number_toString (PohEntry.count prev)
                ++ mixedEvents (PohEntry.events current)).
Proof.
  unfold expectedHash, mixedEvents.
  destruct (PohEntry.events current) as [evs|]; [destruct (0 <? length evs)%nat|];
    by rewrite <- ?app_assoc, ?app_nil_r.
Qed.

(** X1. Two consecutive ticks: the second entry's digest hashes the first
    entry's digest with the count of the second entry (the clock's count at
    that tick), whereas [verifySequence] recomputes it with the count of the
    first. The pair therefore verifies only if the two inputs collide. *)
Lemma generateNextEntry_pair st events1 now1 events2 now2 :
  let step1 := generateNextEntry st events1 now1 in
  let step2 := generateNextEntry step1.1 events2 now2 in
  PohEntry.count step2.2 = PohEntry.count step1.2 + 1 /\
  PohEntry.hash step2.2
  = sha256_hex (PohEntry.hash step1.2 ++ Number_toString (PohEntry.count step1.2 + 1)
                ++ mixedEvents events2) /\
  expectedHash step1.2 step2.2
  = sha256_hex (PohEntry.hash step1.2 ++ Number_toString (PohEntry.count step1.2)
                ++ mixedEvents events2) /\
  (verifySequence [step1.2; step2.2] = true <->
   PohEntry.hash step2.2 = expectedHash step1.2 step2.2).
Proof.
  cbn zeta. split; [done|]. split; [|split].
  - unfold generateNextEntry, mixedEvents.
    destruct events2 as [[|e evs]|]; cbn; by rewrite <- ?app_assoc, ?app_nil_r.
  - unfold expectedHash, generateNextEntry, mixedEvents.
    destruct events2 as [[|e evs]|]; cbn; by rewrite <- ?app_assoc, ?app_nil_r.
  - rewrite verifySequence_chain_ok, chain_ok_cons. unfold linked. split.
    + by intros [[_ ?] _].
    + intros Hh. split; [by split|].
      intros i prev current Hp Hc. by destruct i.
Qed.

(** C3 (as amended). [verifySequence] is true exactly when the counts are
    contiguous and every digest is the one recomputed from the predecessor's
    digest and count and the entry's own event digests; sequences of at most
    one entry are valid; in a valid sequence, replacing the digest of any
    entry but the first by another string makes the sequence invalid, and
    replacing the digest of the first entry makes it invalid exactly when
    that changes the digest recomputed for the second entry. *)
Theorem verifySequence_correct entries :
  (verifySequence entries = true <-> chain_ok entries) /\
  ((length entries <= 1)%nat -> verifySequence entries = true) /\
  (verifySequence entries = true ->
   (forall (i : nat) e h',
      (1 <= i)%nat -> entries !! i = Some e -> h' <> PohEntry.hash e ->
      verifySequence (<[i := PohEntry.with_hash e h']> entries) = false) /\
   (forall e0 e1 rest h',
      entries = e0 :: e1 :: rest ->
      (verifySequence (PohEntry.with_hash e0 h' :: e1 :: rest) = false <->
       expectedHash (PohEntry.with_hash e0 h') e1 <> expectedHash e0 e1))).
Proof.
  split; [apply verifySequence_chain_ok|].
  split; [apply verifySequence_short|].
  intros Hok. split.
  - intros i e h'. by apply verifySequence_mutated_later.
  - intros e0 e1 rest h' ->. by apply verifySequence_mutated_first.
Qed.

End ProofOfHistory.

(** The entry that [verifySequence] accepts after [prev]. *)
Definition accepted_after (sha256 : list byte -> list byte) (prev : PohEntry.t)
  (timestamp : Z) (events : option (list PohEvent.t)) : PohEntry.t :=
  PohEntry.mk (expectedHash sha256 prev (PohEntry.mk [] 0 0 events))
    (PohEntry.count prev + 1) timestamp events.

Definition sample_event : PohEvent.t :=
  PohEvent.mk PohEvent.transaction (js "test-tx-data") (js "ab12").

(** A valid sequence of three entries, the second with an event mixed in. *)
Definition sample_entries (sha256 : list byte -> list byte) : list PohEntry.t :=
  let entry0 := PohEntry.mk (js "00ff") 0 1000 None in
  let entry1 := accepted_after sha256 entry0 1001 (Some [sample_event]) in
  let entry2 := accepted_after sha256 entry1 1002 None in
  [entry0; entry1; entry2].

Example sample_entries_valid sha256 : verifySequence sha256 (sample_entries sha256) = true.
Proof.
  apply verifySequence_chain_ok.
  intros [|[|[|i]]] prev current Hp Hc; simplify_eq/=; by split.
Qed.

Lemma verifySequence_correct_witness :
  verifySequence Sample.digest
    (<[1%nat := PohEntry.with_hash
                  (accepted_after Sample.digest (PohEntry.mk (js "00ff") 0 1000 None)
                     1001 (Some [sample_event]))
                  (js "tampered")]> (sample_entries Sample.digest)) = false.
Proof.
  refine (proj1 (proj2 (proj2 (verifySequence_correct Sample.digest
            (sample_entries Sample.digest))) _) 1%nat _ (js "tampered") _ _ _).
  - apply sample_entries_valid.
  - lia.
  - reflexivity.
  - vm_compute. discriminate.
Defined.

(** C3: the digests of the first entry below differ, both are lone
    surrogates, and the encoder maps both to U+FFFD: whatever the digest
    function, the sequence is valid before and after the first entry's
    digest is replaced. *)
Lemma verifySequence_misses_first_digest :
  [0xD801]%N <> [0xD800]%N /\
  forall sha256,
    let entry0 := PohEntry.mk [0xD800]%N 7 0 None in
    let entry1 :=
      PohEntry.mk (Crypto.sha256_hex sha256 ([0xD800]%N ++ Number_toString 7)) 8 1 None in
    verifySequence sha256 [entry0; entry1] = true /\
    verifySequence sha256 [PohEntry.with_hash entry0 [0xD801]%N; entry1] = true.
Proof.
  split; [discriminate|]. intros sha256 entry0 entry1.
  split; apply verifySequence_chain_ok, chain_ok_cons; (split; [by split|]);
    intros i prev current Hp Hc; by destruct i.
Qed.

(** *** The running clock *)

(** [entries.slice(start)]: a negative [start] counts from the end. *)
Definition slice_from {A} (l : list A) (start : Z) : list A :=
  if start <? 0 then drop (Z.to_nat (Z.max (Z.of_nat (length l) + start) 0)) l
  else drop (Z.to_nat start) l.

(** [new ProofOfHistory(seed)] at wall-clock time [now]: a missing or empty
    seed is replaced by a time-stamped one. *)
Definition new (seed : option jsstring) (now : Z) : t :=
  mk (match seed with
      | Some seed => if (0 <? length seed)%nat then seed
                     else js "initial-seed-" ++ Number_toString now
      | None => js "initial-seed-" ++ Number_toString now
      end) 0 [] [].

Definition addEvent (st : t) (event : PohEvent.t) : t :=
  mk (currentHash st) (count st) (entries st) (eventQueue st ++ [event]).

Definition processEventQueue (st : t) : t * list PohEvent.t :=
  let events := eventQueue st in
  (mk (currentHash st) (count st) (entries st) [], events).

Definition getCurrentHash (st : t) : jsstring := currentHash st.

Definition getCurrentCount (st : t) : Z := count st.

Definition getLatestEntry (st : t) : option PohEntry.t :=
  entries st !! (length (entries st) - 1)%nat.

Definition getEntries (st : t) (fromCount limit : option Z) : list PohEntry.t :=
  let filtered := entries st in
  let filtered :=
    match fromCount with
    | Some fromCount => List.filter (fun entry => fromCount <=? PohEntry.count entry) filtered
    | None => filtered
    end in
  match limit with
  | Some limit => slice0 filtered limit
  | None => filtered
  end.

Section Clock.
Variable sha256 : list byte -> list byte.

(** [tick()] at wall-clock time [now]. *)
Definition tick (st : t) (now : Z) : t :=
  let '(st, events) := processEventQueue st in
  let '(st, entry) := generateNextEntry sha256 st (Some events) now in
  let st := mk (currentHash st) (count st) (entries st ++ [entry]) (eventQueue st) in
  if 10000 <? Z.of_nat (length (entries st))
  then mk (currentHash st) (count st) (slice_from (entries st) (-5000)) (eventQueue st)
  else st.

(** The clock states that ticks and submitted events reach. *)
Inductive running : t -> Prop :=
| running_new seed now : running (new seed now)
| running_tick st now : running st -> running (tick st now)
| running_addEvent st event : running st -> running (addEvent st event).

(** The entry a tick produces. *)
Definition ticked (st : t) (now : Z) : PohEntry.t :=
  PohEntry.mk
    (Crypto.sha256_hex sha256
       (currentHash st ++ Number_toString (count st) ++ mixedEvents (Some (eventQueue st))))
    (count st) now
    (if (0 <? length (eventQueue st))%nat then Some (eventQueue st) else None).

Lemma tick_unfold st now :
  tick st now =
  mk (PohEntry.hash (ticked st now)) (count st + 1)
     (if 10000 <? Z.of_nat (length (entries st ++ [ticked st now]))
      then slice_from (entries st ++ [ticked st now]) (-5000)
      else entries st ++ [ticked st now])
     [].
Proof.
  unfold tick, processEventQueue, generateNextEntry, ticked, mixedEvents.
  cbn [currentHash count entries eventQueue PohEntry.hash].
  destruct (eventQueue st) as [|e q]; cbn [length Nat.ltb Nat.leb];
    rewrite <- ?app_assoc, ?app_nil_r;
    by destruct (_ <? _).
Qed.

Lemma slice_from_last_5000 {A} (l : list A) :
  5000 <= Z.of_nat (length l) ->
  slice_from l (-5000) = drop (Z.to_nat (Z.of_nat (length l) - 5000)) l /\
  Z.of_nat (length (slice_from l (-5000))) = 5000.
Proof.
  intros Hlen. unfold slice_from. change (-5000 <? 0) with true. cbv iota.
  replace (Z.max (Z.of_nat (length l) + -5000) 0) with (Z.of_nat (length l) - 5000)
    by lia.
  split; [done|]. rewrite length_drop. lia.
Qed.

(** The position of every retained entry and the bound on retention. *)
Definition clock_inv (st : t) : Prop :=
  Z.of_nat (length (entries st)) <= 10000 /\
  Z.of_nat (length (entries st)) <= count st /\
  forall (i : nat) entry,
    entries st !! i = Some entry ->
    PohEntry.count entry = count st - Z.of_nat (length (entries st)) + Z.of_nat i.

Lemma clock_inv_tick st now : clock_inv st -> clock_inv (tick st now).
Proof.
  intros (Hbound & Hcount & Hpos). rewrite tick_unfold.
  set (entry := ticked st now).
  assert (Hlen' : length (entries st ++ [entry]) = S (length (entries st)))
    by (rewrite length_app; cbn; lia).
  assert (Hpos' : forall (i : nat) e,
    (entries st ++ [entry]) !! i = Some e ->
    PohEntry.count e = count st + 1 - Z.of_nat (length (entries st ++ [entry])) + Z.of_nat i).
  { intros i e Hi. rewrite Hlen'.
    apply lookup_app_Some in Hi as [Hi|[Hge Hi]].
    - rewrite (Hpos i e Hi). lia.
    - apply list_lookup_singleton_Some in Hi as [Hi <-]. cbn. lia. }
  destruct (10000 <? Z.of_nat (length (entries st ++ [entry]))) eqn:Hfull.
  - apply Z.ltb_lt in Hfull.
    destruct (slice_from_last_5000 (entries st ++ [entry])) as [Hs Hl]; [lia|].
    unfold clock_inv. cbn [entries count]. rewrite Hl. split; [lia|]. split; [lia|].
    intros i e Hi. rewrite Hs, lookup_drop in Hi. apply Hpos' in Hi. lia.
  - apply Z.ltb_ge in Hfull. unfold clock_inv. cbn [entries count].
    split; [lia|]. split; [lia|]. exact Hpos'.
Qed.

Lemma running_clock_inv st : running st -> clock_inv st.
Proof.
  induction 1 as [seed now|st now _ IH|st event _ IH].
  - unfold clock_inv. cbn. split; [lia|]. split; [lia|]. intros i e Hi.
    by rewrite lookup_nil in Hi.
  - by apply clock_inv_tick.
  - exact IH.
Qed.

(** X4. However long the clock runs, it retains at most 10000 entries, and
    the retained entries carry consecutive sequence numbers that end just
    below the clock's count: the entry at position [i] has count
    [count - length + i]. *)
Theorem running_entries_contiguous st :
  running st ->
  Z.of_nat (length (entries st)) <= 10000 /\
  PohEntry.count <$> entries st
  = seqZ (count st - Z.of_nat (length (entries st))) (Z.of_nat (length (entries st))).
Proof.
  intros (Hbound & Hcount & Hpos)%running_clock_inv. split; [done|].
  apply list_eq. intros i. rewrite list_lookup_fmap.
  destruct (entries st !! i) as [e|] eqn:Hi; cbn.
  - rewrite (Hpos i e Hi). symmetry. apply lookup_seqZ.
    apply lookup_lt_Some in Hi. split; [lia|lia].
  - symmetry. apply lookup_seqZ_ge. apply lookup_ge_None in Hi. lia.
Qed.

(** X5. A tick empties the event queue and appends one entry, which is then
    the latest: it carries the clock's count before the tick, the time of
    the tick, the queued events in submission order (none if the queue was
    empty), and the digest of the previous digest, that count and the event
    digests; the clock's digest becomes the entry's and its count grows by
    one. When the tick makes more than 10000 entries, only the last 5000
    are kept. *)
Theorem tick_appends_entry st now :
  let st' := tick st now in
  getLatestEntry st' = Some (ticked st now) /\
  eventQueue st' = [] /\
  currentHash st' = PohEntry.hash (ticked st now) /\
  count st' = count st + 1 /\
  entries st' =
    (if 10000 <=? Z.of_nat (length (entries st))
     then drop (Z.to_nat (Z.of_nat (length (entries st)) - 4999)) (entries st)
          ++ [ticked st now]
     else entries st ++ [ticked st now]).
Proof.
  cbn zeta. rewrite tick_unfold. cbn [eventQueue currentHash count].
  set (entry := ticked st now).
  assert (Hlen : length (entries st ++ [entry]) = S (length (entries st)))
    by (rewrite length_app; cbn; lia).
  assert (Hentries :
    (if 10000 <? Z.of_nat (length (entries st ++ [entry]))
     then slice_from (entries st ++ [entry]) (-5000)
     else entries st ++ [entry])
    = (if 10000 <=? Z.of_nat (length (entries st))
       then drop (Z.to_nat (Z.of_nat (length (entries st)) - 4999)) (entries st) ++ [entry]
       else entries st ++ [entry])).
  { rewrite Hlen. destruct (10000 <=? Z.of_nat (length (entries st))) eqn:Hfull.
    - apply Z.leb_le in Hfull. rewrite (proj2 (Z.ltb_lt _ _)) by lia.
      destruct (slice_from_last_5000 (entries st ++ [entry])) as [-> _]; [lia|].
      rewrite Hlen, drop_app_le by lia. f_equal. f_equal. lia.
    - apply Z.leb_gt in Hfull. by rewrite (proj2 (Z.ltb_ge _ _)) by lia. }
  split; [|by repeat split].
  unfold getLatestEntry. cbn [entries]. rewrite Hentries.
  destruct (10000 <=? Z.of_nat (length (entries st)));
    rewrite lookup_app_r; rewrite length_app; cbn [length];
    try lia; by replace (_ + 1 - 1 - _)%nat with 0%nat by lia.
Qed.

End Clock.

Lemma running_entries_contiguous_witness :
  Z.of_nat
    (length (entries (tick Sample.digest (tick Sample.digest (new (Some (js "test-seed")) 0) 1) 2)))
    <= 10000 /\
  PohEntry.count
    <$> entries (tick Sample.digest (tick Sample.digest (new (Some (js "test-seed")) 0) 1) 2)
  = seqZ (2 - 2) 2.
Proof.
  apply (running_entries_contiguous Sample.digest
           (tick Sample.digest (tick Sample.digest (new (Some (js "test-seed")) 0) 1) 2)).
  apply running_tick, running_tick, running_new.
Defined.

End ProofOfHistory.

(** ** The consensus engine ([core/consensus]) *)

Module SimplifiedConsensus.

Record t := mk {
  validators : gmap jsstring ValidatorInfo.t;
  votes : gmap jsstring (list Vote.t);
  consensusState : ConsensusState.t;
  lockouts : gmap jsstring (gmap Z Z);
  leaderSchedules : gmap Z LeaderSchedule.t;
  epochBlocks : gmap Z (list Block.t)
}.

Definition lockoutMultiplier : Z := 2.

(** Field updates. *)
Definition set_validators (st : t) x : t :=
  mk x (votes st) (consensusState st) (lockouts st) (leaderSchedules st) (epochBlocks st).
Definition set_votes (st : t) x : t :=
  mk (validators st) x (consensusState st) (lockouts st) (leaderSchedules st) (epochBlocks st).
Definition set_consensusState (st : t) x : t :=
  mk (validators st) (votes st) x (lockouts st) (leaderSchedules st) (epochBlocks st).
Definition set_lockouts (st : t) x : t :=
  mk (validators st) (votes st) (consensusState st) x (leaderSchedules st) (epochBlocks st).
Definition set_leaderSchedules (st : t) x : t :=
  mk (validators st) (votes st) (consensusState st) (lockouts st) x (epochBlocks st).
Definition set_epochBlocks (st : t) x : t :=
  mk (validators st) (votes st) (consensusState st) (lockouts st) (leaderSchedules st) x.

Definition set_currentSlot (cs : ConsensusState.t) x : ConsensusState.t :=
  ConsensusState.mk x (ConsensusState.currentEpoch cs) (ConsensusState.votedSlots cs)
    (ConsensusState.lockouts cs) (ConsensusState.forkChoice cs)
    (ConsensusState.leaderSchedule cs) (ConsensusState.epochStartSlot cs)
    (ConsensusState.epochFinalHash cs).
Definition set_currentEpoch (cs : ConsensusState.t) x : ConsensusState.t :=
  ConsensusState.mk (ConsensusState.currentSlot cs) x (ConsensusState.votedSlots cs)
    (ConsensusState.lockouts cs) (ConsensusState.forkChoice cs)
    (ConsensusState.leaderSchedule cs) (ConsensusState.epochStartSlot cs)
    (ConsensusState.epochFinalHash cs).
Definition set_leaderSchedule (cs : ConsensusState.t) x : ConsensusState.t :=
  ConsensusState.mk (ConsensusState.currentSlot cs) (ConsensusState.currentEpoch cs)
    (ConsensusState.votedSlots cs) (ConsensusState.lockouts cs)
    (ConsensusState.forkChoice cs) x (ConsensusState.epochStartSlot cs)
    (ConsensusState.epochFinalHash cs).
Definition set_epochStartSlot (cs : ConsensusState.t) x : ConsensusState.t :=
  ConsensusState.mk (ConsensusState.currentSlot cs) (ConsensusState.currentEpoch cs)
    (ConsensusState.votedSlots cs) (ConsensusState.lockouts cs)
    (ConsensusState.forkChoice cs) (ConsensusState.leaderSchedule cs) x
    (ConsensusState.epochFinalHash cs).
Definition set_epochFinalHash (cs : ConsensusState.t) x : ConsensusState.t :=
  ConsensusState.mk (ConsensusState.currentSlot cs) (ConsensusState.currentEpoch cs)
    (ConsensusState.votedSlots cs) (ConsensusState.lockouts cs)
    (ConsensusState.forkChoice cs) (ConsensusState.leaderSchedule cs)
    (ConsensusState.epochStartSlot cs) x.

Definition currentSlot (st : t) : Z := ConsensusState.currentSlot (consensusState st).
Definition currentEpoch (st : t) : Z := ConsensusState.currentEpoch (consensusState st).

(** [initializeGenesisEpoch()]. *)
Definition initializeGenesisEpoch (st : t) : t :=
  let genesisSchedule := LeaderSchedule.mk 0 [] (js "genesis") in
  let st := set_leaderSchedules st (<[0 := genesisSchedule]> (leaderSchedules st)) in
  let st := set_consensusState st (set_leaderSchedule (consensusState st) []) in
  set_epochBlocks st (<[0 := []]> (epochBlocks st)).

(** [new SimplifiedConsensus()]. *)
Definition new : t :=
  initializeGenesisEpoch
    (mk ∅ ∅ (ConsensusState.mk 0 0 ∅ ∅ [] [] 0 None) ∅ ∅ ∅).

Definition addValidator (st : t) (validator : ValidatorInfo.t) : t :=
  let st := set_validators st
    (<[ValidatorInfo.publicKey validator := validator]> (validators st)) in
  match lockouts st !! ValidatorInfo.publicKey validator with
  | None => set_lockouts st (<[ValidatorInfo.publicKey validator := ∅]> (lockouts st))
  | Some _ => st
  end.

Definition removeValidator (st : t) (publicKey : jsstring) : t :=
  let st := set_validators st (delete publicKey (validators st)) in
  set_lockouts st (delete publicKey (lockouts st)).

(** The [for ... of validatorLockouts.entries()] loop of [canVote]. *)
Fixpoint canVote_loop (currentSlot : Z) (entries : list (Z * Z)) : bool :=
  match entries with
  | [] => true
  | (slot, lockoutExpiry) :: rest =>
    if currentSlot <? lockoutExpiry then
      if 2 <? lockoutExpiry - currentSlot then false
      else canVote_loop currentSlot rest
    else canVote_loop currentSlot rest
  end.

Definition canVote (st : t) (validatorPublicKey blockHash : jsstring) : bool :=
  match lockouts st !! validatorPublicKey with
  | None => true
  | Some validatorLockouts =>
    if (size validatorLockouts =? 0)%nat then true
    else canVote_loop (currentSlot st) (map_to_list validatorLockouts)
  end.

Definition calculateLockout (st : t) (validatorPublicKey : jsstring) : Z :=
  match lockouts st !! validatorPublicKey with
  | None => 1
  | Some validatorLockouts =>
    if (size validatorLockouts =? 0)%nat then 1
    else
      let recentVotes :=
        List.filter (fun expiry => currentSlot st <? expiry)
          ((map_to_list validatorLockouts).*2) in
      if (length recentVotes =? 0)%nat then 1
      else Z.min (Z.of_nat (length recentVotes) + 1) 4
  end.

Definition updateLockout (st : t) (validatorPublicKey blockHash : jsstring) (lockout : Z) : t :=
  match lockouts st !! validatorPublicKey with
  | None => st
  | Some validatorLockouts =>
    let currentSlot := currentSlot st in
    set_lockouts st
      (<[validatorPublicKey := <[currentSlot := currentSlot + lockout]> validatorLockouts]>
         (lockouts st))
  end.

Definition validateVoteSync (st : t) (vote : Vote.t) : bool :=
  match validators st !! Vote.validator vote with
  | None => false
  | Some validator =>
    if negb (ValidatorInfo.isActive validator) then false
    else canVote st (Vote.validator vote) (Vote.blockHash vote)
  end.

Definition addVote (st : t) (vote : Vote.t) : t * bool :=
  if negb (validateVoteSync st vote) then (st, false)
  else
    let st :=
      match votes st !! Vote.blockHash vote with
      | None => set_votes st (<[Vote.blockHash vote := []]> (votes st))
      | Some _ => st
      end in
    let blockVotes := default [] (votes st !! Vote.blockHash vote) in
    let existingVoteIndex :=
      findIndex (fun v => streq (Vote.validator v) (Vote.validator vote)) blockVotes in
    let blockVotes :=
      if 0 <=? existingVoteIndex
      then <[Z.to_nat existingVoteIndex := vote]> blockVotes
      else blockVotes ++ [vote] in
    let st := set_votes st (<[Vote.blockHash vote := blockVotes]> (votes st)) in
    (updateLockout st (Vote.validator vote) (Vote.blockHash vote) (Vote.lockout vote), true).

Definition getVotesForBlock (st : t) (blockHash : jsstring) : list Vote.t :=
  default [] (votes st !! blockHash).

Definition calculateStakeWeight (st : t) (blockHash : jsstring) : Z :=
  let votes := getVotesForBlock st blockHash in
  foldl (fun totalStake vote =>
           match validators st !! Vote.validator vote with
           | Some validator =>
             if ValidatorInfo.isActive validator
             then totalStake + ValidatorInfo.stake validator
             else totalStake
           | None => totalStake
           end) 0 votes.

Definition getTotalStake (st : t) : Z :=
  foldl (fun total validator =>
           if ValidatorInfo.isActive validator
           then total + ValidatorInfo.stake validator
           else total) 0 ((map_to_list (validators st)).*2).

(** [stakeWeight > (totalStake * 2) / 3], computed as the source does, in
    binary64. *)
Definition hasSupermajority (st : t) (blockHash : jsstring) : bool :=
  let stakeWeight := Number.of_Z (calculateStakeWeight st blockHash) in
  let totalStake := Number.of_Z (getTotalStake st) in
  Number.gtb stakeWeight
    (Number.div (Number.mul totalStake (Number.of_Z 2)) (Number.of_Z 3)).



Definition cleanupExpiredLockouts (st : t) : t :=
  let currentSlot := currentSlot st in
  set_lockouts st
    ((fun lockouts : gmap Z Z =>
        let expiredSlots :=
          (List.filter (fun '(slot, expiry) => expiry <=? currentSlot)
             (map_to_list lockouts)).*1 in
        foldl (fun lockouts slot => delete slot lockouts) lockouts expiredSlots)
     <$> lockouts st).

Definition getActiveValidators (st : t) : list ValidatorInfo.t :=
  List.filter ValidatorInfo.isActive ((map_to_list (validators st)).*2).

Definition getEpochFromSlot (slot : Z) : Z :=
  slot `div` EPOCH_CONSTANTS.SLOTS_PER_EPOCH.

Definition getSlotInEpoch (slot : Z) : Z :=
  Z.rem slot EPOCH_CONSTANTS.SLOTS_PER_EPOCH.

Definition addBlock (st : t) (block : Block.t) : t :=
  let epoch := getEpochFromSlot (Block.slot block) in
  let st :=
    match epochBlocks st !! epoch with
    | None => set_epochBlocks st (<[epoch := []]> (epochBlocks st))
    | Some _ => st
    end in
  set_epochBlocks st
    (<[epoch := default [] (epochBlocks st !! epoch) ++ [block]]> (epochBlocks st)).

Section Hashing.
Variable sha256 : list byte -> list byte.
Variable localeCompare : jsstring -> jsstring -> Z.

Local Abbreviation sha256_hex := (Crypto.sha256_hex sha256).

(** The Fisher-Yates loop of [shuffleValidators], from index [i] down to 1. *)
Fixpoint shuffle_loop (hash : list byte) (i : nat) (shuffled : list ValidatorInfo.t)
  : list ValidatorInfo.t :=
  match i with
  | O => shuffled
  | S i' =>
    let seedForIndex := sha256 (hash ++ utf8_encode (Number_toString (Z.of_nat i))) in
    let j := Z.to_nat (Z.rem (readUInt32BE seedForIndex) (Z.of_nat i + 1)) in
    shuffle_loop hash i' (swap shuffled i j)
  end.

Definition shuffleValidators (validators : list ValidatorInfo.t) (seed : jsstring)
  : list ValidatorInfo.t :=
  let shuffled := validators in
  let hash := sha256 (utf8_encode seed) in
  shuffle_loop hash (length shuffled - 1) shuffled.

Definition generateEqualDistributionSchedule
  (validators : list ValidatorInfo.t) (seed : jsstring) : option (list jsstring) :=
  let slotsPerRotation := 4 in
  let totalSlots := EPOCH_CONSTANTS.SLOTS_PER_EPOCH in
  let totalRotations := totalSlots `div` slotsPerRotation in
  let shuffledValidators := shuffleValidators validators seed in
  rotations ←
    mapM (fun rotation : nat =>
            let validatorIndex := (rotation `mod` length shuffledValidators)%nat in
            validator ← shuffledValidators !! validatorIndex;
            Some (replicate (Z.to_nat slotsPerRotation) (ValidatorInfo.publicKey validator)))
         (seq 0 (Z.to_nat totalRotations));
  let schedule := concat rotations in
  let remainingSlots := totalSlots - Z.of_nat (length schedule) in
  remaining ←
    mapM (fun i : nat =>
            let validatorIndex := (i `mod` length shuffledValidators)%nat in
            validator ← shuffledValidators !! validatorIndex;
            Some (ValidatorInfo.publicKey validator))
         (seq 0 (Z.to_nat remainingSlots));
  Some (schedule ++ remaining).

(** The loop of [selectLeaderByStake]. *)
Fixpoint selectLeader_loop (seedValue : option Z) (cumulativeStake : Z)
  (validators : list ValidatorInfo.t) : option ValidatorInfo.t :=
  match validators with
  | [] => None
  | validator :: rest =>
    let cumulativeStake := cumulativeStake + ValidatorInfo.stake validator in
    if nan_ltb seedValue cumulativeStake then Some validator
    else selectLeader_loop seedValue cumulativeStake rest
  end.

(** [selectLeaderByStake]: [None] is the [undefined] that [validators[0]]
    yields on an empty array. *)
Definition selectLeaderByStake (validators : list ValidatorInfo.t) (seed : list byte)
  : option ValidatorInfo.t :=
  let totalStake := foldl (fun sum v => sum + ValidatorInfo.stake v) 0 validators in
  let seedValue := JS.rem (readUInt32BE seed) totalStake in
  match selectLeader_loop seedValue 0 validators with
  | Some validator => Some validator
  | None => validators !! 0%nat
  end.

Definition generateLeaderSchedule (st : t) (epoch : Z) (seed : jsstring)
  : option (list jsstring) :=
  let activeValidators := getActiveValidators st in
  if (length activeValidators =? 0)%nat then Some []
  else
    let sortedValidators :=
      sort (fun a b => localeCompare (ValidatorInfo.publicKey a) (ValidatorInfo.publicKey b))
        activeValidators in
    if 0 <? epoch then generateEqualDistributionSchedule sortedValidators seed
    else
      let hash := sha256 (utf8_encode seed) in
      mapM (fun slot : nat =>
              let slotSeed :=
                sha256 (hash ++ utf8_encode (Number_toString (Z.of_nat slot))) in
              leader ← selectLeaderByStake sortedValidators slotSeed;
              Some (ValidatorInfo.publicKey leader))
           (seq 0 (Z.to_nat EPOCH_CONSTANTS.SLOTS_PER_EPOCH)).

Definition calculateEpochFinalHash (st : t) (epoch : Z) : jsstring :=
  let epochBlocks := default [] (epochBlocks st !! epoch) in
  if (length epochBlocks =? 0)%nat then
    sha256_hex (js "epoch-" ++ Number_toString epoch ++ js "-empty")
  else
    let combinedHashes := join (List.map Block.hash epochBlocks) in
    sha256_hex combinedHashes.

Definition transitionToNextEpoch (st : t) : option t :=
  let currentEpoch := currentEpoch st in
  let nextEpoch := currentEpoch + 1 in
  let epochFinalHash := calculateEpochFinalHash st currentEpoch in
  let st := set_consensusState st
    (set_epochFinalHash (consensusState st) (Some epochFinalHash)) in
  nextSchedule ← generateLeaderSchedule st nextEpoch epochFinalHash;
  let leaderSchedule := LeaderSchedule.mk nextEpoch nextSchedule epochFinalHash in
  let st := set_leaderSchedules st (<[nextEpoch := leaderSchedule]> (leaderSchedules st)) in
  let st := set_consensusState st (set_currentEpoch (consensusState st) nextEpoch) in
  let st := set_consensusState st
    (set_epochStartSlot (consensusState st) (SimplifiedConsensus.currentSlot st)) in
  let st := set_consensusState st (set_leaderSchedule (consensusState st) nextSchedule) in
  Some (set_epochBlocks st (<[nextEpoch := []]> (epochBlocks st))).

Definition updateSlot (st : t) (slot : Z) : option t :=
  let previousEpoch := currentEpoch st in
  let newEpoch := getEpochFromSlot slot in
  let st := set_consensusState st (set_currentSlot (consensusState st) slot) in
  st ← (if previousEpoch <? newEpoch then transitionToNextEpoch st else Some st);
  Some (cleanupExpiredLockouts st).

(** The states the public operations can reach from a fresh engine. *)
Inductive reachable : t -> Prop :=
| reachable_new : reachable new
| reachable_addValidator st validator :
    reachable st -> reachable (addValidator st validator)
| reachable_removeValidator st publicKey :
    reachable st -> reachable (removeValidator st publicKey)
| reachable_addVote st vote :
    reachable st -> reachable (addVote st vote).1
| reachable_updateSlot st slot st' :
    reachable st -> updateSlot st slot = Some st' -> reachable st'
| reachable_addBlock st block :
    reachable st -> reachable (addBlock st block).

End Hashing.

(** *** Lockouts and [canVote] *)

Lemma canVote_loop_false currentSlot entries :
  canVote_loop currentSlot entries = false <->
  exists slot expiry, (slot, expiry) ∈ entries /\ currentSlot + 2 < expiry.
Proof.
  induction entries as [|[slot expiry] rest IH]; cbn [canVote_loop].
  { split; [done|]. intros (? & ? & Hin & _). by apply elem_of_nil in Hin. }
  destruct (currentSlot <? expiry) eqn:H1;
    [destruct (2 <? expiry - currentSlot) eqn:H2|].
  - split; [|done]. intros _. exists slot, expiry.
    split; [left|]. apply Z.ltb_lt in H2. lia.
  - rewrite IH. apply Z.ltb_ge in H2. split.
    + intros (s & e & Hin & He). exists s, e. split; [by right|done].
    + intros (s & e & Hin & He).
      apply elem_of_cons in Hin as [Heq|Hin]; [simplify_eq; lia|eauto].
  - rewrite IH. apply Z.ltb_ge in H1. split.
    + intros (s & e & Hin & He). exists s, e. split; [by right|done].
    + intros (s & e & Hin & He).
      apply elem_of_cons in Hin as [Heq|Hin]; [simplify_eq; lia|eauto].
Qed.

Lemma canVote_false st validatorPublicKey blockHash :
  canVote st validatorPublicKey blockHash = false <->
  exists validatorLockouts slot expiry,
    lockouts st !! validatorPublicKey = Some validatorLockouts /\
    validatorLockouts !! slot = Some expiry /\
    currentSlot st + 2 < expiry.
Proof.
  unfold canVote.
  destruct (lockouts st !! validatorPublicKey) as [vl|] eqn:Hvl; cycle 1.
  { split; [done|]. by intros (? & ? & ? & ? & _). }
  destruct (size vl =? 0)%nat eqn:Hsize.
  - apply Nat.eqb_eq, map_size_empty_iff in Hsize. subst vl.
    split; [done|]. intros (? & ? & ? & ? & Hl & _). simplify_eq.
  - rewrite canVote_loop_false. split.
    + intros (s & e & Hin & He). apply elem_of_map_to_list in Hin. by exists vl, s, e.
    + intros (vl' & s & e & ? & Hl & He). simplify_eq.
      exists s, e. by rewrite elem_of_map_to_list.
Qed.

(** *** [addVote] *)

Lemma validateVoteSync_false st vote :
  validateVoteSync st vote = false <->
  validators st !! Vote.validator vote = None \/
  (exists validator, validators st !! Vote.validator vote = Some validator /\
                     ValidatorInfo.isActive validator = false) \/
  canVote st (Vote.validator vote) (Vote.blockHash vote) = false.
Proof.
  unfold validateVoteSync.
  destruct (validators st !! Vote.validator vote) as [v|]; [|split; [by left|done]].
  destruct (ValidatorInfo.isActive v) eqn:Hact; cbn [negb].
  - split; [by auto|]. intros [?|[(v' & ? & ?)|?]]; [done| |done]. congruence.
  - split; [|done]. intros _. right; left. by exists v.
Qed.

Lemma addVote_result st vote : (addVote st vote).2 = validateVoteSync st vote.
Proof. unfold addVote. by destruct (validateVoteSync st vote). Qed.

Lemma addVote_rejected st vote :
  (addVote st vote).2 = false -> (addVote st vote).1 = st.
Proof.
  rewrite addVote_result. unfold addVote. by intros ->.
Qed.

(** *** [selectFork] *)

Section ForkChoice.
Variable st : t.

Local Abbreviation weight := (fun b : Block.t => calculateStakeWeight st (Block.hash b)).





End ForkChoice.

(** *** Stake accounting *)

Definition sumZ (l : list Z) : Z := foldr Z.add 0 l.

(** The stake a vote of [publicKey] adds in [calculateStakeWeight]. *)
Definition stakeOf (m : gmap jsstring ValidatorInfo.t) (publicKey : jsstring) : Z :=
  match m !! publicKey with
  | Some validator =>
    if ValidatorInfo.isActive validator then ValidatorInfo.stake validator else 0
  | None => 0
  end.

(** The specification's reading of a block's stake weight: the stake of
    every validator of the table, counted once, that is active and holds a
    recorded vote for the block. *)
Definition votedActiveStake (st : t) (blockHash : jsstring) : Z :=
  map_fold (fun publicKey validator acc =>
              if ValidatorInfo.isActive validator
                 && bool_decide (publicKey ∈ Vote.validator <$> getVotesForBlock st blockHash)
              then ValidatorInfo.stake validator + acc
              else acc) 0 (validators st).

Lemma foldl_add_sumZ {A} (g : A -> Z) (f : Z -> A -> Z) (l : list A) (a : Z) :
  (forall acc x, f acc x = acc + g x) ->
  foldl f a l = a + sumZ (g <$> l).
Proof.
  intros Hf. unfold sumZ. revert a.
  induction l as [|x l IH]; intros a; [simpl; lia|].
  rewrite fmap_cons. cbn [foldl foldr]. rewrite IH, Hf. lia.
Qed.

Lemma calculateStakeWeight_sum st blockHash :
  calculateStakeWeight st blockHash =
  sumZ (stakeOf (validators st) <$> (Vote.validator <$> getVotesForBlock st blockHash)).
Proof.
  unfold calculateStakeWeight. rewrite <- list_fmap_compose.
  erewrite foldl_add_sumZ; [by rewrite Z.add_0_l|].
  intros acc vote. unfold stakeOf. simpl.
  destruct (validators st !! Vote.validator vote) as [v|]; [|lia].
  destruct (ValidatorInfo.isActive v); lia.
Qed.

Lemma sumZ_override (l : list jsstring) (g : jsstring -> Z) (i : jsstring) (c : Z) :
  NoDup l -> g i = 0 ->
  sumZ ((fun k => if decide (k = i) then c else g k) <$> l)
  = (if decide (i ∈ l) then c else 0) + sumZ (g <$> l).
Proof.
  intros Hnd Hgi. induction Hnd as [|k l Hk Hnd IH].
  { rewrite decide_False by apply not_elem_of_nil. done. }
  rewrite !fmap_cons. unfold sumZ in *. cbn [foldr]. rewrite IH.
  destruct (decide (k = i)) as [->|Hne].
  - rewrite (decide_False (P := i ∈ l)) by done.
    rewrite (decide_True (P := i ∈ i :: l)) by left. lia.
  - destruct (decide (i ∈ l)) as [Hin|Hnin].
    + rewrite decide_True by (by right). lia.
    + rewrite decide_False; [lia|]. rewrite elem_of_cons. by intros [?|?].
Qed.

Lemma calculateStakeWeight_votedActiveStake st blockHash :
  NoDup (Vote.validator <$> getVotesForBlock st blockHash) ->
  calculateStakeWeight st blockHash = votedActiveStake st blockHash.
Proof.
  intros Hnd. rewrite calculateStakeWeight_sum. unfold votedActiveStake.
  set (voters := Vote.validator <$> getVotesForBlock st blockHash) in *.
  apply (map_fold_weak_ind (fun r m => sumZ (stakeOf m <$> voters) = r)).
  - clear Hnd. induction voters as [|k l IH]; [done|].
    rewrite fmap_cons. unfold sumZ in *. cbn [foldr]. rewrite IH.
    unfold stakeOf. by rewrite lookup_empty.
  - intros i x m r Hi <-.
    rewrite (list_fmap_ext (stakeOf (<[i:=x]> m))
               (fun k => if decide (k = i)
                         then (if ValidatorInfo.isActive x then ValidatorInfo.stake x else 0)
                         else stakeOf m k) voters); cycle 1.
    { intros _ k _. unfold stakeOf. destruct (decide (k = i)) as [->|Hne].
      - by rewrite lookup_insert_eq.
      - by rewrite lookup_insert_ne. }
    rewrite sumZ_override; [|done|by unfold stakeOf; rewrite Hi].
    destruct (ValidatorInfo.isActive x); simpl.
    + destruct (decide (i ∈ voters)).
      * by rewrite bool_decide_eq_true_2.
      * by rewrite bool_decide_eq_false_2.
    + destruct (decide (i ∈ voters)); lia.
Qed.

Lemma foldr_stake_bounded (voted : jsstring -> bool) (l : list (jsstring * ValidatorInfo.t)) :
  (forall publicKey validator, (publicKey, validator) ∈ l ->
     ValidatorInfo.isActive validator = true -> 0 <= ValidatorInfo.stake validator) ->
  0 <= foldr (uncurry (fun publicKey validator acc =>
                 if ValidatorInfo.isActive validator && voted publicKey
                 then ValidatorInfo.stake validator + acc else acc)) 0 l
    <= foldr (uncurry (fun (_ : jsstring) validator acc =>
                 if ValidatorInfo.isActive validator
                 then ValidatorInfo.stake validator + acc else acc)) 0 l.
Proof.
  induction l as [|[k v] l IH]; intros Hl; cbn [foldr uncurry]; [lia|].
  assert (Hv := Hl k v ltac:(left)).
  destruct IH as [IH1 IH2]; [intros k' v' Hin; apply (Hl k' v'); by right|].
  destruct (ValidatorInfo.isActive v), (voted k); cbn [andb]; lia.
Qed.

Lemma Qlt_two_thirds (stakeWeight totalStake : Z) :
  (inject_Z totalStake * (2 # 3) < inject_Z stakeWeight)%Q <->
  2 * totalStake < 3 * stakeWeight.
Proof. unfold Qlt. simpl. lia. Qed.

Lemma Qeq_two_thirds (stakeWeight totalStake : Z) :
  (inject_Z stakeWeight == inject_Z totalStake * (2 # 3))%Q <->
  3 * stakeWeight = 2 * totalStake.
Proof. unfold Qeq. simpl. lia. Qed.

(** *** What [addVote] stores *)

(** The vote list of a block after an accepted vote. *)
Definition upsertVote (vote : Vote.t) (blockVotes : list Vote.t) : list Vote.t :=
  let existingVoteIndex :=
    findIndex (fun v => streq (Vote.validator v) (Vote.validator vote)) blockVotes in
  if 0 <=? existingVoteIndex
  then <[Z.to_nat existingVoteIndex := vote]> blockVotes
  else blockVotes ++ [vote].

Lemma addVote_accepted st vote :
  validateVoteSync st vote = true ->
  (addVote st vote).1 =
  updateLockout
    (set_votes st
       (<[Vote.blockHash vote := upsertVote vote (getVotesForBlock st (Vote.blockHash vote))]>
          (votes st)))
    (Vote.validator vote) (Vote.blockHash vote) (Vote.lockout vote).
Proof.
  intros Hok. unfold addVote, getVotesForBlock, upsertVote. rewrite Hok. cbn [negb fst].
  destruct (votes st !! Vote.blockHash vote) as [l|] eqn:Hl; cbn [set_votes votes].
  - by rewrite Hl.
  - rewrite lookup_insert_eq. cbn [default]. by rewrite insert_insert_eq.
Qed.

Lemma upsertVote_spec vote blockVotes :
  NoDup (Vote.validator <$> blockVotes) ->
  NoDup (Vote.validator <$> upsertVote vote blockVotes) /\
  vote ∈ upsertVote vote blockVotes /\
  length (upsertVote vote blockVotes) =
    (if decide (Vote.validator vote ∈ Vote.validator <$> blockVotes)
     then length blockVotes else S (length blockVotes)).
Proof.
  intros Hnd. unfold upsertVote, findIndex.
  pose proof (findIndex_from_spec
    (fun v => streq (Vote.validator v) (Vote.validator vote)) blockVotes 0) as Hfind.
  destruct (list_find _ blockVotes) as [[k y]|] eqn:Hlf.
  - rewrite Hfind. apply list_find_Some in Hlf as (Hk & Hy & _).
    apply streq_true in Hy.
    rewrite (proj2 (Z.leb_le 0 (0 + Z.of_nat k))) by lia.
    replace (Z.to_nat (0 + Z.of_nat k)) with k by lia.
    split; [|split].
    + rewrite list_fmap_insert, list_insert_id; [done|].
      by rewrite list_lookup_fmap, Hk, <- Hy.
    + eapply list_elem_of_lookup_2. apply list_lookup_insert_eq.
      by eapply lookup_lt_Some.
    + rewrite length_insert. rewrite decide_True; [done|].
      rewrite <- Hy. apply list_elem_of_fmap_2. by eapply list_elem_of_lookup_2.
  - rewrite Hfind. cbn. apply list_find_None in Hlf.
    assert (Vote.validator vote ∉ Vote.validator <$> blockVotes) as Hnin.
    { intros (y & Hy & Hin)%list_elem_of_fmap_1.
      rewrite Forall_forall in Hlf. apply (Hlf y Hin). by apply streq_true. }
    split; [|split].
    + rewrite fmap_app. apply NoDup_app. split; [done|]. split; [|apply NoDup_singleton].
      intros x Hx Hx'. apply list_elem_of_singleton in Hx'. by subst.
    + apply elem_of_app. right. by apply list_elem_of_singleton.
    + rewrite length_app. simpl. rewrite decide_False by done. lia.
Qed.

(** *** Purging expired lockouts *)

Lemma foldl_delete_lookup (ks : list Z) (m : gmap Z Z) (k : Z) :
  foldl (fun lockouts slot => delete slot lockouts) m ks !! k
  = if decide (k ∈ ks) then None else m !! k.
Proof.
  revert m. induction ks as [|a ks IH]; intros m; cbn [foldl].
  { by rewrite decide_False by apply not_elem_of_nil. }
  rewrite IH. destruct (decide (k ∈ ks)) as [Hin|Hnin].
  - by rewrite decide_True by (by right).
  - destruct (decide (k = a)) as [->|Hne].
    + rewrite decide_True by left. apply lookup_delete_eq.
    + rewrite decide_False by (rewrite elem_of_cons; by intros [?|?]).
      by apply lookup_delete_ne.
Qed.

Lemma purge_expired (currentSlot : Z) (lockouts : gmap Z Z) :
  foldl (fun lockouts slot => delete slot lockouts) lockouts
    (List.filter (fun '(slot, expiry) => expiry <=? currentSlot) (map_to_list lockouts)).*1
  = filter (fun entry => currentSlot < entry.2) lockouts.
Proof.
  apply map_eq. intros k. rewrite foldl_delete_lookup.
  set (expired := List.filter _ _).
  assert (Hexp : forall s e, (s, e) ∈ expired <-> lockouts !! s = Some e /\ e <= currentSlot).
  { intros s e. unfold expired. rewrite list_elem_of_In, filter_In, <- list_elem_of_In.
    rewrite elem_of_map_to_list. by rewrite Z.leb_le. }
  destruct (lockouts !! k) as [e|] eqn:Hk.
  - destruct (decide (e <= currentSlot)) as [Hle|Hgt].
    + rewrite decide_True.
      * symmetry. apply map_lookup_filter_None. right. intros x Hx. simplify_eq/=. lia.
      * apply list_elem_of_fmap. exists (k, e). split; [done|]. by apply Hexp.
    + rewrite decide_False.
      * symmetry. apply map_lookup_filter_Some. split; [done|]. simpl. lia.
      * intros ([s e'] & Hs & Hin)%list_elem_of_fmap. simpl in Hs. subst s.
        apply Hexp in Hin as [Hl He]. simplify_eq. lia.
  - destruct (decide _); symmetry; apply map_lookup_filter_None; by left.
Qed.

Lemma cleanupExpiredLockouts_lockouts st :
  lockouts (cleanupExpiredLockouts st)
  = filter (fun entry : Z * Z => currentSlot st < entry.2) <$> lockouts st.
Proof.
  unfold cleanupExpiredLockouts. cbn [set_lockouts lockouts].
  apply map_fmap_ext. intros k l _. apply purge_expired.
Qed.

(** *** Leader schedules *)

Lemma mapM_total {A B} (f : A -> option B) (g : A -> B) (l : list A) :
  (forall x, x ∈ l -> f x = Some (g x)) -> mapM f l = Some (g <$> l).
Proof.
  intros Hf. apply mapM_Some_2. induction l as [|x l IH]; [constructor|].
  rewrite fmap_cons. constructor; [apply Hf; left|].
  apply IH. intros y Hy. apply Hf. by right.
Qed.

Section Schedule.
Variable sha256 : list byte -> list byte.
Variable localeCompare : jsstring -> jsstring -> Z.

Lemma shuffle_loop_Permutation hash i shuffled :
  shuffle_loop sha256 hash i shuffled ≡ₚ shuffled.
Proof.
  revert shuffled. induction i as [|i IH]; intros shuffled; cbn [shuffle_loop]; [done|].
  rewrite IH. apply swap_Permutation.
Qed.

Lemma shuffleValidators_Permutation validators seed :
  shuffleValidators sha256 validators seed ≡ₚ validators.
Proof. apply shuffle_loop_Permutation. Qed.

(** The slots of the equal-distribution schedule: rotation [r] (of 16) goes
    to the shuffled validator of index [r mod n]. *)
Lemma length_concat_replicate {A B} (h : A -> B) (n : nat) (l : list A) :
  length (concat ((fun r => replicate n (h r)) <$> l)) = (n * length l)%nat.
Proof.
  induction l as [|x l IH]; [simpl; lia|].
  rewrite fmap_cons. cbn [concat]. rewrite length_app, length_replicate, IH. simpl. lia.
Qed.

Lemma generateEqualDistributionSchedule_spec validators seed :
  validators <> [] ->
  exists schedule,
    generateEqualDistributionSchedule sha256 validators seed = Some schedule /\
    length schedule = 64%nat /\
    forall publicKey,
      publicKey ∈ schedule <->
      exists (r : nat) validator,
        (r < 16)%nat /\
        shuffleValidators sha256 validators seed !! (r `mod` length validators)%nat
          = Some validator /\
        ValidatorInfo.publicKey validator = publicKey.
Proof.
  intros Hne. unfold generateEqualDistributionSchedule.
  pose proof (shuffleValidators_Permutation validators seed) as Hperm.
  set (shuffled := shuffleValidators sha256 validators seed) in *.
  assert (Hlen : length shuffled = length validators) by by apply Permutation_length.
  assert (Hpos : (0 < length validators)%nat).
  { destruct validators; [done|simpl; lia]. }
  assert (exists v0 : ValidatorInfo.t, True) as [v0 _].
  { destruct validators as [|v ?]; [done|by exists v]. }
  cbn zeta.
  change (Z.to_nat (EPOCH_CONSTANTS.SLOTS_PER_EPOCH `div` 4)) with 16%nat.
  change (Z.to_nat 4) with 4%nat.
  set (pick := fun r : nat =>
    ValidatorInfo.publicKey (nth (r `mod` length shuffled) shuffled v0)).
  assert (Hpick : forall r : nat,
    shuffled !! (r `mod` length shuffled)%nat
    = Some (nth (r `mod` length shuffled) shuffled v0)).
  { intros r. destruct (nth_lookup_or_length shuffled (r `mod` length shuffled) v0)
      as [?|Hge]; [done|].
    pose proof (Nat.mod_upper_bound r (length shuffled)). lia. }
  rewrite (mapM_total _ (fun r => replicate 4 (pick r))); cycle 1.
  { intros r _. by rewrite Hpick. }
  cbn [mbind option_bind].
  rewrite length_concat_replicate, length_seq.
  change (Z.to_nat (EPOCH_CONSTANTS.SLOTS_PER_EPOCH - Z.of_nat (4 * 16))) with 0%nat.
  change (seq 0 0) with (@nil nat). cbn [mapM mret option_ret mbind option_bind].
  rewrite app_nil_r. eexists. split; [reflexivity|].
  split; [by rewrite length_concat_replicate, length_seq|].
  intros publicKey. rewrite list_elem_of_In, in_concat. rewrite <- Hlen. split.
  - intros (l & Hl & Hin). apply list_elem_of_In, list_elem_of_fmap in Hl as (r & -> & Hr).
    apply list_elem_of_In, elem_of_replicate in Hin as [-> _].
    apply elem_of_seq in Hr. exists r, (nth (r `mod` length shuffled) shuffled v0).
    split; [lia|]. by split.
  - intros (r & v & Hr & Hv & <-). exists (replicate 4 (pick r)). split.
    + apply list_elem_of_In, list_elem_of_fmap. exists r. split; [done|].
      apply elem_of_seq. lia.
    + apply list_elem_of_In, elem_of_replicate. split; [|done].
      unfold pick. rewrite Hpick in Hv. by injection Hv as <-.
Qed.
Lemma selectLeaderByStake_is_Some validators seed :
  validators <> [] -> is_Some (selectLeaderByStake validators seed).
Proof.
  intros Hne. unfold selectLeaderByStake.
  destruct (selectLeader_loop _ _ _); [done|].
  destruct validators; [done|]. by eexists.
Qed.

Lemma sorted_active_Permutation st :
  sort (fun a b => localeCompare (ValidatorInfo.publicKey a) (ValidatorInfo.publicKey b))
    (getActiveValidators st) ≡ₚ getActiveValidators st.
Proof. apply sort_Permutation. Qed.

Lemma generateLeaderSchedule_empty st epoch seed :
  getActiveValidators st = [] ->
  generateLeaderSchedule sha256 localeCompare st epoch seed = Some [].
Proof. intros Hnil. unfold generateLeaderSchedule. by rewrite Hnil. Qed.

Lemma generateLeaderSchedule_length st epoch seed :
  getActiveValidators st <> [] ->
  exists schedule,
    generateLeaderSchedule sha256 localeCompare st epoch seed = Some schedule /\
    length schedule = Z.to_nat EPOCH_CONSTANTS.SLOTS_PER_EPOCH.
Proof.
  intros Hne. unfold generateLeaderSchedule.
  pose proof (sorted_active_Permutation st) as Hperm.
  set (sorted := sort _ _) in *.
  assert (sorted <> []) as Hsorted.
  { intros Hnil. rewrite Hnil in Hperm. by apply Permutation_nil_l in Hperm. }
  destruct (length (getActiveValidators st) =? 0)%nat eqn:Hlen.
  { apply Nat.eqb_eq, nil_length_inv in Hlen. done. }
  destruct (0 <? epoch).
  - destruct (generateEqualDistributionSchedule_spec sorted seed Hsorted)
      as (schedule & Hs & Hl & _). by exists schedule.
  - match goal with |- context [mapM ?f ?l] =>
      destruct (mapM f l) as [schedule|] eqn:Hm end.
    + exists schedule. split; [done|]. apply length_mapM in Hm.
      by rewrite <- Hm, length_seq.
    + exfalso. apply mapM_None_1, Exists_exists in Hm as (slot & _ & Hslot).
      destruct (selectLeaderByStake_is_Some sorted
        (sha256 (sha256 (utf8_encode seed) ++ utf8_encode (Number_toString (Z.of_nat slot))))
        Hsorted) as [leader Hleader].
      by rewrite Hleader in Hslot.
Qed.

(** After the genesis epoch, with at most as many active validators as
    rotations, nobody is left out. *)
Lemma generateLeaderSchedule_covers st epoch seed schedule validator :
  0 < epoch -> (length (getActiveValidators st) <= 16)%nat ->
  generateLeaderSchedule sha256 localeCompare st epoch seed = Some schedule ->
  validator ∈ getActiveValidators st ->
  ValidatorInfo.publicKey validator ∈ schedule.
Proof.
  intros Hepoch Hcount Hgen Hin. unfold generateLeaderSchedule in Hgen.
  pose proof (sorted_active_Permutation st) as Hperm.
  set (sorted := sort _ _) in *.
  destruct (length (getActiveValidators st) =? 0)%nat eqn:Hlen.
  { apply Nat.eqb_eq, nil_length_inv in Hlen. rewrite Hlen in Hin.
    by apply elem_of_nil in Hin. }
  rewrite (proj2 (Z.ltb_lt 0 epoch) Hepoch) in Hgen.
  assert (sorted <> []) as Hsorted.
  { intros Hnil. rewrite Hnil in Hperm. apply Permutation_nil_l in Hperm.
    rewrite <- Hperm in Hin. by apply elem_of_nil in Hin. }
  destruct (generateEqualDistributionSchedule_spec sorted seed Hsorted)
    as (schedule' & Hs & _ & Hmem).
  rewrite Hgen in Hs. injection Hs as <-. apply Hmem.
  assert (validator ∈ shuffleValidators sha256 sorted seed) as Hsh.
  { by rewrite shuffleValidators_Permutation, Hperm. }
  apply list_elem_of_lookup_1 in Hsh as [r Hr].
  assert (r < length sorted)%nat as Hrlt.
  { apply lookup_lt_Some in Hr.
    by rewrite (Permutation_length (shuffleValidators_Permutation sorted seed)) in Hr. }
  assert (length sorted = length (getActiveValidators st)) as Hls
    by by apply Permutation_length.
  exists r, validator. split; [lia|]. split; [|done].
  by rewrite Nat.mod_small.
Qed.

(** With more active validators than rotations, somebody is left out. *)
Lemma generateLeaderSchedule_leaves_out st epoch seed :
  0 < epoch -> (16 < length (getActiveValidators st))%nat ->
  NoDup (ValidatorInfo.publicKey <$> getActiveValidators st) ->
  exists validator schedule,
    validator ∈ getActiveValidators st /\
    generateLeaderSchedule sha256 localeCompare st epoch seed = Some schedule /\
    ValidatorInfo.publicKey validator ∉ schedule.
Proof.
  intros Hepoch Hcount Hnd. unfold generateLeaderSchedule.
  pose proof (sorted_active_Permutation st) as Hperm.
  set (sorted := sort _ _) in *.
  assert (length sorted = length (getActiveValidators st)) as Hls
    by by apply Permutation_length.
  destruct (length (getActiveValidators st) =? 0)%nat eqn:Hlen.
  { apply Nat.eqb_eq in Hlen. lia. }
  rewrite (proj2 (Z.ltb_lt 0 epoch) Hepoch).
  assert (sorted <> []) as Hsorted.
  { intros Hnil. rewrite Hnil in Hls. simpl in Hls. lia. }
  destruct (generateEqualDistributionSchedule_spec sorted seed Hsorted)
    as (schedule & Hs & _ & Hmem).
  pose proof (shuffleValidators_Permutation sorted seed) as Hshp.
  set (shuffled := shuffleValidators sha256 sorted seed) in *.
  assert (is_Some (shuffled !! 16%nat)) as [validator Hv].
  { apply lookup_lt_is_Some. rewrite (Permutation_length Hshp). lia. }
  exists validator, schedule. split; [|split; [done|]].
  { rewrite <- Hperm, <- Hshp. by eapply list_elem_of_lookup_2. }
  intros (r & v & Hr & Hrv & Hpk)%Hmem.
  rewrite Nat.mod_small in Hrv by lia.
  assert (NoDup (ValidatorInfo.publicKey <$> shuffled)) as Hnd'.
  { by rewrite Hshp, Hperm. }
  assert (r = 16%nat); [|lia].
  eapply (NoDup_lookup _ _ _ _ Hnd').
  - by rewrite list_lookup_fmap, Hrv.
  - rewrite list_lookup_fmap, Hv. simpl. by rewrite Hpk.
Qed.

Lemma generateLeaderSchedule_total st epoch seed :
  is_Some (generateLeaderSchedule sha256 localeCompare st epoch seed).
Proof.
  destruct (getActiveValidators st) as [|v l] eqn:Hact.
  - rewrite generateLeaderSchedule_empty by done. by eexists.
  - destruct (generateLeaderSchedule_length st epoch seed) as (schedule & -> & _);
      [by rewrite Hact|by eexists].
Qed.

(** *** Epoch transitions *)

(** The specification's reading of the final hash of an epoch: the digest of
    the concatenated hashes of its blocks, or of a placeholder naming the
    epoch when it has none. *)
Definition epochFinalHash_spec (st : t) (epoch : Z) : jsstring :=
  match epochBlocks st !! epoch with
  | Some (block :: blocks) =>
    Crypto.sha256_hex sha256 (concat (Block.hash <$> block :: blocks))
  | _ => Crypto.sha256_hex sha256 (js "epoch-" ++ Number_toString epoch ++ js "-empty")
  end.

Lemma calculateEpochFinalHash_spec st epoch :
  calculateEpochFinalHash sha256 st epoch = epochFinalHash_spec st epoch.
Proof.
  unfold calculateEpochFinalHash, epochFinalHash_spec.
  by destruct (epochBlocks st !! epoch) as [[|b bs]|].
Qed.

(** The state [transitionToNextEpoch] leaves, given the schedule it generated. *)
Definition transitioned (st : t) (nextSchedule : list jsstring) : t :=
  let nextEpoch := currentEpoch st + 1 in
  let epochFinalHash := calculateEpochFinalHash sha256 st (currentEpoch st) in
  mk (validators st) (votes st)
     (ConsensusState.mk (currentSlot st) nextEpoch
        (ConsensusState.votedSlots (consensusState st))
        (ConsensusState.lockouts (consensusState st))
        (ConsensusState.forkChoice (consensusState st))
        nextSchedule (currentSlot st) (Some epochFinalHash))
     (lockouts st)
     (<[nextEpoch := LeaderSchedule.mk nextEpoch nextSchedule epochFinalHash]>
        (leaderSchedules st))
     (<[nextEpoch := []]> (epochBlocks st)).

Lemma transitionToNextEpoch_spec st :
  exists nextSchedule,
    generateLeaderSchedule sha256 localeCompare st (currentEpoch st + 1)
      (calculateEpochFinalHash sha256 st (currentEpoch st)) = Some nextSchedule /\
    transitionToNextEpoch sha256 localeCompare st = Some (transitioned st nextSchedule).
Proof.
  destruct (generateLeaderSchedule_total st (currentEpoch st + 1)
              (calculateEpochFinalHash sha256 st (currentEpoch st)))
    as [nextSchedule Hgen].
  exists nextSchedule. split; [done|].
  unfold transitionToNextEpoch.
  change (generateLeaderSchedule sha256 localeCompare
            (set_consensusState st _) ?e ?h)
    with (generateLeaderSchedule sha256 localeCompare st e h).
  rewrite Hgen. reflexivity.
Qed.

Lemma updateSlot_spec st slot :
  let st0 := set_consensusState st (set_currentSlot (consensusState st) slot) in
  exists st1,
    updateSlot sha256 localeCompare st slot = Some (cleanupExpiredLockouts st1) /\
    if currentEpoch st <? getEpochFromSlot slot
    then exists nextSchedule,
      generateLeaderSchedule sha256 localeCompare st (currentEpoch st + 1)
        (calculateEpochFinalHash sha256 st (currentEpoch st)) = Some nextSchedule /\
      st1 = transitioned st0 nextSchedule
    else st1 = st0.
Proof.
  intros st0. unfold updateSlot. fold st0.
  destruct (currentEpoch st <? getEpochFromSlot slot).
  - destruct (transitionToNextEpoch_spec st0) as (nextSchedule & Hgen & ->).
    exists (transitioned st0 nextSchedule). split; [done|]. by exists nextSchedule.
  - by exists st0.
Qed.

(** *** Invariants of the reachable states *)

Record invariant (st : t) : Prop := {
  (** a block's vote list holds at most one vote per validator; *)
  inv_votes : forall blockHash blockVotes,
    votes st !! blockHash = Some blockVotes -> NoDup (Vote.validator <$> blockVotes);
  (** every validator has a lockout table; *)
  inv_lockouts : forall publicKey,
    is_Some (validators st !! publicKey) -> is_Some (lockouts st !! publicKey);
  (** the validator table is keyed by public key. *)
  inv_keys : forall publicKey validator,
    validators st !! publicKey = Some validator ->
    ValidatorInfo.publicKey validator = publicKey
}.

Lemma invariant_new : invariant new.
Proof.
  split; cbn.
  - intros h l Hl. by rewrite lookup_empty in Hl.
  - intros k [v Hv]. by rewrite lookup_empty in Hv.
  - intros k v Hv. by rewrite lookup_empty in Hv.
Qed.

Lemma invariant_addValidator st validator :
  invariant st -> invariant (addValidator st validator).
Proof.
  intros [Hv Hl Hk]. unfold addValidator. cbn [set_validators lockouts].
  destruct (lockouts st !! ValidatorInfo.publicKey validator) eqn:Hlk;
    split; cbn; try done.
  - intros k. destruct (decide (ValidatorInfo.publicKey validator = k)) as [<-|Hne].
    + by rewrite Hlk.
    + rewrite lookup_insert_ne by done. apply Hl.
  - intros k v. destruct (decide (ValidatorInfo.publicKey validator = k)) as [<-|Hne].
    + rewrite lookup_insert_eq. by intros [= <-].
    + rewrite lookup_insert_ne by done. apply Hk.
  - intros k. destruct (decide (ValidatorInfo.publicKey validator = k)) as [<-|Hne].
    + by rewrite !lookup_insert_eq.
    + rewrite !lookup_insert_ne by done. apply Hl.
  - intros k v. destruct (decide (ValidatorInfo.publicKey validator = k)) as [<-|Hne].
    + rewrite lookup_insert_eq. by intros [= <-].
    + rewrite lookup_insert_ne by done. apply Hk.
Qed.

Lemma invariant_removeValidator st publicKey :
  invariant st -> invariant (removeValidator st publicKey).
Proof.
  intros [Hv Hl Hk]. split; cbn; [done| |].
  - intros k. destruct (decide (publicKey = k)) as [<-|Hne].
    + rewrite lookup_delete_eq. by intros [].
    + rewrite !lookup_delete_ne by done. apply Hl.
  - intros k v. destruct (decide (publicKey = k)) as [<-|Hne].
    + by rewrite lookup_delete_eq.
    + rewrite lookup_delete_ne by done. apply Hk.
Qed.

Lemma updateLockout_fields st publicKey blockHash lockout :
  validators (updateLockout st publicKey blockHash lockout) = validators st /\
  votes (updateLockout st publicKey blockHash lockout) = votes st /\
  (forall k, is_Some (lockouts st !! k) ->
             is_Some (lockouts (updateLockout st publicKey blockHash lockout) !! k)).
Proof.
  unfold updateLockout. destruct (lockouts st !! publicKey) eqn:Hl; cbn; [|done].
  repeat split. intros k Hk. destruct (decide (publicKey = k)) as [<-|Hne].
  - by rewrite lookup_insert_eq.
  - by rewrite lookup_insert_ne.
Qed.

Lemma invariant_addVote st vote :
  invariant st -> invariant (addVote st vote).1.
Proof.
  intros Hinv. destruct (validateVoteSync st vote) eqn:Hok; cycle 1.
  { rewrite addVote_rejected; [done|]. by rewrite addVote_result. }
  rewrite addVote_accepted by done.
  destruct Hinv as [Hv Hl Hk].
  match goal with |- invariant (updateLockout ?s ?a ?b ?c) =>
    destruct (updateLockout_fields s a b c) as (Hvals & Hvotes & Hlock) end.
  split.
  - rewrite Hvotes. cbn. intros h l.
    destruct (decide (Vote.blockHash vote = h)) as [<-|Hne].
    + rewrite lookup_insert_eq. intros [= <-]. apply upsertVote_spec.
      unfold getVotesForBlock. destruct (votes st !! Vote.blockHash vote) eqn:Hvs; cbn.
      * by eapply Hv.
      * constructor.
    + rewrite lookup_insert_ne by done. apply Hv.
  - rewrite Hvals. cbn. intros k Hkv. apply Hlock. cbn. by apply Hl.
  - rewrite Hvals. cbn. apply Hk.
Qed.

Lemma invariant_updateSlot st slot st' :
  invariant st -> updateSlot sha256 localeCompare st slot = Some st' -> invariant st'.
Proof.
  intros [Hv Hl Hk] Hup.
  destruct (updateSlot_spec st slot) as (st1 & Heq & Hst1). rewrite Heq in Hup.
  injection Hup as <-.
  assert (validators st1 = validators st /\ votes st1 = votes st
          /\ lockouts st1 = lockouts st) as (Hvals & Hvotes & Hlocks).
  { destruct (currentEpoch st <? getEpochFromSlot slot).
    - by destruct Hst1 as (? & _ & ->).
    - by subst st1. }
  split.
  - cbn. rewrite Hvotes. apply Hv.
  - cbn -[cleanupExpiredLockouts]. intros k Hkv.
    rewrite cleanupExpiredLockouts_lockouts, lookup_fmap, Hlocks.
    unfold cleanupExpiredLockouts in Hkv. cbn in Hkv. rewrite Hvals in Hkv.
    destruct (Hl k Hkv) as [l ->]. by eexists.
  - cbn. rewrite Hvals. apply Hk.
Qed.

Lemma invariant_addBlock st block : invariant st -> invariant (addBlock st block).
Proof.
  intros [Hv Hl Hk]. unfold addBlock.
  destruct (epochBlocks st !! getEpochFromSlot (Block.slot block)); by split.
Qed.

Lemma reachable_invariant st : reachable sha256 localeCompare st -> invariant st.
Proof.
  induction 1;
    eauto using invariant_new, invariant_addValidator, invariant_removeValidator,
      invariant_addVote, invariant_updateSlot, invariant_addBlock.
Qed.

Lemma filter_active_keys (l : list (jsstring * ValidatorInfo.t)) :
  (forall k v, (k, v) ∈ l -> ValidatorInfo.publicKey v = k) ->
  ValidatorInfo.publicKey <$> List.filter ValidatorInfo.isActive l.*2
  = (List.filter (fun kv => ValidatorInfo.isActive kv.2) l).*1.
Proof.
  induction l as [|[k v] l IH]; intros Hl; [done|].
  rewrite fmap_cons. cbn [List.filter snd].
  destruct (ValidatorInfo.isActive v).
  - rewrite !fmap_cons. cbn [fst]. rewrite IH by (intros ? ? ?; apply Hl; by right).
    f_equal. apply Hl. left.
  - apply IH. intros ? ? ?; apply Hl; by right.
Qed.

Lemma NoDup_fst_filter {A B} (p : A * B -> bool) (l : list (A * B)) :
  NoDup l.*1 -> NoDup (List.filter p l).*1.
Proof.
  induction l as [|[k v] l IH]; intros Hnd; [constructor|].
  rewrite fmap_cons in Hnd. apply NoDup_cons in Hnd as [Hnin Hnd].
  cbn [List.filter]. destruct (p (k, v)); [|by apply IH].
  rewrite fmap_cons. apply NoDup_cons. split; [|by apply IH].
  intros ([k' v'] & Hkk & Hin)%list_elem_of_fmap. cbn in Hkk. subst k'.
  apply Hnin. apply list_elem_of_fmap. exists (k, v'). split; [done|].
  apply list_elem_of_In in Hin. apply filter_In in Hin as [Hin _].
  by apply list_elem_of_In.
Qed.

Lemma invariant_active_keys st :
  invariant st -> NoDup (ValidatorInfo.publicKey <$> getActiveValidators st).
Proof.
  intros [_ _ Hk]. unfold getActiveValidators.
  rewrite filter_active_keys.
  - apply NoDup_fst_filter, NoDup_fst_map_to_list.
  - intros k v Hin. apply Hk. by apply elem_of_map_to_list.
Qed.

(** *** Total stake *)

(** The specification's total active stake: the stake of every active
    validator of the table. *)
Definition totalActiveStake (st : t) : Z :=
  map_fold (fun _ validator acc =>
              if ValidatorInfo.isActive validator
              then ValidatorInfo.stake validator + acc
              else acc) 0 (validators st).

Lemma getTotalStake_totalActiveStake st : getTotalStake st = totalActiveStake st.
Proof.
  unfold getTotalStake, totalActiveStake. rewrite map_fold_foldr.
  rewrite (foldl_add_sumZ
    (fun v => if ValidatorInfo.isActive v then ValidatorInfo.stake v else 0)); cycle 1.
  { intros acc v. destruct (ValidatorInfo.isActive v); lia. }
  rewrite Z.add_0_l. unfold sumZ.
  induction (map_to_list (validators st)) as [|[k v] l IH]; [done|].
  rewrite !fmap_cons. cbn [foldr uncurry snd]. rewrite IH.
  destruct (ValidatorInfo.isActive v); lia.
Qed.



(** *** The claims about the consensus engine *)

(** C1 (as amended). With at least one active validator, the schedule
    generated for any epoch and any seed has exactly [SLOTS_PER_EPOCH] = 64
    entries; for an epoch after genesis, every active validator appears in
    it whenever there are at most 16 active validators (16 = 64 / 4 is the
    number of 4-slot rotations of an epoch). *)
Theorem generateLeaderSchedule_length_and_coverage st epoch seed :
  getActiveValidators st <> [] ->
  exists schedule,
    generateLeaderSchedule sha256 localeCompare st epoch seed = Some schedule /\
    Z.of_nat (length schedule) = EPOCH_CONSTANTS.SLOTS_PER_EPOCH /\
    (0 < epoch -> (length (getActiveValidators st) <= 16)%nat ->
     forall validator, validator ∈ getActiveValidators st ->
                       ValidatorInfo.publicKey validator ∈ schedule).
Proof.
  intros Hne.
  destruct (generateLeaderSchedule_length st epoch seed Hne) as (schedule & Hgen & Hlen).
  exists schedule. split; [done|]. split.
  - rewrite Hlen. reflexivity.
  - intros Hepoch Hcount validator Hin.
    by eapply generateLeaderSchedule_covers.
Qed.

(** C2 (as amended). In every reachable state in which no active validator
    has a negative stake and the total active stake is below 3 * 2^51
    (= 6755399441055744), [hasSupermajority] holds exactly when the stake of
    the active validators with a recorded vote for the block is strictly
    more than two thirds of the total active stake; at exactly two thirds it
    is false. (From a total of 6755399441055745 on, the rounding of the
    quotient [(totalStake * 2) / 3] can make the result false for a stake
    above two thirds.) *)
Theorem hasSupermajority_two_thirds st blockHash :
  reachable sha256 localeCompare st ->
  (forall publicKey validator,
     validators st !! publicKey = Some validator ->
     ValidatorInfo.isActive validator = true -> 0 <= ValidatorInfo.stake validator) ->
  totalActiveStake st < 3 * 2 ^ 51 ->
  (hasSupermajority st blockHash = true <->
   (inject_Z (totalActiveStake st) * (2 # 3) < inject_Z (votedActiveStake st blockHash))%Q) /\
  ((inject_Z (votedActiveStake st blockHash) == inject_Z (totalActiveStake st) * (2 # 3))%Q ->
   hasSupermajority st blockHash = false).
Proof.
  intros Hreach Hstake Hbound. apply reachable_invariant in Hreach as [Hvotes _ _].
  assert (calculateStakeWeight st blockHash = votedActiveStake st blockHash) as Hw.
  { apply calculateStakeWeight_votedActiveStake. unfold getVotesForBlock.
    destruct (votes st !! blockHash) as [l|] eqn:Hl; cbn; [by eapply Hvotes|constructor]. }
  assert (0 <= votedActiveStake st blockHash <= totalActiveStake st) as Hle.
  { unfold votedActiveStake, totalActiveStake. rewrite !map_fold_foldr.
    apply (foldr_stake_bounded
      (fun publicKey =>
         bool_decide (publicKey ∈ Vote.validator <$> getVotesForBlock st blockHash))).
    intros k v Hin. apply (Hstake k). by apply elem_of_map_to_list. }
  unfold hasSupermajority. cbn zeta. rewrite Hw, getTotalStake_totalActiveStake.
  rewrite Qlt_two_thirds, Qeq_two_thirds.
  pose proof (Number.gtb_two_thirds (votedActiveStake st blockHash) (totalActiveStake st)
                ltac:(lia) ltac:(lia)) as Hgt.
  split; [done|]. intros Heq. apply not_true_iff_false. rewrite Hgt. lia.
Qed.

(** C5. [updateSlot(s)] always returns; it sets the current slot to [s]; if
    the epoch of [s] is beyond the stored epoch [e], it records the final
    hash of [e] (the digest of the concatenated hashes of the blocks of [e],
    or of the placeholder of [e] when there are none) and stores, under
    [e + 1], the leader schedule generated for [e + 1] from that hash as
    seed; otherwise epoch and schedules are untouched. In both cases exactly
    the lockout entries whose expiry is at most [s] are removed. *)
Theorem updateSlot_correct st slot :
  exists st',
    updateSlot sha256 localeCompare st slot = Some st' /\
    currentSlot st' = slot /\
    lockouts st' = filter (fun entry : Z * Z => slot < entry.2) <$> lockouts st /\
    (currentEpoch st < getEpochFromSlot slot ->
     let finalHash := epochFinalHash_spec st (currentEpoch st) in
     let nextEpoch := currentEpoch st + 1 in
     exists nextSchedule,
       generateLeaderSchedule sha256 localeCompare st nextEpoch finalHash
         = Some nextSchedule /\
       ConsensusState.epochFinalHash (consensusState st') = Some finalHash /\
       leaderSchedules st'
         = <[nextEpoch := LeaderSchedule.mk nextEpoch nextSchedule finalHash]>
             (leaderSchedules st) /\
       ConsensusState.leaderSchedule (consensusState st') = nextSchedule /\
       currentEpoch st' = nextEpoch) /\
    (getEpochFromSlot slot <= currentEpoch st ->
     leaderSchedules st' = leaderSchedules st /\
     currentEpoch st' = currentEpoch st /\
     ConsensusState.epochFinalHash (consensusState st')
       = ConsensusState.epochFinalHash (consensusState st)).
Proof.
  destruct (updateSlot_spec st slot) as (st1 & Hup & Hst1).
  exists (cleanupExpiredLockouts st1). split; [done|].
  rewrite cleanupExpiredLockouts_lockouts.
  destruct (currentEpoch st <? getEpochFromSlot slot) eqn:Hepoch.
  - apply Z.ltb_lt in Hepoch. destruct Hst1 as (nextSchedule & Hgen & ->).
    split; [done|]. split; [done|]. split; [|lia].
    intros _. cbn zeta. exists nextSchedule.
    rewrite <- calculateEpochFinalHash_spec. by repeat split.
  - apply Z.ltb_ge in Hepoch. subst st1.
    split; [done|]. split; [done|]. split; [lia|]. done.
Qed.


End Schedule.

(** C4. [canVote] is false exactly when the validator holds a lockout entry
    that expires more than 2 slots after the current slot; it is true
    exactly when every entry it holds (if any) expires at most 2 slots after
    the current slot. *)
Theorem canVote_iff_no_fresh_lockout st validatorPublicKey blockHash :
  (canVote st validatorPublicKey blockHash = false <->
   exists validatorLockouts slot expiry,
     lockouts st !! validatorPublicKey = Some validatorLockouts /\
     validatorLockouts !! slot = Some expiry /\
     currentSlot st + 2 < expiry) /\
  (canVote st validatorPublicKey blockHash = true <->
   forall validatorLockouts slot expiry,
     lockouts st !! validatorPublicKey = Some validatorLockouts ->
     validatorLockouts !! slot = Some expiry ->
     expiry <= currentSlot st + 2).
Proof.
  split; [apply canVote_false|].
  rewrite <- not_false_iff_true, canVote_false. split.
  - intros Hno vl slot expiry Hvl Hslot.
    destruct (decide (expiry <= currentSlot st + 2)); [done|].
    exfalso. apply Hno. exists vl, slot, expiry. repeat split; [done..|lia].
  - intros Hall (vl & slot & expiry & Hvl & Hslot & Hfresh).
    specialize (Hall vl slot expiry Hvl Hslot). lia.
Qed.


(** C10. [addVote] returns false exactly when the validator of the vote is
    unknown or inactive or [canVote] denies it, and then the state it leaves
    is the state it was given. *)
Theorem addVote_rejected_unchanged st vote :
  ((addVote st vote).2 = false <->
   validators st !! Vote.validator vote = None \/
   (exists validator, validators st !! Vote.validator vote = Some validator /\
                      ValidatorInfo.isActive validator = false) \/
   canVote st (Vote.validator vote) (Vote.blockHash vote) = false) /\
  ((addVote st vote).2 = false -> (addVote st vote).1 = st).
Proof.
  split; [|apply addVote_rejected].
  rewrite addVote_result. apply validateVoteSync_false.
Qed.

(** *** The engine on concrete inputs *)

Lemma addVote_validators st vote : validators (addVote st vote).1 = validators st.
Proof.
  unfold addVote. destruct (validateVoteSync st vote); cbn [negb fst]; [|done].
  unfold updateLockout. by destruct (lockouts _ !! _), (votes st !! _).
Qed.

Lemma addValidator_validators st validator :
  validators (addValidator st validator)
  = <[ValidatorInfo.publicKey validator := validator]> (validators st).
Proof.
  unfold addValidator. cbn [set_validators lockouts].
  by destruct (lockouts st !! ValidatorInfo.publicKey validator).
Qed.

Lemma invariant_foldl_addValidator l st :
  invariant st -> invariant (foldl addValidator st l).
Proof.
  revert st. induction l as [|v l IH]; intros st Hst; [done|].
  cbn [foldl]. by apply IH, invariant_addValidator.
Qed.

(** The validators of the repository's leader-schedule test. *)
Definition validator1 := ValidatorInfo.mk (js "validator1") 100 (js "127.0.0.1") 8001 true.
Definition validator2 := ValidatorInfo.mk (js "validator2") 200 (js "127.0.0.1") 8002 true.
Definition validator3 := ValidatorInfo.mk (js "validator3") 150 (js "127.0.0.1") 8003 true.
Definition validator4 := ValidatorInfo.mk (js "validator4") 300 (js "127.0.0.1") 8004 true.

Definition four_validators : t :=
  addValidator (addValidator (addValidator (addValidator new validator1) validator2)
    validator3) validator4.

(** Seventeen active validators of equal stake. *)
Definition numbered_validator (i : nat) : ValidatorInfo.t :=
  ValidatorInfo.mk (js "validator" ++ Number_toString (Z.of_nat i)) 100
    (js "127.0.0.1") (8000 + Z.of_nat i) true.

Definition seventeen_validators : t :=
  foldl addValidator new (numbered_validator <$> seq 1 17).

(** Two validators, 100 and 200 of stake, and the vote of the second. *)
Definition vote_by (validator blockHash : string) (timestamp lockout : Z) : Vote.t :=
  Vote.mk (js validator) (js blockHash) timestamp (js "") lockout.

Definition two_thirds_voted : t :=
  (addVote (addValidator (addValidator new validator1) validator2)
     (vote_by "validator2" "block-a" 1 1)).1.

(** The four validators after [validator1] voted for block a and
    [validator2] for block b. *)
Definition split_vote : t :=
  (addVote (addVote four_validators (vote_by "validator1" "block-a" 1 1)).1
     (vote_by "validator2" "block-b" 2 1)).1.


Example four_validators_total : getTotalStake four_validators = 750.
Proof. vm_compute. reflexivity. Qed.

Example split_vote_weights :
  calculateStakeWeight split_vote (js "block-a") = 100 /\
  calculateStakeWeight split_vote (js "block-b") = 200.
Proof. vm_compute. split; reflexivity. Qed.

Example test_epoch1_schedule :
  exists st' schedule,
    updateSlot Sample.digest Sample.compare four_validators 64 = Some st' /\
    LeaderSchedule.schedule <$> leaderSchedules st' !! 1 = Some schedule /\
    length schedule = 64%nat /\
    Forall (fun v => length (List.filter (streq (ValidatorInfo.publicKey v)) schedule) = 16%nat)
      [validator1; validator2; validator3; validator4].
Proof.
  eexists _, _. split; [vm_compute; reflexivity|].
  split; [vm_compute; reflexivity|]. split; [reflexivity|].
  repeat constructor.
Qed.

(** A slot three epochs ahead: the engine enters epoch 1, the successor of
    the stored epoch, and stores the schedule under 1. *)
Example updateSlot_far_ahead :
  exists st',
    updateSlot Sample.digest Sample.compare four_validators 200 = Some st' /\
    getEpochFromSlot 200 = 3 /\ currentSlot st' = 200 /\ currentEpoch st' = 1 /\
    dom (leaderSchedules st') = {[0; 1]}.
Proof.
  eexists. split; [vm_compute; reflexivity|].
  repeat split; vm_compute; reflexivity.
Qed.

Lemma generateLeaderSchedule_length_and_coverage_witness :
  exists schedule,
    generateLeaderSchedule Sample.digest Sample.compare four_validators 1 (js "seed")
      = Some schedule /\
    Z.of_nat (length schedule) = EPOCH_CONSTANTS.SLOTS_PER_EPOCH /\
    (0 < 1 -> (length (getActiveValidators four_validators) <= 16)%nat ->
     forall validator, validator ∈ getActiveValidators four_validators ->
                       ValidatorInfo.publicKey validator ∈ schedule).
Proof.
  apply (generateLeaderSchedule_length_and_coverage Sample.digest Sample.compare
           four_validators 1 (js "seed")).
  vm_compute. discriminate.
Defined.

(** C1: seventeen active validators fit the 64 slots of an epoch, yet
    whatever the digest, the order and the seed, the schedule of epoch 1
    leaves one of them out. *)
Lemma leader_schedule_leaves_validator_out :
  length (getActiveValidators seventeen_validators) = 17%nat /\
  Z.of_nat (length (getActiveValidators seventeen_validators))
    <= EPOCH_CONSTANTS.SLOTS_PER_EPOCH /\
  forall sha256 localeCompare seed,
    exists validator schedule,
      validator ∈ getActiveValidators seventeen_validators /\
      generateLeaderSchedule sha256 localeCompare seventeen_validators 1 seed
        = Some schedule /\
      ValidatorInfo.publicKey validator ∉ schedule.
Proof.
  assert (length (getActiveValidators seventeen_validators) = 17%nat) as Hlen
    by (vm_compute; reflexivity).
  split; [done|]. split; [rewrite Hlen; vm_compute; discriminate|].
  intros sha256 localeCompare seed.
  apply generateLeaderSchedule_leaves_out; [lia|rewrite Hlen; lia|].
  apply invariant_active_keys, invariant_foldl_addValidator, invariant_new.
Qed.

Lemma two_thirds_voted_stakes publicKey validator :
  validators two_thirds_voted !! publicKey = Some validator ->
  ValidatorInfo.isActive validator = true -> 0 <= ValidatorInfo.stake validator.
Proof.
  unfold two_thirds_voted.
  rewrite !addVote_validators, !addValidator_validators. intros Hv _.
  repeat (apply lookup_insert_Some in Hv as [[_ <-]|[_ Hv]]; [vm_compute; discriminate|]).
  change (validators new) with (∅ : gmap jsstring ValidatorInfo.t) in Hv.
  by rewrite lookup_empty in Hv.
Qed.

Lemma hasSupermajority_two_thirds_witness :
  (hasSupermajority two_thirds_voted (js "block-a") = true <->
   (inject_Z (totalActiveStake two_thirds_voted) * (2 # 3)
    < inject_Z (votedActiveStake two_thirds_voted (js "block-a")))%Q) /\
  ((inject_Z (votedActiveStake two_thirds_voted (js "block-a"))
    == inject_Z (totalActiveStake two_thirds_voted) * (2 # 3))%Q ->
   hasSupermajority two_thirds_voted (js "block-a") = false).
Proof.
  apply (hasSupermajority_two_thirds Sample.digest Sample.compare
           two_thirds_voted (js "block-a")).
  - unfold two_thirds_voted.
    apply reachable_addVote, reachable_addValidator, reachable_addValidator,
      reachable_new.
  - apply two_thirds_voted_stakes.
  - vm_compute. reflexivity.
Defined.

(** C2: two validators with stakes 4503599627370497 and 2251799813685248,
    safe integers both; the first has voted. Its stake is more than two
    thirds of the total, 6755399441055745, and [hasSupermajority] is false:
    the quotient of 13510798882111490 by 3 is rounded up to the voter's
    stake. *)
Definition heavy_voted : t :=
  (addVote
     (addValidator
        (addValidator new
           (ValidatorInfo.mk (js "validator1") 4503599627370497 (js "127.0.0.1") 8001 true))
        (ValidatorInfo.mk (js "validator2") 2251799813685248 (js "127.0.0.1") 8002 true))
     (vote_by "validator1" "block-a" 1 1)).1.

Lemma hasSupermajority_misses_large_stake :
  reachable Sample.digest Sample.compare heavy_voted /\
  totalActiveStake heavy_voted = 6755399441055745 /\
  votedActiveStake heavy_voted (js "block-a") = 4503599627370497 /\
  (inject_Z (totalActiveStake heavy_voted) * (2 # 3)
   < inject_Z (votedActiveStake heavy_voted (js "block-a")))%Q /\
  hasSupermajority heavy_voted (js "block-a") = false.
Proof.
  split.
  { unfold heavy_voted.
    apply reachable_addVote, reachable_addValidator, reachable_addValidator,
      reachable_new. }
  repeat split; vm_compute; reflexivity.
Qed.




Lemma addVote_rejected_unchanged_witness :
  (addVote four_validators (vote_by "stranger" "block-a" 1 1)).1 = four_validators.
Proof.
  apply (addVote_rejected_unchanged four_validators (vote_by "stranger" "block-a" 1 1)).
  vm_compute. reflexivity.
Defined.

(** *** The remaining operations of the engine *)

(** [arr[i]] for an integer index: [undefined] ([None]) out of range. *)
Definition index {A} (l : list A) (i : Z) : option A :=
  if i <? 0 then None else l !! Z.to_nat i.

Definition isValidator (st : t) (publicKey : jsstring) : bool :=
  match validators st !! publicKey with
  | Some validator => ValidatorInfo.isActive validator
  | None => false
  end.

Definition getLeaderSchedule (st : t) (epoch : option Z) : option LeaderSchedule.t :=
  let targetEpoch := default (currentEpoch st) epoch in
  leaderSchedules st !! targetEpoch.

(** The outcome of [createVote]: a vote, or the message of the error thrown. *)
Inductive created :=
| Created (vote : Vote.t)
| Thrown (message : jsstring).

(** The data of a vote that is signed: all fields but the signature. *)
Record VoteData := mkVoteData {
  vd_validator : jsstring;
  vd_blockHash : jsstring;
  vd_timestamp : Z;
  vd_lockout : Z
}.

Section Engine.
Variable sha256 : list byte -> list byte.
Variable localeCompare : jsstring -> jsstring -> Z.
Variable JSON_stringify : VoteData -> jsstring.

Local Abbreviation sortedActive st :=
  (sort (fun a b => localeCompare (ValidatorInfo.publicKey a) (ValidatorInfo.publicKey b))
     (getActiveValidators st)).

(** [getLeaderForSlot(slot)]: the inner [None] is [null] (or [undefined]),
    the outer one a [TypeError]. *)
Definition getLeaderForSlot (st : t) (slot : Z) : option (option jsstring) :=
  let epoch := getEpochFromSlot slot in
  let slotInEpoch := getSlotInEpoch slot in
  if epoch =? 0 then
    let activeValidators := getActiveValidators st in
    if (length activeValidators =? 0)%nat then Some None
    else
      let sortedValidators := sortedActive st in
      let rotationSlot :=
        slot `div` EPOCH_CONSTANTS.GENESIS_EPOCH_LEADER_ROTATION_SLOTS in
      validatorIndex ← JS.rem rotationSlot (Z.of_nat (length sortedValidators));
      validator ← index sortedValidators validatorIndex;
      Some (Some (ValidatorInfo.publicKey validator))
  else
    match leaderSchedules st !! epoch with
    | None => Some None
    | Some schedule =>
      if Z.of_nat (length (LeaderSchedule.schedule schedule)) <=? slotInEpoch
      then Some None
      else Some (index (LeaderSchedule.schedule schedule) slotInEpoch)
    end.

Definition getCurrentLeader (st : t) : option (option jsstring) :=
  getLeaderForSlot st (currentSlot st).

(** [createVote(blockHash, validatorPublicKey, privateKey)] at wall-clock
    time [now]. *)
Definition createVote (st : t) (blockHash validatorPublicKey privateKey : jsstring)
  (now : Z) : created :=
  match validators st !! validatorPublicKey with
  | None => Thrown (js "Validator not found")
  | Some validator =>
    if negb (canVote st validatorPublicKey blockHash)
    then Thrown (js "Cannot vote due to lockout constraints")
    else
      let voteData :=
        mkVoteData validatorPublicKey blockHash now (calculateLockout st validatorPublicKey) in
      let keyPair := Crypto.fromPrivateKey sha256 privateKey in
      let signature := Crypto.signMessage sha256 (JSON_stringify voteData) keyPair in
      Created (Vote.mk validatorPublicKey blockHash now signature
                 (calculateLockout st validatorPublicKey))
  end.

Definition validateVote (st : t) (vote : Vote.t) : bool :=
  match validators st !! Vote.validator vote with
  | None => false
  | Some validator =>
    if negb (ValidatorInfo.isActive validator) then false
    else
      let voteData :=
        mkVoteData (Vote.validator vote) (Vote.blockHash vote) (Vote.timestamp vote)
          (Vote.lockout vote) in
      let isValidSignature :=
        Crypto.verifySignature sha256 (JSON_stringify voteData) (Vote.signature vote)
          (Vote.validator vote) in
      if negb isValidSignature then false
      else canVote st (Vote.validator vote) (Vote.blockHash vote)
  end.

(** **** The slots of a schedule *)

Lemma lookup_concat_replicate {A B} (h : A -> B) (n : nat) (l : list A) (i k : nat) :
  (k < n)%nat ->
  concat ((fun r => replicate n (h r)) <$> l) !! (n * i + k)%nat = h <$> l !! i.
Proof.
  intros Hk. revert i. induction l as [|x l IH]; intros i.
  { cbn. by rewrite !lookup_nil. }
  rewrite fmap_cons. cbn [concat]. destruct i as [|i].
  - rewrite lookup_app_l by (rewrite length_replicate; lia).
    cbn. apply lookup_replicate_2. lia.
  - rewrite lookup_app_r by (rewrite length_replicate; lia).
    rewrite length_replicate.
    replace (n * S i + k - n)%nat with (n * i + k)%nat by lia. by rewrite IH.
Qed.

(** Slot [s] of the equal-distribution schedule belongs to the shuffled
    validator of index [(s / 4) mod n]. *)
Lemma generateEqualDistributionSchedule_slots validators seed :
  validators <> [] ->
  exists schedule,
    generateEqualDistributionSchedule sha256 validators seed = Some schedule /\
    length schedule = 64%nat /\
    forall slot : nat, (slot < 64)%nat ->
      exists validator,
        shuffleValidators sha256 validators seed !! ((slot / 4) `mod` length validators)%nat
          = Some validator /\
        schedule !! slot = Some (ValidatorInfo.publicKey validator).
Proof.
  intros Hne. unfold generateEqualDistributionSchedule.
  pose proof (shuffleValidators_Permutation sha256 validators seed) as Hperm.
  set (shuffled := shuffleValidators sha256 validators seed) in *.
  assert (Hlen : length shuffled = length validators) by by apply Permutation_length.
  assert (exists v0 : ValidatorInfo.t, True) as [v0 _].
  { destruct validators as [|v ?]; [done|by exists v]. }
  assert (Hpos : (0 < length validators)%nat).
  { destruct validators; [done|simpl; lia]. }
  cbn zeta.
  change (Z.to_nat (EPOCH_CONSTANTS.SLOTS_PER_EPOCH `div` 4)) with 16%nat.
  change (Z.to_nat 4) with 4%nat.
  set (pick := fun r : nat =>
    ValidatorInfo.publicKey (nth (r `mod` length shuffled) shuffled v0)).
  assert (Hpick : forall r : nat,
    shuffled !! (r `mod` length shuffled)%nat
    = Some (nth (r `mod` length shuffled) shuffled v0)).
  { intros r. destruct (nth_lookup_or_length shuffled (r `mod` length shuffled) v0)
      as [?|Hge]; [done|].
    pose proof (Nat.mod_upper_bound r (length shuffled)). lia. }
  rewrite (mapM_total _ (fun r => replicate 4 (pick r))); cycle 1.
  { intros r _. by rewrite Hpick. }
  cbn [mbind option_bind].
  rewrite length_concat_replicate, length_seq.
  change (Z.to_nat (EPOCH_CONSTANTS.SLOTS_PER_EPOCH - Z.of_nat (4 * 16))) with 0%nat.
  change (seq 0 0) with (@nil nat). cbn [mapM mret option_ret mbind option_bind].
  rewrite app_nil_r. eexists. split; [reflexivity|].
  split; [by rewrite length_concat_replicate, length_seq|].
  intros slot Hslot. exists (nth ((slot / 4) `mod` length shuffled) shuffled v0).
  rewrite <- Hlen. split; [apply Hpick|].
  pose proof (Nat.div_mod_eq slot 4) as Hdm.
  pose proof (Nat.mod_upper_bound slot 4).
  rewrite Hdm at 1. rewrite lookup_concat_replicate by lia.
  rewrite lookup_seq_lt by lia. reflexivity.
Qed.

Lemma generateLeaderSchedule_slots st epoch seed schedule :
  0 < epoch -> getActiveValidators st <> [] ->
  generateLeaderSchedule sha256 localeCompare st epoch seed = Some schedule ->
  length schedule = 64%nat /\
  forall slot : nat, (slot < 64)%nat ->
    exists validator,
      shuffleValidators sha256 (sortedActive st) seed
        !! ((slot / 4) `mod` length (getActiveValidators st))%nat = Some validator /\
      schedule !! slot = Some (ValidatorInfo.publicKey validator).
Proof.
  intros Hepoch Hne Hgen. unfold generateLeaderSchedule in Hgen.
  pose proof (sorted_active_Permutation localeCompare st) as Hperm.
  destruct (length (getActiveValidators st) =? 0)%nat eqn:Hlen.
  { apply Nat.eqb_eq, nil_length_inv in Hlen. done. }
  rewrite (proj2 (Z.ltb_lt 0 epoch) Hepoch) in Hgen.
  assert (sortedActive st <> []) as Hsorted.
  { intros Hnil. rewrite Hnil in Hperm. by apply Permutation_nil_l in Hperm. }
  destruct (generateEqualDistributionSchedule_slots (sortedActive st) seed Hsorted)
    as (schedule' & Hs & Hl & Hslots).
  rewrite Hgen in Hs. injection Hs as <-. split; [done|].
  by rewrite <- (Permutation_length Hperm).
Qed.

(** X17. After the genesis epoch the schedule is made of 16 runs of 4
    slots: the four slots of a run have the same leader. *)
Theorem schedule_runs_of_four st epoch seed schedule (rotation offset : nat) :
  0 < epoch -> getActiveValidators st <> [] ->
  generateLeaderSchedule sha256 localeCompare st epoch seed = Some schedule ->
  (rotation < 16)%nat -> (offset < 4)%nat ->
  is_Some (schedule !! (4 * rotation)%nat) /\
  schedule !! (4 * rotation + offset)%nat = schedule !! (4 * rotation)%nat.
Proof.
  intros Hepoch Hne Hgen Hr Hk.
  destruct (generateLeaderSchedule_slots st epoch seed schedule Hepoch Hne Hgen)
    as [_ Hslots].
  destruct (Hslots (4 * rotation)%nat) as (v & Hv & Hs); [lia|].
  destruct (Hslots (4 * rotation + offset)%nat) as (v' & Hv' & Hs'); [lia|].
  replace ((4 * rotation + offset) / 4)%nat with rotation in Hv'
    by (apply Nat.div_unique with offset; lia).
  replace ((4 * rotation) / 4)%nat with rotation in Hv
    by (apply Nat.div_unique with 0%nat; lia).
  rewrite Hv in Hv'. injection Hv' as <-.
  split; [by rewrite Hs|]. by rewrite Hs, Hs'.
Qed.

(** X18. After the genesis epoch the schedule is a round robin: it repeats
    with period 4 * n, where n is the number of active validators. *)
Theorem schedule_round_robin st epoch seed schedule (slot : nat) :
  0 < epoch -> getActiveValidators st <> [] ->
  generateLeaderSchedule sha256 localeCompare st epoch seed = Some schedule ->
  (slot + 4 * length (getActiveValidators st) < 64)%nat ->
  is_Some (schedule !! slot) /\
  schedule !! (slot + 4 * length (getActiveValidators st))%nat = schedule !! slot.
Proof.
  intros Hepoch Hne Hgen Hslot.
  destruct (generateLeaderSchedule_slots st epoch seed schedule Hepoch Hne Hgen)
    as [_ Hslots].
  set (n := length (getActiveValidators st)) in *.
  destruct (Hslots slot) as (v & Hv & Hs); [lia|].
  destruct (Hslots (slot + 4 * n)%nat) as (v' & Hv' & Hs'); [lia|].
  replace (slot + 4 * n)%nat with (slot + n * 4)%nat in Hv' by lia.
  rewrite Nat.div_add in Hv' by done.
  replace (slot / 4 + n)%nat with (slot / 4 + 1 * n)%nat in Hv' by lia.
  rewrite Nat.Div0.mod_add in Hv'.
  rewrite Hv in Hv'. injection Hv' as <-.
  split; [by rewrite Hs|]. by rewrite Hs, Hs'.
Qed.

(** X19. Whatever the seed and the digest, shuffling keeps every validator,
    each as often as before. *)
Theorem shuffleValidators_keeps_validators validators seed :
  shuffleValidators sha256 validators seed ≡ₚ validators.
Proof. apply shuffleValidators_Permutation. Qed.

Lemma selectLeader_loop_elem seedValue cumulativeStake validators validator :
  selectLeader_loop seedValue cumulativeStake validators = Some validator ->
  validator ∈ validators.
Proof.
  revert cumulativeStake.
  induction validators as [|v l IH]; intros c; cbn [selectLeader_loop]; [done|].
  destruct (nan_ltb _ _).
  - intros [= ->]. left.
  - intros H. right. by eapply IH.
Qed.

Lemma selectLeaderByStake_elem validators seed validator :
  selectLeaderByStake validators seed = Some validator -> validator ∈ validators.
Proof.
  unfold selectLeaderByStake.
  destruct (selectLeader_loop _ _ _) eqn:Hl.
  - intros [= <-]. by eapply selectLeader_loop_elem.
  - intros H. by eapply list_elem_of_lookup_2.
Qed.

Lemma generateLeaderSchedule_elem st epoch seed schedule publicKey :
  generateLeaderSchedule sha256 localeCompare st epoch seed = Some schedule ->
  publicKey ∈ schedule ->
  exists validator,
    validator ∈ getActiveValidators st /\ ValidatorInfo.publicKey validator = publicKey.
Proof.
  intros Hgen Hin. unfold generateLeaderSchedule in Hgen.
  pose proof (sorted_active_Permutation localeCompare st) as Hperm.
  set (sorted := sort _ _) in *.
  destruct (length (getActiveValidators st) =? 0)%nat eqn:Hlen.
  { injection Hgen as <-. by apply elem_of_nil in Hin. }
  assert (getActiveValidators st <> []) as Hne.
  { intros Hnil. by rewrite Hnil in Hlen. }
  assert (sorted <> []) as Hsorted.
  { intros Hnil. rewrite Hnil in Hperm. by apply Permutation_nil_l in Hperm. }
  destruct (0 <? epoch).
  - destruct (generateEqualDistributionSchedule_spec sha256 sorted seed Hsorted)
      as (schedule' & Hs & _ & Hmem).
    rewrite Hgen in Hs. injection Hs as <-.
    apply Hmem in Hin as (r & v & _ & Hv & Hpk).
    exists v. split; [|done].
    rewrite <- Hperm, <- (shuffleValidators_Permutation sha256 sorted seed).
    by eapply list_elem_of_lookup_2.
  - apply mapM_Some_1 in Hgen. apply list_elem_of_lookup_1 in Hin as [i Hi].
    destruct (Forall2_lookup_r _ _ _ _ _ Hgen Hi) as (slot & _ & Hslot).
    cbn zeta in Hslot.
    destruct (selectLeaderByStake sorted _) as [v|] eqn:Hsel; [|done].
    cbn in Hslot. injection Hslot as <-.
    exists v. split; [|done]. rewrite <- Hperm. by eapply selectLeaderByStake_elem.
Qed.

Lemma active_isValidator st validator :
  invariant st -> validator ∈ getActiveValidators st ->
  validators st !! ValidatorInfo.publicKey validator = Some validator /\
  ValidatorInfo.isActive validator = true.
Proof.
  intros [_ _ Hk] Hin. unfold getActiveValidators in Hin.
  apply list_elem_of_In, filter_In in Hin as [Hin Hact].
  apply list_elem_of_In, list_elem_of_fmap in Hin as ([k v] & -> & Hin).
  apply elem_of_map_to_list in Hin. cbn [snd] in *.
  by rewrite (Hk _ _ Hin).
Qed.

(** X20. For every epoch and seed, a generated schedule names nobody but
    active validators: every slot holds the public key of a validator in
    [getActiveValidators()], which in a reachable state is a key that
    [isValidator] accepts. *)
Theorem generateLeaderSchedule_only_active st epoch seed schedule (slot : nat) publicKey :
  generateLeaderSchedule sha256 localeCompare st epoch seed = Some schedule ->
  schedule !! slot = Some publicKey ->
  (exists validator,
     validator ∈ getActiveValidators st /\ ValidatorInfo.publicKey validator = publicKey) /\
  (reachable sha256 localeCompare st -> isValidator st publicKey = true).
Proof.
  intros Hgen Hslot.
  destruct (generateLeaderSchedule_elem st epoch seed schedule publicKey Hgen)
    as (validator & Hin & <-); [by eapply list_elem_of_lookup_2|].
  split; [by exists validator|].
  intros Hreach. apply (reachable_invariant sha256 localeCompare) in Hreach.
  destruct (active_isValidator st validator Hreach Hin) as [Hv Hact].
  unfold isValidator. by rewrite Hv.
Qed.

(** **** Lockouts *)

(** The number of lockout entries of a validator that have not expired. *)
Definition unexpired (st : t) (validatorPublicKey : jsstring) : nat :=
  size (filter (fun entry : Z * Z => currentSlot st < entry.2)
          (default ∅ (lockouts st !! validatorPublicKey))).

Lemma length_filter_values (currentSlot : Z) (l : list (Z * Z)) :
  length (List.filter (fun expiry => currentSlot <? expiry) l.*2)
  = length (filter (fun entry : Z * Z => currentSlot < entry.2) l).
Proof.
  induction l as [|[slot expiry] l IH]; [done|].
  rewrite fmap_cons, filter_cons. cbn [List.filter snd].
  destruct (decide (currentSlot < expiry)) as [Hlt|Hge].
  - rewrite (proj2 (Z.ltb_lt _ _) Hlt). cbn [length]. by rewrite IH.
  - rewrite (proj2 (Z.ltb_ge _ _)) by lia. done.
Qed.

Lemma size_filter_length (currentSlot : Z) (m : gmap Z Z) :
  size (filter (fun entry : Z * Z => currentSlot < entry.2) m)
  = length (filter (fun entry : Z * Z => currentSlot < entry.2) (map_to_list m)).
Proof.
  rewrite map_filter_alt. apply map_size_list_to_map.
  eapply sublist_NoDup; [apply (NoDup_fst_map_to_list m)|].
  apply fmap_sublist, sublist_filter.
Qed.

(** X21. The lockout of a validator's next vote is one more than the number
    of its unexpired lockout entries, capped at 4; so it is always between 1
    and 4. *)
Theorem calculateLockout_counts_unexpired st validatorPublicKey :
  calculateLockout st validatorPublicKey
    = Z.min (Z.of_nat (unexpired st validatorPublicKey) + 1) 4 /\
  1 <= calculateLockout st validatorPublicKey <= 4.
Proof.
  assert (calculateLockout st validatorPublicKey
          = Z.min (Z.of_nat (unexpired st validatorPublicKey) + 1) 4) as ->; [|lia].
  unfold calculateLockout, unexpired.
  destruct (lockouts st !! validatorPublicKey) as [vl|];
    cbn [default from_option id]; cycle 1.
  { by rewrite map_filter_empty, map_size_empty. }
  destruct (size vl =? 0)%nat eqn:Hsize.
  { apply Nat.eqb_eq, map_size_empty_iff in Hsize. subst vl.
    by rewrite map_filter_empty, map_size_empty. }
  rewrite length_filter_values, <- size_filter_length.
  destruct (size (filter _ vl) =? 0)%nat eqn:Hrecent; [|done].
  apply Nat.eqb_eq in Hrecent. by rewrite Hrecent.
Qed.






(** **** Stake *)


(** **** Who leads a slot *)

(** X25. In the genesis epoch (slots 0 to 63) with at least one active
    validator, [getLeaderForSlot] returns a key without failing, whatever
    schedules are stored: the key of the active validator at index
    [(slot / 4) mod n] of the [n] active validators sorted by key. *)
Theorem genesis_leader_rotation st slot :
  0 <= slot < 64 -> getActiveValidators st <> [] ->
  exists validator,
    sortedActive st !! (Z.to_nat (slot `div` 4) `mod` length (getActiveValidators st))%nat
      = Some validator /\
    validator ∈ getActiveValidators st /\
    getLeaderForSlot st slot = Some (Some (ValidatorInfo.publicKey validator)).
Proof.
  intros Hslot Hne.
  pose proof (sorted_active_Permutation localeCompare st) as Hperm.
  pose proof (Permutation_length Hperm) as Hlen.
  set (sorted := sortedActive st) in *.
  set (n := length (getActiveValidators st)) in *.
  assert (0 < n)%nat as Hn.
  { unfold n. destruct (getActiveValidators st); [done|simpl; lia]. }
  assert (is_Some (sorted !! (Z.to_nat (slot `div` 4) `mod` n)%nat)) as [validator Hv].
  { apply lookup_lt_is_Some. rewrite Hlen. apply Nat.mod_upper_bound. lia. }
  exists validator. split; [done|]. split.
  { rewrite <- Hperm. by eapply list_elem_of_lookup_2. }
  unfold getLeaderForSlot, getEpochFromSlot.
  change EPOCH_CONSTANTS.SLOTS_PER_EPOCH with 64.
  change EPOCH_CONSTANTS.GENESIS_EPOCH_LEADER_ROTATION_SLOTS with 4.
  rewrite Z.div_small by lia. cbn [Z.eqb]. cbn zeta.
  fold n. rewrite (proj2 (Nat.eqb_neq n 0)) by lia.
  fold sorted. rewrite Hlen.
  assert (0 <= slot `div` 4) as Hq by (apply Z.div_pos; lia).
  unfold JS.rem. rewrite (proj2 (Z.eqb_neq (Z.of_nat n) 0)) by lia.
  cbn [mbind option_bind].
  rewrite Z.rem_mod_nonneg by lia.
  pose proof (Z.mod_pos_bound (slot `div` 4) (Z.of_nat n) ltac:(lia)) as Hm.
  unfold index. rewrite (proj2 (Z.ltb_ge _ 0)) by lia.
  rewrite Z2Nat.inj_mod by lia. rewrite Nat2Z.id, Hv. reflexivity.
Qed.

(** The fields [cleanupExpiredLockouts] leaves alone. *)
Lemma cleanupExpiredLockouts_fields st :
  validators (cleanupExpiredLockouts st) = validators st /\
  consensusState (cleanupExpiredLockouts st) = consensusState st /\
  leaderSchedules (cleanupExpiredLockouts st) = leaderSchedules st /\
  epochBlocks (cleanupExpiredLockouts st) = epochBlocks st.
Proof. done. Qed.

Lemma slot_of_later_epoch slot :
  0 < getEpochFromSlot slot -> 0 <= getSlotInEpoch slot < 64.
Proof.
  unfold getEpochFromSlot, getSlotInEpoch.
  change EPOCH_CONSTANTS.SLOTS_PER_EPOCH with 64. intros Hepoch.
  pose proof (Z.div_mod slot 64 ltac:(done)) as Hdm.
  pose proof (Z.mod_pos_bound slot 64 ltac:(done)) as Hm.
  rewrite Z.rem_mod_nonneg by lia. done.
Qed.

(** X26. When the slot moves into the epoch that follows the stored one and
    there is an active validator, the current leader is defined right after
    [updateSlot], and is an active validator. *)
Theorem leader_after_epoch_transition st slot st' :
  0 <= currentEpoch st ->
  getEpochFromSlot slot = currentEpoch st + 1 ->
  getActiveValidators st <> [] ->
  updateSlot sha256 localeCompare st slot = Some st' ->
  exists validator,
    validator ∈ getActiveValidators st' /\
    getCurrentLeader st' = Some (Some (ValidatorInfo.publicKey validator)).
Proof.
  intros Hepoch Hnext Hne Hup.
  destruct (updateSlot_spec sha256 localeCompare st slot) as (st1 & Heq & Hst1).
  rewrite Heq in Hup. injection Hup as <-.
  rewrite (proj2 (Z.ltb_lt (currentEpoch st) (getEpochFromSlot slot))) in Hst1 by lia.
  destruct Hst1 as (schedule & Hgen & ->).
  destruct (generateLeaderSchedule_length sha256 localeCompare st (currentEpoch st + 1)
              (calculateEpochFinalHash sha256 st (currentEpoch st)) Hne)
    as (schedule' & Hgen' & Hlen).
  rewrite Hgen in Hgen'. injection Hgen' as <-.
  change (Z.to_nat EPOCH_CONSTANTS.SLOTS_PER_EPOCH) with 64%nat in Hlen.
  pose proof (slot_of_later_epoch slot ltac:(lia)) as Hin.
  assert (is_Some (schedule !! Z.to_nat (getSlotInEpoch slot))) as [publicKey Hkey].
  { apply lookup_lt_is_Some. lia. }
  destruct (generateLeaderSchedule_elem st _ _ schedule publicKey Hgen)
    as (validator & Hact & <-); [by eapply list_elem_of_lookup_2|].
  exists validator. split; [done|].
  unfold getCurrentLeader, getLeaderForSlot.
  change (currentSlot (cleanupExpiredLockouts _)) with slot.
  rewrite Hnext. rewrite (proj2 (Z.eqb_neq (currentEpoch st + 1) 0)) by lia.
  cbn [cleanupExpiredLockouts set_lockouts leaderSchedules transitioned].
  change (currentEpoch (set_consensusState st _)) with (currentEpoch st).
  rewrite lookup_insert_eq. cbn [LeaderSchedule.schedule].
  rewrite Hlen. rewrite (proj2 (Z.leb_gt _ _)) by lia.
  unfold index. rewrite (proj2 (Z.ltb_ge _ 0)) by lia. by rewrite Hkey.
Qed.

(** In a reachable state the stored epoch is not negative and no schedule is
    stored for a later epoch. *)
Lemma addVote_epochs st vote :
  consensusState (addVote st vote).1 = consensusState st /\
  leaderSchedules (addVote st vote).1 = leaderSchedules st /\
  epochBlocks (addVote st vote).1 = epochBlocks st.
Proof.
  unfold addVote. destruct (validateVoteSync st vote); cbn [negb fst]; [|done].
  unfold updateLockout. by destruct (lockouts _ !! _), (votes st !! _).
Qed.

Definition epochs_ok (st : t) : Prop :=
  0 <= currentEpoch st /\
  forall epoch, is_Some (leaderSchedules st !! epoch) -> 0 <= epoch <= currentEpoch st.

Lemma reachable_epochs st : reachable sha256 localeCompare st -> epochs_ok st.
Proof.
  induction 1 as [|st v _ IH|st k _ IH|st vote _ IH|st slot st' _ IH Hup|st b _ IH].
  - split; [done|]. intros epoch. cbn. intros [x Hx].
    apply lookup_insert_Some in Hx as [[<- _]|[_ Hx]]; [done|].
    by rewrite lookup_empty in Hx.
  - unfold addValidator. cbn [set_validators lockouts].
    by destruct (lockouts st !! ValidatorInfo.publicKey v).
  - done.
  - destruct (addVote_epochs st vote) as (Hcs & Hls & _).
    unfold epochs_ok, currentEpoch. by rewrite Hcs, Hls.
  - destruct (updateSlot_spec sha256 localeCompare st slot) as (st1 & Heq & Hst1).
    rewrite Heq in Hup. injection Hup as <-. destruct IH as [IH1 IH2].
    destruct (currentEpoch st <? getEpochFromSlot slot).
    + destruct Hst1 as (schedule & _ & ->). split.
      * change (0 <= currentEpoch st + 1). lia.
      * intros epoch. change (is_Some (<[currentEpoch st + 1 := LeaderSchedule.mk
          (currentEpoch st + 1) schedule
          (calculateEpochFinalHash sha256 st (currentEpoch st))]> (leaderSchedules st)
          !! epoch) -> 0 <= epoch <= currentEpoch st + 1).
        intros [x Hx]. apply lookup_insert_Some in Hx as [[<- _]|[_ Hx]]; [lia|].
        specialize (IH2 epoch ltac:(by eexists)). lia.
    + by subst st1.
  - unfold addBlock.
    by destruct (epochBlocks st !! getEpochFromSlot (Block.slot b)).
Qed.

(** X27. In a reachable state, when the slot jumps over a whole epoch (to
    an epoch beyond the one that follows the stored epoch), [updateSlot]
    advances the stored epoch by one only, and nobody leads the new current
    slot: [getCurrentLeader] is [null]. *)
Theorem no_leader_after_epoch_jump st slot st' :
  reachable sha256 localeCompare st ->
  currentEpoch st + 1 < getEpochFromSlot slot ->
  updateSlot sha256 localeCompare st slot = Some st' ->
  currentEpoch st' = currentEpoch st + 1 /\ getCurrentLeader st' = Some None.
Proof.
  intros Hreach Hjump Hup. apply reachable_epochs in Hreach as [Hepoch Hstored].
  destruct (updateSlot_spec sha256 localeCompare st slot) as (st1 & Heq & Hst1).
  rewrite Heq in Hup. injection Hup as <-.
  rewrite (proj2 (Z.ltb_lt (currentEpoch st) (getEpochFromSlot slot))) in Hst1 by lia.
  destruct Hst1 as (schedule & Hgen & ->). split; [done|].
  unfold getCurrentLeader, getLeaderForSlot.
  change (currentSlot (cleanupExpiredLockouts _)) with slot.
  rewrite (proj2 (Z.eqb_neq (getEpochFromSlot slot) 0)) by lia.
  cbn [cleanupExpiredLockouts set_lockouts leaderSchedules transitioned].
  change (currentEpoch (set_consensusState st _)) with (currentEpoch st).
  rewrite lookup_insert_ne by lia.
  change (leaderSchedules (set_consensusState st _)) with (leaderSchedules st).
  destruct (leaderSchedules st !! getEpochFromSlot slot) as [x|] eqn:Hx; [|done].
  specialize (Hstored (getEpochFromSlot slot) ltac:(by eexists)). lia.
Qed.

(** **** Blocks and epochs *)

(** X28. A block recorded with [addBlock] just before the slot moves to
    the block's slot, as the node does, is lost when that slot opens the next
    epoch: the transition resets the block list of the new epoch. *)
Theorem epoch_transition_drops_added_block st block st' :
  getEpochFromSlot (Block.slot block) = currentEpoch st + 1 ->
  updateSlot sha256 localeCompare (addBlock st block) (Block.slot block) = Some st' ->
  block ∈ default [] (epochBlocks (addBlock st block) !! (currentEpoch st + 1)) /\
  epochBlocks st' !! (currentEpoch st + 1) = Some [].
Proof.
  intros Hnext Hup. split.
  - unfold addBlock. rewrite Hnext.
    destruct (epochBlocks st !! (currentEpoch st + 1)) as [l|] eqn:Hl;
      cbn [set_epochBlocks epochBlocks]; rewrite !lookup_insert_eq; cbn.
    + rewrite Hl. cbn. apply elem_of_app. right. left.
    + left.
  - assert (currentEpoch (addBlock st block) = currentEpoch st) as Hepoch.
    { unfold addBlock. by destruct (epochBlocks st !! _). }
    destruct (updateSlot_spec sha256 localeCompare (addBlock st block) (Block.slot block))
      as (st1 & Heq & Hst1).
    rewrite Heq in Hup. injection Hup as <-.
    rewrite Hepoch in Hst1.
    rewrite (proj2 (Z.ltb_lt _ _)) in Hst1 by lia.
    destruct Hst1 as (schedule & _ & ->).
    cbn [cleanupExpiredLockouts set_lockouts epochBlocks transitioned].
    change (currentEpoch (set_consensusState (addBlock st block) _))
      with (currentEpoch (addBlock st block)).
    rewrite Hepoch. apply lookup_insert_eq.
Qed.

(** **** Stake of the validator table *)

Local Abbreviation stake_step :=
  (fun (_ : jsstring) validator acc =>
     if ValidatorInfo.isActive validator
     then ValidatorInfo.stake validator + acc else acc).




(** **** Votes from creation to acceptance *)

Hypothesis sha256_length : forall m, length (sha256 m) = 32%nat.

(** X30. A vote that [createVote] returns carries the lockout computed for
    its validator; [addVote] accepts it exactly when the validator is
    active; and [validateVote] accepts it exactly when, moreover,
    [Buffer.from(validatorPublicKey, 'hex')] is 32 bytes long. *)
Theorem createVote_validateVote st blockHash validatorPublicKey privateKey now vote :
  createVote st blockHash validatorPublicKey privateKey now = Created vote ->
  Vote.lockout vote = calculateLockout st validatorPublicKey /\
  (addVote st vote).2 = isValidator st validatorPublicKey /\
  validateVote st vote
    = isValidator st validatorPublicKey
      && bool_decide (length (hex_decode validatorPublicKey) = 32%nat).
Proof using sha256_length.
  unfold createVote.
  destruct (validators st !! validatorPublicKey) as [v|] eqn:Hv; [|done].
  destruct (canVote st validatorPublicKey blockHash) eqn:Hcan; cbn [negb]; [|done].
  intros [= <-]. split; [done|].
  rewrite addVote_result. unfold validateVoteSync, validateVote, isValidator.
  cbn [Vote.validator Vote.blockHash Vote.signature Vote.timestamp Vote.lockout].
  rewrite Hv, Hcan.
  rewrite (Crypto.verifySignature_signMessage sha256 sha256_length).
  destruct (ValidatorInfo.isActive v); cbn [negb andb]; [|done].
  split; [done|]. by destruct (bool_decide _).
Qed.

End Engine.





(** *** The remaining operations on concrete inputs *)

Lemma reachable_four_validators :
  reachable Sample.digest Sample.compare four_validators.
Proof.
  unfold four_validators.
  apply reachable_addValidator, reachable_addValidator, reachable_addValidator,
    reachable_addValidator, reachable_new.
Qed.

(** The schedule of epoch 1 for the four validators. *)
Definition sample_schedule : list jsstring :=
  default [] (generateLeaderSchedule Sample.digest Sample.compare four_validators 1
                (js "seed")).

(** A stand-in for [JSON.stringify] on the data of a vote. *)
Definition sample_stringify (data : VoteData) : jsstring :=
  vd_validator data ++ js "," ++ vd_blockHash data ++ js ","
  ++ Number_toString (vd_timestamp data) ++ js "," ++ Number_toString (vd_lockout data).

Definition sample_vote : Vote.t :=
  Vote.mk (js "validator1") (js "block-a") 7
    (Crypto.signMessage Sample.digest
       (sample_stringify (mkVoteData (js "validator1") (js "block-a") 7 1))
       (Crypto.fromPrivateKey Sample.digest (js "00")))
    1.

(** A block of slot 64, the first slot of epoch 1. *)
Definition first_block_of_epoch1 : Block.t :=
  Block.mk (js "block-64") (js "") (js "") 0 [] 0 (js "validator1") (js "") 64 1.

Lemma schedule_runs_of_four_witness :
  is_Some (sample_schedule !! (4 * 2)%nat) /\
  sample_schedule !! (4 * 2 + 3)%nat = sample_schedule !! (4 * 2)%nat.
Proof.
  apply (schedule_runs_of_four Sample.digest Sample.compare four_validators 1 (js "seed")
           sample_schedule 2 3);
    [lia|vm_compute; discriminate|vm_compute; reflexivity|lia|lia].
Defined.

Lemma schedule_round_robin_witness :
  is_Some (sample_schedule !! 3%nat) /\
  sample_schedule !! (3 + 4 * length (getActiveValidators four_validators))%nat
    = sample_schedule !! 3%nat.
Proof.
  apply (schedule_round_robin Sample.digest Sample.compare four_validators 1 (js "seed")
           sample_schedule 3);
    [lia|vm_compute; discriminate|vm_compute; reflexivity|vm_compute; lia].
Defined.

Lemma generateLeaderSchedule_only_active_witness :
  (exists validator,
     validator ∈ getActiveValidators four_validators /\
     ValidatorInfo.publicKey validator = default [] (sample_schedule !! 0%nat)) /\
  (reachable Sample.digest Sample.compare four_validators ->
   isValidator four_validators (default [] (sample_schedule !! 0%nat)) = true).
Proof.
  apply (generateLeaderSchedule_only_active Sample.digest Sample.compare four_validators 1
           (js "seed") sample_schedule 0);
    vm_compute; reflexivity.
Defined.





Lemma genesis_leader_rotation_witness :
  exists validator,
    sort (fun a b =>
            Sample.compare (ValidatorInfo.publicKey a) (ValidatorInfo.publicKey b))
      (getActiveValidators four_validators)
      !! (Z.to_nat (5 `div` 4) `mod` length (getActiveValidators four_validators))%nat
      = Some validator /\
    validator ∈ getActiveValidators four_validators /\
    getLeaderForSlot Sample.compare four_validators 5
      = Some (Some (ValidatorInfo.publicKey validator)).
Proof.
  apply (genesis_leader_rotation Sample.compare four_validators 5);
    [lia|vm_compute; discriminate].
Defined.

Lemma leader_after_epoch_transition_witness :
  let st' :=
    default four_validators
      (updateSlot Sample.digest Sample.compare four_validators 64) in
  exists validator,
    validator ∈ getActiveValidators st' /\
    getCurrentLeader Sample.compare st' = Some (Some (ValidatorInfo.publicKey validator)).
Proof.
  apply (leader_after_epoch_transition Sample.digest Sample.compare four_validators 64).
  - vm_compute. discriminate.
  - vm_compute. reflexivity.
  - vm_compute. discriminate.
  - vm_compute. reflexivity.
Defined.

Lemma no_leader_after_epoch_jump_witness :
  let st' :=
    default four_validators
      (updateSlot Sample.digest Sample.compare four_validators 200) in
  currentEpoch st' = currentEpoch four_validators + 1 /\
  getCurrentLeader Sample.compare st' = Some None.
Proof.
  apply (no_leader_after_epoch_jump Sample.digest Sample.compare four_validators 200).
  - apply reachable_four_validators.
  - vm_compute. reflexivity.
  - vm_compute. reflexivity.
Defined.

Lemma epoch_transition_drops_added_block_witness :
  let added := addBlock four_validators first_block_of_epoch1 in
  let st' := default added (updateSlot Sample.digest Sample.compare added 64) in
  first_block_of_epoch1
    ∈ default [] (epochBlocks added !! (currentEpoch four_validators + 1)) /\
  epochBlocks st' !! (currentEpoch four_validators + 1) = Some [].
Proof.
  apply (epoch_transition_drops_added_block Sample.digest Sample.compare four_validators
           first_block_of_epoch1).
  - vm_compute. reflexivity.
  - vm_compute. reflexivity.
Defined.

Lemma createVote_validateVote_witness :
  Vote.lockout sample_vote = calculateLockout four_validators (js "validator1") /\
  (addVote four_validators sample_vote).2 = isValidator four_validators (js "validator1") /\
  validateVote Sample.digest sample_stringify four_validators sample_vote
    = isValidator four_validators (js "validator1")
      && bool_decide (length (hex_decode (js "validator1")) = 32%nat).
Proof.
  apply (createVote_validateVote Sample.digest sample_stringify Sample.digest_length
           four_validators (js "block-a") (js "validator1") (js "00") 7 sample_vote).
  vm_compute. reflexivity.
Defined.

End SimplifiedConsensus.

(** ** The block pipeline ([core/block]) *)

Module BlockProducer.

Record t := mk {
  blockchain : list Block.t;
  maxTransactionsPerBlock : Z
}.

(** [new BlockProducer(maxTransactionsPerBlock = 100)]. *)
Definition new (maxTransactionsPerBlock : option Z) : t :=
  mk [] (default 100 maxTransactionsPerBlock).

(** [Omit<Block, 'hash' | 'signature'>]. *)
Record BlockData := mkBlockData {
  previousHash : jsstring;
  pohHash : jsstring;
  pohCount : Z;
  transactions : list Transaction.t;
  timestamp : Z;
  leader : jsstring;
  slot : Z;
  epoch : Z
}.

Definition blockData_of (block : Block.t) : BlockData :=
  mkBlockData (Block.previousHash block) (Block.pohHash block) (Block.pohCount block)
    (Block.transactions block) (Block.timestamp block) (Block.leader block)
    (Block.slot block) (Block.epoch block).

Definition getLatestBlock (st : t) : option Block.t :=
  if (0 <? length (blockchain st))%nat
  then blockchain st !! (length (blockchain st) - 1)%nat
  else None.

Definition zeroHash : jsstring := concat (replicate 64 (js "0")).

Definition getLatestBlockHash (st : t) : jsstring :=
  match getLatestBlock st with
  | Some latestBlock => Block.hash latestBlock
  | None => zeroHash
  end.

Section Hashing.
Variable sha256 : list byte -> list byte.
(** [JSON.stringify] of the object literal that [calculateBlockHash] builds
    from the eight fields, in their fixed order. *)
Variable JSON_stringify : BlockData -> jsstring.

Local Abbreviation sha256_hex := (Crypto.sha256_hex sha256).

Definition calculateBlockHash (blockData : BlockData) : jsstring :=
  let dataString := JSON_stringify blockData in
  sha256_hex dataString.

(** [createBlock(...)] at wall-clock time [now]; an omitted or empty
    [previousHash] is replaced by the hash of the chain tip. *)
Definition createBlock (st : t) (transactions : list Transaction.t)
  (pohHash : jsstring) (pohCount : Z) (leader privateKey : jsstring) (slot epoch : Z)
  (previousHash : option jsstring) (now : Z) : Block.t :=
  let limitedTransactions := slice0 transactions (maxTransactionsPerBlock st) in
  let blockData :=
    mkBlockData
      (match previousHash with
       | Some h => if (0 <? length h)%nat then h else getLatestBlockHash st
       | None => getLatestBlockHash st
       end)
      pohHash pohCount limitedTransactions now leader slot epoch in
  let hash := calculateBlockHash blockData in
  let keyPair := Crypto.fromPrivateKey sha256 privateKey in
  let signature := Crypto.signMessage sha256 hash keyPair in
  Block.mk hash (BlockProducer.previousHash blockData) pohHash pohCount
    limitedTransactions now leader signature slot epoch.

Definition validateBlock (st : t) (block : Block.t) : bool :=
  let expectedHash := calculateBlockHash (blockData_of block) in
  if negb (streq (Block.hash block) expectedHash) then false
  else
    let isValidSignature :=
      Crypto.verifySignature sha256 (Block.hash block) (Block.signature block)
        (Block.leader block) in
    if negb isValidSignature then false
    else if (0 <? length (blockchain st))%nat
            && match getLatestBlock st with
               | Some latestBlock =>
                 negb (streq (Block.previousHash block) (Block.hash latestBlock))
               | None => false
               end
    then false
    else if maxTransactionsPerBlock st <? Z.of_nat (length (Block.transactions block))
    then false
    else true.

Definition validateBlockSync (st : t) (block : Block.t) : bool :=
  let expectedHash := calculateBlockHash (blockData_of block) in
  if negb (streq (Block.hash block) expectedHash) then false
  else if (0 <? length (blockchain st))%nat
          && match getLatestBlock st with
             | Some latestBlock =>
               negb (streq (Block.previousHash block) (Block.hash latestBlock))
             | None => false
             end
  then false
  else true.

Definition addBlock (st : t) (block : Block.t) : t * bool :=
  if (length (blockchain st) =? 0)%nat || validateBlockSync st block
  then (mk (blockchain st ++ [block]) (maxTransactionsPerBlock st), true)
  else (st, false).

(** What decides the chain-linkage check for a produced block. *)
Definition links_to_tip (st : t) (previousHash : option jsstring) : Prop :=
  blockchain st = [] \/
  match previousHash with
  | Some h => h = [] \/ h = getLatestBlockHash st
  | None => True
  end.

Lemma getLatestBlock_nonempty st :
  blockchain st <> [] -> exists latestBlock,
    getLatestBlock st = Some latestBlock /\ getLatestBlockHash st = Block.hash latestBlock.
Proof.
  intros Hne. unfold getLatestBlockHash, getLatestBlock.
  destruct (blockchain st) as [|b l] eqn:Hbc; [done|].
  change (0 <? length (b :: l))%nat with true. cbv iota.
  destruct ((b :: l) !! (length (b :: l) - 1)%nat) as [latest|] eqn:Hl.
  - by exists latest.
  - apply lookup_ge_None in Hl. simpl in Hl. lia.
Qed.

Lemma slice0_fits {A} (l : list A) (e : Z) :
  (e <? Z.of_nat (length (slice0 l e))) = false <-> 0 <= e.
Proof.
  unfold slice0. rewrite Z.ltb_ge. destruct (e <? 0) eqn:He.
  - apply Z.ltb_lt in He. split; [|lia]. intros Hle. lia.
  - apply Z.ltb_ge in He. split; [done|]. intros _. rewrite length_take. lia.
Qed.

Hypothesis sha256_length : forall m, length (sha256 m) = 32%nat.

(** C6 (as amended). The block [createBlock] returns passes [validateBlock]
    against the same chain state exactly when [Buffer.from(leader, 'hex')]
    is 32 bytes long, the transaction limit is not negative, and the chain
    is empty or the previous hash was omitted, empty, or the hash of the
    chain tip. *)
Theorem validateBlock_createBlock st transactions pohHash pohCount leader privateKey
  slot epoch previousHash now :
  validateBlock st
    (createBlock st transactions pohHash pohCount leader privateKey slot epoch
       previousHash now) = true
  <->
  length (hex_decode leader) = 32%nat /\
  0 <= maxTransactionsPerBlock st /\
  links_to_tip st previousHash.
Proof using sha256_length.
  unfold validateBlock, createBlock. cbn [Block.hash Block.signature Block.leader
    Block.previousHash Block.transactions blockData_of Block.pohHash Block.pohCount
    Block.timestamp Block.slot Block.epoch BlockProducer.previousHash].
  rewrite streq_refl. cbn [negb].
  rewrite (Crypto.verifySignature_signMessage sha256 sha256_length).
  destruct (decide (length (hex_decode leader) = 32%nat)) as [Hpk|Hpk]; cycle 1.
  { rewrite bool_decide_eq_false_2 by done. cbn. split; [done|]. by intros [? _]. }
  rewrite bool_decide_eq_true_2 by done. cbn [negb].
  pose proof (slice0_fits transactions (maxTransactionsPerBlock st)) as Hfit.
  set (prev := match previousHash with
               | Some h => if (0 <? length h)%nat then h else getLatestBlockHash st
               | None => getLatestBlockHash st
               end).
  assert (Hprev : prev = getLatestBlockHash st <->
                  match previousHash with
                  | Some h => h = [] \/ h = getLatestBlockHash st
                  | None => True
                  end).
  { unfold prev. destruct previousHash as [[|c h]|]; cbn; [tauto| |tauto].
    split; [by right|]. by intros [?|?]. }
  unfold links_to_tip. rewrite <- Hprev.
  destruct (blockchain st) as [|b l] eqn:Hbc.
  - cbn [length Nat.ltb Nat.leb andb].
    destruct (_ <? _) eqn:Hmax.
    + split; [done|]. intros (_ & Hm & _). apply Hfit in Hm. congruence.
    + split; [|done]. intros _. split; [done|]. split; [by apply Hfit|by left].
  - destruct (getLatestBlock_nonempty st) as (latest & Hl & Hh); [by rewrite Hbc|].
    change (0 <? length (b :: l))%nat with true. rewrite Hl, Hh. cbn [andb].
    destruct (streq prev (Block.hash latest)) eqn:Heq; cbn [negb].
    + apply streq_true in Heq. destruct (_ <? _) eqn:Hmax.
      * split; [done|]. intros (_ & Hm & _). apply Hfit in Hm. congruence.
      * split; [|done]. intros _. split; [done|]. split; [by apply Hfit|by right].
    + apply streq_false in Heq. split; [done|]. intros (_ & _ & [?|?]); done.
Qed.

End Hashing.

(** A stand-in for [JSON.stringify] on block data: the fields separated by
    commas, the transactions by their number. *)
Definition sample_stringify (d : BlockData) : jsstring :=
  previousHash d ++ js "," ++ pohHash d ++ js "," ++ Number_toString (pohCount d)
  ++ js "," ++ Number_toString (Z.of_nat (length (transactions d)))
  ++ js "," ++ Number_toString (timestamp d) ++ js "," ++ leader d
  ++ js "," ++ Number_toString (slot d) ++ js "," ++ Number_toString (epoch d).

(** A public key in the format of the node: 64 hexadecimal digits. *)
Definition hex_key : jsstring := concat (replicate 32 (js "a7")).

Lemma validateBlock_createBlock_witness :
  validateBlock Sample.digest sample_stringify (new None)
    (createBlock Sample.digest sample_stringify (new None) [] (js "00") 0 hex_key
       (js "0b") 1 0 None 1700000000000) = true.
Proof.
  apply (validateBlock_createBlock Sample.digest sample_stringify Sample.digest_length).
  split; [vm_compute; reflexivity|]. split; [vm_compute; discriminate|].
  left. reflexivity.
Defined.

(** C6: a leader key that does not decode to 32 bytes (the keys of the
    repository's schedule test are of this kind), and a previous hash that
    is not the hash of the tip of a non-empty chain: in both cases the block
    just produced is rejected, whatever the digest and the serialisation. *)
Lemma validateBlock_rejects_produced_block :
  (forall sha256 JSON_stringify,
     validateBlock sha256 JSON_stringify (new None)
       (createBlock sha256 JSON_stringify (new None) [] (js "00") 0 (js "validator1")
          (js "0b") 1 0 None 1700000000000) = false) /\
  (forall sha256 JSON_stringify,
     let tip := Block.mk (js "aa") zeroHash (js "00") 0 [] 0 hex_key (js "") 0 0 in
     let st := mk [tip] 100 in
     validateBlock sha256 JSON_stringify st
       (createBlock sha256 JSON_stringify st [] (js "00") 1 hex_key (js "0b") 1 0
          (Some (js "bb")) 1700000000000) = false).
Proof.
  split.
  - intros sha256 JSON_stringify. unfold validateBlock, createBlock.
    cbn [Block.hash blockData_of Block.previousHash Block.pohHash Block.pohCount
         Block.transactions Block.timestamp Block.leader Block.slot Block.epoch
         Block.signature BlockProducer.previousHash].
    rewrite streq_refl. cbn [negb].
    unfold Crypto.verifySignature, Crypto.verify.
    change (hex_decode (js "validator1")) with (@nil byte).
    cbn [length]. rewrite (bool_decide_eq_false_2 (0%nat = 32%nat)) by done.
    by rewrite andb_false_r.
  - intros sha256 JSON_stringify tip st. unfold validateBlock, createBlock.
    cbn [Block.hash blockData_of Block.previousHash Block.pohHash Block.pohCount
         Block.transactions Block.timestamp Block.leader Block.slot Block.epoch
         Block.signature BlockProducer.previousHash].
    rewrite streq_refl. cbn [negb].
    destruct (Crypto.verifySignature _ _ _ _); [|done]. reflexivity.
Qed.

(** *** The accepted chain *)

Definition getBlockchain (st : t) : list Block.t := blockchain st.

Definition getBlockHeight (st : t) : Z := Z.of_nat (length (blockchain st)).

(** [arr.slice(start, end)]: negative indices count from the end, and both
    are clamped to the array. *)
Definition slice {A} (l : list A) (start end_ : Z) : list A :=
  let len := Z.of_nat (length l) in
  let clamp k := if k <? 0 then Z.max (len + k) 0 else Z.min k len in
  take (Z.to_nat (clamp end_ - clamp start)) (drop (Z.to_nat (clamp start)) l).

(** [getBlocksFromHeight(fromHeight, limit?)]: a limit that is missing or 0
    is falsy. *)
Definition getBlocksFromHeight (st : t) (fromHeight : Z) (limit : option Z) : list Block.t :=
  let startIndex := Z.max 0 fromHeight in
  let endIndex :=
    match limit with
    | Some limit =>
      if limit =? 0 then Z.of_nat (length (blockchain st))
      else Z.min (Z.of_nat (length (blockchain st))) (startIndex + limit)
    | None => Z.of_nat (length (blockchain st))
    end in
  slice (blockchain st) startIndex endIndex.

(** A block with its stored hash replaced. *)
Definition with_hash (block : Block.t) (hash : jsstring) : Block.t :=
  Block.mk hash (Block.previousHash block) (Block.pohHash block) (Block.pohCount block)
    (Block.transactions block) (Block.timestamp block) (Block.leader block)
    (Block.signature block) (Block.slot block) (Block.epoch block).

Section Chain.
Variable sha256 : list byte -> list byte.
Variable JSON_stringify : BlockData -> jsstring.

Local Abbreviation calculateBlockHash := (calculateBlockHash sha256 JSON_stringify).
Local Abbreviation validateBlock := (validateBlock sha256 JSON_stringify).
Local Abbreviation validateBlockSync := (validateBlockSync sha256 JSON_stringify).
Local Abbreviation addBlock := (addBlock sha256 JSON_stringify).
Local Abbreviation createBlock := (createBlock sha256 JSON_stringify).

(** The body of the loop of [isValidChain], from index [i], for [n] more
    iterations. *)
Fixpoint isValidChain_loop (blockchain : list Block.t) (i n : nat) : bool :=
  match n with
  | O => true
  | S n' =>
    match blockchain !! i, blockchain !! (i - 1)%nat with
    | Some currentBlock, Some previousBlock =>
      if negb (streq (Block.previousHash currentBlock) (Block.hash previousBlock))
      then false
      else if negb (streq (Block.hash currentBlock)
                      (calculateBlockHash (blockData_of currentBlock)))
      then false
      else isValidChain_loop blockchain (S i) n'
    | _, _ => true
    end
  end.

Definition isValidChain (st : t) : bool :=
  isValidChain_loop (blockchain st) 1 (length (blockchain st) - 1).

(** [createGenesisBlock(leader, privateKey)] at wall-clock time [now]. *)
Definition createGenesisBlock (st : t) (leader privateKey : jsstring) (now : Z) : Block.t :=
  createBlock st [] zeroHash 0 leader privateKey 0 0 (Some zeroHash) now.

(** The chains that [addBlock] builds. *)
Inductive built : t -> Prop :=
| built_new maxTransactionsPerBlock : built (new maxTransactionsPerBlock)
| built_addBlock st block : built st -> built (addBlock st block).1.

(** What [isValidChain] checks of a block and its predecessor. *)
Definition follows (previousBlock currentBlock : Block.t) : Prop :=
  Block.previousHash currentBlock = Block.hash previousBlock /\
  Block.hash currentBlock = calculateBlockHash (blockData_of currentBlock).

Definition well_linked (blockchain : list Block.t) : Prop :=
  forall (i : nat) previousBlock currentBlock,
    blockchain !! i = Some previousBlock -> blockchain !! S i = Some currentBlock ->
    follows previousBlock currentBlock.

Lemma isValidChain_loop_spec blockchain (i n : nat) :
  (1 <= i)%nat ->
  isValidChain_loop blockchain i n = true <->
  (forall k previousBlock currentBlock, (i <= k < i + n)%nat ->
     blockchain !! (k - 1)%nat = Some previousBlock -> blockchain !! k = Some currentBlock ->
     follows previousBlock currentBlock).
Proof.
  revert i. induction n as [|n IH]; intros i Hi; cbn [isValidChain_loop].
  { split; [intros _ k ? ? ?; lia|done]. }
  destruct (blockchain !! i) as [cur|] eqn:Hcur; cycle 1.
  { split; [|done]. intros _ k p c Hk Hp Hc. exfalso.
    apply lookup_ge_None in Hcur. apply lookup_lt_Some in Hc. lia. }
  destruct (blockchain !! (i - 1)%nat) as [prev|] eqn:Hprev; cycle 1.
  { split; [|done]. exfalso.
    apply lookup_ge_None in Hprev. apply lookup_lt_Some in Hcur. lia. }
  destruct (streq (Block.previousHash cur) (Block.hash prev)) eqn:Hlink; cbn [negb].
  - destruct (streq (Block.hash cur) (calculateBlockHash (blockData_of cur))) eqn:Hhash;
      cbn [negb].
    + apply streq_true in Hlink, Hhash. rewrite IH by lia. split.
      * intros Hrest k p c Hk Hp Hc. destruct (decide (k = i)) as [->|Hne].
        -- rewrite Hprev in Hp. rewrite Hcur in Hc. by simplify_eq.
        -- apply (Hrest k); [lia|done..].
      * intros Hall k p c Hk. apply Hall. lia.
    + apply streq_false in Hhash. split; [done|]. intros Hall.
      destruct (Hall i prev cur) as [_ ?]; [lia|done..].
  - apply streq_false in Hlink. split; [done|]. intros Hall.
    destruct (Hall i prev cur) as [? _]; [lia|done..].
Qed.

Lemma isValidChain_well_linked st :
  isValidChain st = true <-> well_linked (blockchain st).
Proof.
  unfold isValidChain, well_linked. rewrite isValidChain_loop_spec by lia. split.
  - intros H i prev cur Hp Hc. apply (H (S i)).
    + apply lookup_lt_Some in Hc. lia.
    + by replace (S i - 1)%nat with i by lia.
    + done.
  - intros H k prev cur Hk Hp Hc.
    apply (H (k - 1)%nat); [done|]. by replace (S (k - 1)) with k by lia.
Qed.

Lemma validateBlockSync_true st block :
  validateBlockSync st block = true <->
  Block.hash block = calculateBlockHash (blockData_of block) /\
  (blockchain st = [] \/ Block.previousHash block = getLatestBlockHash st).
Proof.
  unfold BlockProducer.validateBlockSync.
  destruct (streq (Block.hash block) _) eqn:Hhash; cbn [negb].
  - apply streq_true in Hhash.
    destruct (blockchain st) as [|b l] eqn:Hbc.
    + cbn. split; [by auto|done].
    + destruct (getLatestBlock_nonempty st) as (latest & Hl & Hh); [by rewrite Hbc|].
      change (0 <? length (b :: l))%nat with true. rewrite Hl, Hh. cbn [andb].
      destruct (streq (Block.previousHash block) (Block.hash latest)) eqn:Hprev; cbn [negb].
      * apply streq_true in Hprev. split; [by auto|done].
      * apply streq_false in Hprev. split; [done|]. by intros [_ [?|?]].
  - apply streq_false in Hhash. split; [done|]. by intros [? _].
Qed.

Lemma getLatestBlockHash_last st latest :
  last (blockchain st) = Some latest -> getLatestBlockHash st = Block.hash latest.
Proof.
  intros Hlast. destruct (getLatestBlock_nonempty st) as (latest' & Hl & ->).
  { intros Hnil. by rewrite Hnil in Hlast. }
  unfold getLatestBlock in Hl. destruct (0 <? _)%nat; [|done].
  rewrite last_lookup in Hlast.
  replace (Init.Nat.pred (length (blockchain st))) with (length (blockchain st) - 1)%nat
    in Hlast by lia.
  congruence.
Qed.

Lemma well_linked_snoc blockchain block :
  well_linked blockchain ->
  (forall latest, last blockchain = Some latest -> follows latest block) ->
  well_linked (blockchain ++ [block]).
Proof.
  intros Hwl Hlast i prev cur Hp Hc.
  apply lookup_app_Some in Hc as [Hc|[Hge Hc]].
  - apply (Hwl i); [|done]. apply lookup_lt_Some in Hc.
    by rewrite lookup_app_l in Hp by lia.
  - apply list_lookup_singleton_Some in Hc as [Hi <-].
    assert (S i = length blockchain) as Hlen by lia.
    rewrite lookup_app_l in Hp by lia. apply Hlast.
    rewrite last_lookup. by replace (Init.Nat.pred (length blockchain)) with i by lia.
Qed.

Lemma addBlock_cases st block :
  addBlock st block =
  if bool_decide (blockchain st = []) || validateBlockSync st block
  then (mk (blockchain st ++ [block]) (maxTransactionsPerBlock st), true)
  else (st, false).
Proof.
  unfold BlockProducer.addBlock. by destruct (blockchain st).
Qed.

(** X6. A chain built by [addBlock] from an empty chain always passes
    [isValidChain]: every block after the first names the hash of its
    predecessor and stores the hash recomputed from its own fields. *)
Theorem built_isValidChain st : built st -> isValidChain st = true.
Proof.
  intros Hbuilt. apply isValidChain_well_linked.
  induction Hbuilt as [max|st block _ IH].
  - cbn. intros i prev cur Hp. by rewrite lookup_nil in Hp.
  - rewrite addBlock_cases.
    destruct (bool_decide (blockchain st = [])) eqn:Hempty; cbn [orb].
    + apply bool_decide_eq_true in Hempty. cbn. rewrite Hempty.
      intros [|i] prev cur Hp Hc; by simplify_eq/=.
    + destruct (validateBlockSync st block) eqn:Hsync; [|done]. cbn.
      apply validateBlockSync_true in Hsync as [Hhash [Hnil|Hprev]].
      { apply bool_decide_eq_false in Hempty. done. }
      apply well_linked_snoc; [done|]. intros latest Hlast.
      split; [|done]. by rewrite Hprev, (getLatestBlockHash_last st latest).
Qed.

(** X7. In a chain of two or more blocks that passes [isValidChain],
    replacing the stored hash of any block by a different string makes
    [isValidChain] fail. *)
Theorem isValidChain_detects_tampered_hash st (i : nat) block hash' :
  isValidChain st = true ->
  (2 <= length (blockchain st))%nat ->
  blockchain st !! i = Some block -> hash' <> Block.hash block ->
  isValidChain (mk (<[i := with_hash block hash']> (blockchain st))
                  (maxTransactionsPerBlock st)) = false.
Proof.
  intros Hok Hlen Hi Hne. apply isValidChain_well_linked in Hok.
  apply not_true_is_false. intros Hbad. apply isValidChain_well_linked in Hbad.
  cbn [blockchain] in Hbad. destruct i as [|i].
  - assert (is_Some (blockchain st !! 1%nat)) as [next Hnext]
      by (apply lookup_lt_is_Some; lia).
    destruct (Hok 0%nat block next Hi Hnext) as [Hlink _].
    destruct (Hbad 0%nat (with_hash block hash') next) as [Hlink' _].
    + apply list_lookup_insert_eq. lia.
    + by rewrite list_lookup_insert_ne by lia.
    + cbn in Hlink'. congruence.
  - assert (is_Some (blockchain st !! i)) as [prev Hprev].
    { apply lookup_lt_is_Some. apply lookup_lt_Some in Hi. lia. }
    destruct (Hok i prev block Hprev Hi) as [_ Hhash].
    destruct (Hbad i prev (with_hash block hash')) as [_ Hhash'].
    + by rewrite list_lookup_insert_ne by lia.
    + apply list_lookup_insert_eq. by apply lookup_lt_Some in Hi.
    + cbn in Hhash'. unfold blockData_of in *. cbn in Hhash'. congruence.
Qed.

(** X8. A block that [validateBlock] accepts is appended by [addBlock] (the
    order in which the node calls them): the synchronous checks are among
    the checks of [validateBlock]. *)
Theorem validateBlock_then_addBlock st block :
  validateBlock st block = true ->
  addBlock st block = (mk (blockchain st ++ [block]) (maxTransactionsPerBlock st), true).
Proof.
  intros Hvalid. rewrite addBlock_cases.
  assert (validateBlockSync st block = true) as ->; [|by rewrite orb_true_r].
  unfold BlockProducer.validateBlock in Hvalid.
  unfold BlockProducer.validateBlockSync.
  destruct (negb (streq (Block.hash block) _)); [done|].
  destruct (negb (Crypto.verifySignature _ _ _ _)); [done|].
  by destruct (_ && _).
Qed.

(** X9. [addBlock] accepts the block [createBlock] has just produced exactly
    when the chain is empty or the previous hash was omitted, empty, or the
    hash of the chain tip: neither the leader key, nor the signature, nor
    the transaction limit is looked at. *)
Theorem addBlock_createBlock st transactions pohHash pohCount leader privateKey
  slot epoch previousHash now :
  (addBlock st (createBlock st transactions pohHash pohCount leader privateKey slot epoch
                  previousHash now)).2 = true
  <-> links_to_tip st previousHash.
Proof.
  rewrite addBlock_cases. unfold links_to_tip.
  destruct (blockchain st) as [|b l] eqn:Hbc.
  { rewrite bool_decide_eq_true_2 by done. cbn. split; [by left|done]. }
  rewrite bool_decide_eq_false_2 by done. cbn [orb].
  match goal with |- (if ?c then _ else _).2 = true <-> _ =>
    assert (c = true <-> (b :: l = [] \/
      match previousHash with
      | Some h => h = [] \/ h = getLatestBlockHash st
      | None => True
      end)) as Hc end.
  { rewrite validateBlockSync_true. rewrite Hbc.
    unfold BlockProducer.createBlock, blockData_of. cbn.
    split.
    - intros [_ [?|Hp]]; [done|]. right.
      destruct previousHash as [[|c h]|]; [by left| |done]. by right.
    - intros [?|Hp]; [done|]. split; [done|]. right.
      destruct previousHash as [[|c h]|]; cbn; [done| |done].
      by destruct Hp. }
  destruct (validateBlockSync _ _); cbn.
  - split; [intros _; by apply Hc|done].
  - split; [done|]. intros H. by apply Hc in H.
Qed.

(** X10. [getBlocksFromHeight(from, limit)] for [from >= 0]: with a positive
    limit it returns at most [limit] blocks starting at height [from]; with
    a limit that is missing, or 0, it returns every block from height
    [from] on. *)
Theorem getBlocksFromHeight_window st fromHeight limit :
  0 <= fromHeight ->
  match limit with Some limit => 0 <= limit | None => True end ->
  getBlocksFromHeight st fromHeight limit =
  match limit with
  | Some limit =>
    if limit =? 0 then drop (Z.to_nat fromHeight) (blockchain st)
    else take (Z.to_nat limit) (drop (Z.to_nat fromHeight) (blockchain st))
  | None => drop (Z.to_nat fromHeight) (blockchain st)
  end.
Proof.
  intros Hfrom Hlimit. unfold getBlocksFromHeight, slice.
  set (len := Z.of_nat (length (blockchain st))).
  replace (Z.max 0 fromHeight) with fromHeight by lia.
  rewrite (proj2 (Z.ltb_ge fromHeight 0)) by lia.
  assert (Hall : take (Z.to_nat (Z.min len len - Z.min fromHeight len))
                   (drop (Z.to_nat (Z.min fromHeight len)) (blockchain st))
                 = drop (Z.to_nat fromHeight) (blockchain st)).
  { rewrite take_ge by (rewrite length_drop; lia).
    destruct (decide (fromHeight <= len)).
    - by replace (Z.min fromHeight len) with fromHeight by lia.
    - rewrite !drop_ge by lia. done. }
  destruct limit as [limit|]; cycle 1.
  { by rewrite (proj2 (Z.ltb_ge len 0)) by lia. }
  destruct (limit =? 0) eqn:Hzero.
  { by rewrite (proj2 (Z.ltb_ge len 0)) by lia. }
  apply Z.eqb_neq in Hzero.
  rewrite (proj2 (Z.ltb_ge (Z.min len (fromHeight + limit)) 0)) by lia.
  destruct (decide (fromHeight <= len)).
  - replace (Z.min fromHeight len) with fromHeight by lia.
    replace (Z.min (Z.min len (fromHeight + limit)) len)
      with (Z.min len (fromHeight + limit)) by lia.
    destruct (decide (fromHeight + limit <= len)).
    + by replace (Z.min len (fromHeight + limit) - fromHeight) with limit by lia.
    + rewrite !take_ge; [done|rewrite length_drop; lia..].
  - rewrite !drop_ge by lia. by rewrite !take_nil.
Qed.

End Chain.

(** A chain of two blocks as the node builds it: the genesis block, then a
    block produced on top of it. *)
Definition sample_genesis : Block.t :=
  createGenesisBlock Sample.digest sample_stringify (new None) hex_key (js "0b") 1000.

Definition sample_chain1 : t :=
  (addBlock Sample.digest sample_stringify (new None) sample_genesis).1.

Definition sample_block1 : Block.t :=
  createBlock Sample.digest sample_stringify sample_chain1 [] (js "00") 1 hex_key (js "0b")
    1 0 None 2000.

Definition sample_chain2 : t :=
  (addBlock Sample.digest sample_stringify sample_chain1 sample_block1).1.

Example sample_chain2_height : getBlockHeight sample_chain2 = 2.
Proof. vm_compute. reflexivity. Qed.

Lemma built_isValidChain_witness :
  isValidChain Sample.digest sample_stringify sample_chain2 = true.
Proof.
  apply (built_isValidChain Sample.digest sample_stringify sample_chain2).
  unfold sample_chain2, sample_chain1.
  apply built_addBlock, built_addBlock, built_new.
Defined.

Lemma isValidChain_detects_tampered_hash_witness :
  isValidChain Sample.digest sample_stringify
    (mk (<[0%nat := with_hash sample_genesis (js "ff")]> (blockchain sample_chain2))
        (maxTransactionsPerBlock sample_chain2)) = false.
Proof.
  apply (isValidChain_detects_tampered_hash Sample.digest sample_stringify
           sample_chain2 0 sample_genesis (js "ff")).
  - vm_compute. reflexivity.
  - vm_compute. lia.
  - vm_compute. reflexivity.
  - vm_compute. discriminate.
Defined.

Lemma validateBlock_then_addBlock_witness :
  addBlock Sample.digest sample_stringify sample_chain1 sample_block1
  = (mk (blockchain sample_chain1 ++ [sample_block1])
        (maxTransactionsPerBlock sample_chain1), true).
Proof.
  apply (validateBlock_then_addBlock Sample.digest sample_stringify
           sample_chain1 sample_block1).
  vm_compute. reflexivity.
Defined.

Lemma getBlocksFromHeight_window_witness :
  getBlocksFromHeight sample_chain2 1 (Some 0) = drop (Z.to_nat 1) (blockchain sample_chain2).
Proof.
  apply (getBlocksFromHeight_window sample_chain2 1 (Some 0)); [lia|cbn; lia].
Defined.

End BlockProducer.

(** ** Transactions ([core/transaction]) *)

Module TransactionProcessor.

Record t := mk {
  accounts : gmap jsstring Account.t;
  transactionPool : list Transaction.t;
  processedTransactions : gset jsstring
}.

Definition new : t := mk ∅ [] ∅.

Definition createAccount (st : t) (publicKey : jsstring) (initialBalance : Z)
  : t * Account.t :=
  let account := Account.mk publicKey initialBalance 0 in
  (mk (<[publicKey := account]> (accounts st)) (transactionPool st)
      (processedTransactions st), account).

Definition getAccount (st : t) (publicKey : jsstring) : option Account.t :=
  accounts st !! publicKey.

Definition getTransactionId (transaction : Transaction.t) : jsstring :=
  Transaction.from transaction ++ js "-" ++ Transaction.to transaction ++ js "-"
  ++ Number_toString (Transaction.nonce transaction) ++ js "-"
  ++ Number_toString (Transaction.timestamp transaction).

(** [Omit<Transaction, 'signature'>]. *)
Record TransactionData := mkTransactionData {
  from : jsstring;
  to : jsstring;
  amount : Z;
  fee : Z;
  timestamp : Z;
  nonce : Z
}.

Section Hashing.
Variable sha256 : list byte -> list byte.
Variable JSON_stringify : TransactionData -> jsstring.

Definition validateTransaction (st : t) (transaction : Transaction.t) : bool :=
  let transactionId := getTransactionId transaction in
  if bool_decide (transactionId ∈ processedTransactions st) then false
  else
    match getAccount st (Transaction.from transaction) with
    | None => false
    | Some fromAccount =>
      if Account.balance fromAccount
         <? Transaction.amount transaction + Transaction.fee transaction
      then false
      else if negb (Transaction.nonce transaction =? Account.nonce fromAccount + 1)
      then false
      else
        let transactionData :=
          mkTransactionData (Transaction.from transaction) (Transaction.to transaction)
            (Transaction.amount transaction) (Transaction.fee transaction)
            (Transaction.timestamp transaction) (Transaction.nonce transaction) in
        let isValidSignature :=
          Crypto.verifySignature sha256 (JSON_stringify transactionData)
            (Transaction.signature transaction) (Transaction.from transaction) in
        isValidSignature
    end.

(** C9. When the sender's account exists and the nonce of the transaction
    is not the account's nonce plus 1, [validateTransaction] returns false,
    whatever the signature. *)
Theorem validateTransaction_rejects_bad_nonce st transaction fromAccount :
  getAccount st (Transaction.from transaction) = Some fromAccount ->
  Transaction.nonce transaction <> Account.nonce fromAccount + 1 ->
  validateTransaction st transaction = false.
Proof.
  intros Hacc Hnonce. unfold validateTransaction. rewrite Hacc.
  destruct (bool_decide _); [done|]. destruct (_ <? _); [done|].
  by rewrite (proj2 (Z.eqb_neq _ _) Hnonce).
Qed.

End Hashing.

Definition sample_stringify (d : TransactionData) : jsstring :=
  from d ++ js "," ++ to d ++ js "," ++ Number_toString (amount d) ++ js ","
  ++ Number_toString (fee d) ++ js "," ++ Number_toString (timestamp d) ++ js ","
  ++ Number_toString (nonce d).

(** An account with balance 1000 and nonce 0, and a well-signed transfer
    from it whose nonce is 2 instead of 1. *)
Definition funded : t := (createAccount new BlockProducer.hex_key 1000).1.

Definition skipped_nonce : Transaction.t :=
  Transaction.mk BlockProducer.hex_key (js "bob") 500 10 BlockProducer.hex_key 1 2.

Lemma validateTransaction_rejects_bad_nonce_witness :
  validateTransaction Sample.digest sample_stringify funded skipped_nonce = false.
Proof.
  apply (validateTransaction_rejects_bad_nonce Sample.digest sample_stringify
           funded skipped_nonce (Account.mk BlockProducer.hex_key 1000 0)).
  - vm_compute. reflexivity.
  - vm_compute. discriminate.
Defined.

Example valid_signature_alone :
  Crypto.verifySignature Sample.digest
    (sample_stringify (mkTransactionData BlockProducer.hex_key (js "bob") 500 10 1 2))
    (Transaction.signature skipped_nonce) (Transaction.from skipped_nonce) = true.
Proof. vm_compute. reflexivity. Qed.

(** *** Applying transactions *)

Definition addToPool (st : t) (transaction : Transaction.t) : t :=
  let transactionId := getTransactionId transaction in
  if bool_decide (transactionId ∈ processedTransactions st) then st
  else mk (accounts st) (transactionPool st ++ [transaction]) (processedTransactions st).

Definition getTransactionPool (st : t) : list Transaction.t := transactionPool st.

Definition clearProcessedFromPool (st : t) (processed : list Transaction.t) : t :=
  let processedIds : gset jsstring := list_to_set (getTransactionId <$> processed) in
  mk (accounts st)
     (List.filter (fun tx => negb (bool_decide (getTransactionId tx ∈ processedIds)))
        (transactionPool st))
     (processedTransactions st).

Definition getAccountBalance (st : t) (publicKey : jsstring) : Z :=
  match getAccount st publicKey with
  | Some account => Account.balance account
  | None => 0
  end.

Definition set_accounts (st : t) (accounts : gmap jsstring Account.t) : t :=
  mk accounts (transactionPool st) (processedTransactions st).

Section Ledger.
Variable sha256 : list byte -> list byte.
Variable JSON_stringify : TransactionData -> jsstring.

Local Abbreviation validateTransaction := (validateTransaction sha256 JSON_stringify).

(** [createTransaction(from, to, amount, fee, privateKey)] at wall-clock
    time [now]; [None] is the error "From account not found". *)
Definition createTransaction (st : t) (from to : jsstring) (amount fee : Z)
  (privateKey : jsstring) (now : Z) : option Transaction.t :=
  match getAccount st from with
  | None => None
  | Some fromAccount =>
    let transaction :=
      mkTransactionData from to amount fee now (Account.nonce fromAccount + 1) in
    let keyPair := Crypto.fromPrivateKey sha256 privateKey in
    let signature := Crypto.signMessage sha256 (JSON_stringify transaction) keyPair in
    Some (Transaction.mk from to amount fee signature now (Account.nonce fromAccount + 1))
  end.

(** [processTransaction]: the account objects are updated in place, the
    sender first, then the recipient as it stands after that. *)
Definition processTransaction (st : t) (transaction : Transaction.t) : t * bool :=
  if negb (validateTransaction st transaction) then (st, false)
  else
    match getAccount st (Transaction.from transaction) with
    | None => (st, false)
    | Some fromAccount =>
      let st :=
        match getAccount st (Transaction.to transaction) with
        | None => (createAccount st (Transaction.to transaction) 0).1
        | Some _ => st
        end in
      let st := set_accounts st
        (<[Transaction.from transaction :=
             Account.mk (Account.publicKey fromAccount)
               (Account.balance fromAccount
                - (Transaction.amount transaction + Transaction.fee transaction))
               (Transaction.nonce transaction)]> (accounts st)) in
      match getAccount st (Transaction.to transaction) with
      | None => (st, false)
      | Some updatedToAccount =>
        let st := set_accounts st
          (<[Transaction.to transaction :=
               Account.mk (Account.publicKey updatedToAccount)
                 (Account.balance updatedToAccount + Transaction.amount transaction)
                 (Account.nonce updatedToAccount)]> (accounts st)) in
        (mk (accounts st) (transactionPool st)
            ({[getTransactionId transaction]} ∪ processedTransactions st), true)
      end
    end.

(** The loop of [processTransactionBatch]. *)
Fixpoint processTransactionBatch (st : t) (transactions : list Transaction.t)
  : t * list Transaction.t :=
  match transactions with
  | [] => (st, [])
  | transaction :: rest =>
    let '(st, success) := processTransaction st transaction in
    let '(st, processed) := processTransactionBatch st rest in
    (st, if success then transaction :: processed else processed)
  end.


(** The accounts after a transaction was applied, as the two in-place
    updates leave them. *)
Definition credited (st : t) (transaction : Transaction.t) : Account.t :=
  match accounts st !! Transaction.to transaction with
  | Some toAccount =>
    Account.mk (Account.publicKey toAccount)
      (Account.balance toAccount + Transaction.amount transaction) (Account.nonce toAccount)
  | None => Account.mk (Transaction.to transaction) (Transaction.amount transaction) 0
  end.

Definition applied (st : t) (transaction : Transaction.t) (fromAccount : Account.t)
  : gmap jsstring Account.t :=
  if decide (Transaction.from transaction = Transaction.to transaction) then
    <[Transaction.from transaction :=
        Account.mk (Account.publicKey fromAccount)
          (Account.balance fromAccount - Transaction.fee transaction)
          (Transaction.nonce transaction)]> (accounts st)
  else
    <[Transaction.to transaction := credited st transaction]>
      (<[Transaction.from transaction :=
           Account.mk (Account.publicKey fromAccount)
             (Account.balance fromAccount
              - (Transaction.amount transaction + Transaction.fee transaction))
             (Transaction.nonce transaction)]> (accounts st)).

Lemma validateTransaction_true st transaction :
  validateTransaction st transaction = true ->
  (getTransactionId transaction ∉ processedTransactions st) /\
  exists fromAccount,
    accounts st !! Transaction.from transaction = Some fromAccount /\
    Transaction.amount transaction + Transaction.fee transaction
      <= Account.balance fromAccount /\
    Transaction.nonce transaction = Account.nonce fromAccount + 1.
Proof.
  unfold TransactionProcessor.validateTransaction, getAccount.
  destruct (bool_decide _) eqn:Hid; [done|]. apply bool_decide_eq_false in Hid.
  destruct (accounts st !! Transaction.from transaction) as [a|]; [|done].
  destruct (_ <? _) eqn:Hbal; [done|]. apply Z.ltb_ge in Hbal.
  destruct (_ =? _) eqn:Hnonce; [|done]. apply Z.eqb_eq in Hnonce.
  intros _. split; [done|]. by exists a.
Qed.

Lemma processTransaction_accepted st transaction :
  validateTransaction st transaction = true ->
  exists fromAccount,
    accounts st !! Transaction.from transaction = Some fromAccount /\
    processTransaction st transaction =
    (mk (applied st transaction fromAccount) (transactionPool st)
        ({[getTransactionId transaction]} ∪ processedTransactions st), true).
Proof.
  intros Hvalid.
  destruct (validateTransaction_true st transaction Hvalid)
    as (_ & fromAccount & Hfrom & _ & _).
  exists fromAccount. split; [done|].
  unfold processTransaction, applied, credited, getAccount. rewrite Hvalid, Hfrom.
  cbn [negb]. destruct (decide (Transaction.from transaction = Transaction.to transaction))
    as [Heq|Hne].
  - rewrite <- Heq, Hfrom. cbn [set_accounts accounts transactionPool processedTransactions].
    rewrite lookup_insert_eq. cbn [Account.publicKey Account.balance Account.nonce].
    rewrite insert_insert_eq. do 4 f_equal. lia.
  - destruct (accounts st !! Transaction.to transaction) as [toAccount|] eqn:Hto;
      cbn [createAccount fst set_accounts accounts transactionPool processedTransactions].
    + rewrite lookup_insert_ne by done. by rewrite Hto.
    + rewrite lookup_insert_ne by done. rewrite lookup_insert_eq.
      cbn [Account.publicKey Account.balance Account.nonce].
      rewrite (insert_insert_ne _ (Transaction.from transaction)) by done.
      rewrite insert_insert_eq. rewrite Z.add_0_l.
      by rewrite insert_insert_ne by done.
Qed.

Lemma processTransaction_result st transaction :
  (processTransaction st transaction).2 = validateTransaction st transaction.
Proof.
  destruct (validateTransaction st transaction) eqn:Hvalid.
  - by destruct (processTransaction_accepted st transaction Hvalid) as (? & _ & ->).
  - unfold processTransaction. by rewrite Hvalid.
Qed.

Lemma processTransaction_refused st transaction :
  validateTransaction st transaction = false ->
  processTransaction st transaction = (st, false).
Proof. intros Hvalid. unfold processTransaction. by rewrite Hvalid. Qed.


(** X11. A transaction that was applied cannot be applied again: after
    [processTransaction] returned true, it returns false, and leaves the
    state alone, for every transaction with the same sender, recipient,
    nonce and timestamp. A refused transaction changes nothing. *)
Theorem processTransaction_no_replay st transaction :
  ((processTransaction st transaction).2 = true ->
   forall again,
     getTransactionId again = getTransactionId transaction ->
     processTransaction (processTransaction st transaction).1 again
     = ((processTransaction st transaction).1, false)) /\
  ((processTransaction st transaction).2 = false ->
   (processTransaction st transaction).1 = st).
Proof.
  rewrite processTransaction_result. split.
  - intros Hvalid again Hid.
    destruct (processTransaction_accepted st transaction Hvalid) as (a & _ & ->).
    cbn [fst]. apply processTransaction_refused.
    unfold TransactionProcessor.validateTransaction.
    cbn [processedTransactions]. rewrite Hid.
    rewrite bool_decide_eq_true_2; [done|]. apply elem_of_union_l, elem_of_singleton. done.
  - intros Hvalid. by rewrite processTransaction_refused.
Qed.



(** X14. With a non-negative amount, applying a transaction never makes a
    balance negative: if no account had a negative balance before
    [processTransaction], none has one after it. *)
Theorem processTransaction_keeps_balances_nonnegative st transaction :
  (forall publicKey account,
     accounts st !! publicKey = Some account -> 0 <= Account.balance account) ->
  0 <= Transaction.amount transaction ->
  forall publicKey account,
    accounts (processTransaction st transaction).1 !! publicKey = Some account ->
    0 <= Account.balance account.
Proof.
  intros Hnonneg Hamount k account.
  destruct (validateTransaction st transaction) eqn:Hvalid; cycle 1.
  { rewrite processTransaction_refused by done. apply Hnonneg. }
  destruct (validateTransaction_true st transaction Hvalid) as (_ & a' & Hfrom' & Hbal & _).
  destruct (processTransaction_accepted st transaction Hvalid) as (a & Hfrom & ->).
  rewrite Hfrom in Hfrom'. injection Hfrom' as <-.
  unfold applied. cbn [fst accounts].
  destruct (decide (Transaction.from transaction = Transaction.to transaction)) as [Heq|Hne].
  - destruct (decide (Transaction.from transaction = k)) as [<-|Hk].
    + rewrite lookup_insert_eq. intros [= <-]. cbn. lia.
    + rewrite lookup_insert_ne by done. apply Hnonneg.
  - destruct (decide (Transaction.to transaction = k)) as [<-|Hk].
    + rewrite lookup_insert_eq. intros [= <-]. unfold credited.
      destruct (accounts st !! Transaction.to transaction) as [toAccount|] eqn:Hto; cbn.
      * specialize (Hnonneg _ _ Hto). lia.
      * lia.
    + rewrite lookup_insert_ne by done.
      destruct (decide (Transaction.from transaction = k)) as [<-|Hk'].
      * rewrite lookup_insert_eq. intros [= <-]. cbn. lia.
      * rewrite lookup_insert_ne by done. apply Hnonneg.
Qed.

Lemma processTransaction_processed st transaction :
  processedTransactions (processTransaction st transaction).1
  = (if (processTransaction st transaction).2
     then {[getTransactionId transaction]} ∪ processedTransactions st
     else processedTransactions st).
Proof.
  rewrite processTransaction_result.
  destruct (validateTransaction st transaction) eqn:Hvalid.
  - by destruct (processTransaction_accepted st transaction Hvalid) as (a & _ & ->).
  - by rewrite processTransaction_refused.
Qed.

(** X15. [processTransactionBatch] returns, in their order, transactions of
    its input; each of them was new (its id not among the processed ones
    before the batch), no two of them share an id, and afterwards exactly
    their ids have joined the processed set. *)
Theorem processTransactionBatch_no_replay st transactions :
  let result := processTransactionBatch st transactions in
  result.2 `sublist_of` transactions /\
  NoDup (getTransactionId <$> result.2) /\
  (forall transaction, transaction ∈ result.2 ->
                       getTransactionId transaction ∉ processedTransactions st) /\
  processedTransactions result.1
  = list_to_set (getTransactionId <$> result.2) ∪ processedTransactions st.
Proof.
  cbn zeta. revert st. induction transactions as [|tx rest IH]; intros st.
  { cbn. split; [done|]. split; [constructor|]. split.
    - intros ? Hin. by apply elem_of_nil in Hin.
    - by rewrite union_empty_l_L. }
  cbn [processTransactionBatch].
  pose proof (processTransaction_processed st tx) as Hproc.
  pose proof (processTransaction_result st tx) as Hres.
  destruct (processTransaction st tx) as [st1 success]. cbn [fst snd] in *.
  specialize (IH st1). destruct (processTransactionBatch st1 rest) as [st2 processed].
  cbn [fst snd] in *. destruct IH as (Hsub & Hnd & Hnew & Hset).
  destruct success.
  - assert (getTransactionId tx ∉ processedTransactions st) as Hfresh.
    { symmetry in Hres. by apply validateTransaction_true in Hres as [? _]. }
    split; [by apply sublist_skip|]. split; [|split].
    + rewrite fmap_cons. apply NoDup_cons. split; [|done].
      intros (tx' & Hid & Hin)%list_elem_of_fmap. apply (Hnew tx' Hin).
      rewrite Hproc, <- Hid. apply elem_of_union_l. by apply elem_of_singleton.
    + intros tx' [->|Hin]%elem_of_cons; [done|].
      intros Hold. apply (Hnew tx' Hin). rewrite Hproc. by apply elem_of_union_r.
    + rewrite Hset, Hproc, fmap_cons. cbn [list_to_set].
      apply set_eq. intros x. rewrite !elem_of_union. tauto.
  - split; [by apply sublist_cons|]. split; [done|]. split.
    + intros tx' Hin. rewrite <- Hproc. by apply Hnew.
    + by rewrite Hset, Hproc.
Qed.

Hypothesis sha256_length : forall m, length (sha256 m) = 32%nat.

(** X16. The transaction [createTransaction] builds for an existing sender
    passes [validateTransaction] exactly when no transaction with its id
    was processed before, the sender's balance covers amount plus fee, and
    [Buffer.from(from, 'hex')] of the sender's key is 32 bytes long. *)
Theorem validateTransaction_createTransaction st from to amount fee privateKey now
  fromAccount transaction :
  getAccount st from = Some fromAccount ->
  createTransaction st from to amount fee privateKey now = Some transaction ->
  (validateTransaction st transaction = true <->
   (getTransactionId transaction ∉ processedTransactions st) /\
   amount + fee <= Account.balance fromAccount /\
   length (hex_decode from) = 32%nat).
Proof using sha256_length.
  intros Hfrom. unfold createTransaction. rewrite Hfrom. intros [= <-].
  unfold TransactionProcessor.validateTransaction.
  cbn [Transaction.from Transaction.to Transaction.amount Transaction.fee
       Transaction.nonce Transaction.timestamp Transaction.signature].
  rewrite Hfrom. rewrite Z.eqb_refl. cbn [negb].
  rewrite (Crypto.verifySignature_signMessage sha256 sha256_length).
  destruct (bool_decide (_ ∈ processedTransactions st)) eqn:Hid.
  { apply bool_decide_eq_true in Hid. split; [done|]. by intros [? _]. }
  apply bool_decide_eq_false in Hid.
  destruct (_ <? _) eqn:Hbal.
  { apply Z.ltb_lt in Hbal. split; [done|]. intros (_ & ? & _). lia. }
  apply Z.ltb_ge in Hbal. rewrite bool_decide_eq_true. by intuition.
Qed.

End Ledger.

(** A transfer of 500 with a fee of 10 from the funded account to an
    account that does not exist yet. *)
Definition transfer : Transaction.t :=
  Transaction.mk BlockProducer.hex_key (js "bob") 500 10 BlockProducer.hex_key 1 1.

Definition created_transfer : Transaction.t :=
  default transfer
    (createTransaction Sample.digest sample_stringify funded BlockProducer.hex_key
       (js "bob") 500 10 (js "00") 1).



Lemma funded_balances publicKey account :
  accounts funded !! publicKey = Some account -> 0 <= Account.balance account.
Proof.
  unfold funded. cbn [createAccount fst accounts]. intros Hk.
  apply lookup_insert_Some in Hk as [[_ <-]|[_ Hk]]; [vm_compute; discriminate|].
  change (accounts new) with (∅ : gmap jsstring Account.t) in Hk.
  by rewrite lookup_empty in Hk.
Qed.

Lemma processTransaction_keeps_balances_nonnegative_witness :
  0 <= Account.balance (Account.mk (js "bob") 500 0).
Proof.
  apply (processTransaction_keeps_balances_nonnegative Sample.digest sample_stringify
           funded transfer funded_balances) with (publicKey := js "bob").
  - vm_compute. discriminate.
  - vm_compute. reflexivity.
Defined.

Lemma validateTransaction_createTransaction_witness :
  validateTransaction Sample.digest sample_stringify funded created_transfer = true <->
  (getTransactionId created_transfer ∉ processedTransactions funded) /\
  500 + 10 <= Account.balance (Account.mk BlockProducer.hex_key 1000 0) /\
  length (hex_decode BlockProducer.hex_key) = 32%nat.
Proof.
  apply (validateTransaction_createTransaction Sample.digest sample_stringify
           Sample.digest_length funded BlockProducer.hex_key (js "bob") 500 10 (js "00") 1
           (Account.mk BlockProducer.hex_key 1000 0) created_transfer);
    vm_compute; reflexivity.
Defined.

End TransactionProcessor.
